(** * SimpleMessenger transport: Accepter and Pipe

    A shallow embedding of the parts of [src/msg/Accepter.cc] and
    [src/msg/Pipe.cc] that decide the properties stated about them:
    the accept loop and the port scan of [bind], the outbound queues and
    sequence counters, the reader's duplicate filter, the throttle
    accounting of [read_message], [fault], the delay thread, the writer's
    loop, the framing of [write_message] over [do_sendmsg], the socket
    helpers, the connect-race and replacement logic of [Pipe::accept], and
    the handshake loop of [Pipe::connect].

    Conventions.
    - C++ unsigned integers are [Z] with the wrap-around written out
      ([wrap64], [wrap32]); the [int]s of [write_message] are [Z] with the
      conversion [to_int] and the range checks written out.
    - [std::list<Message*>] is [list Message]; [front()] is the head.
    - [std::map<int, list<Message*> >] and [hash_map<entity_addr_t, Pipe*>]
      are stdpp [gmap]s; pointers to Pipes and Connections are [nat]s.
    - Socket reads and writes, random bytes and the flags set by other
      threads are inputs of the functions; bytes on the wire are a list. What a function does to its collaborators
      (registry, dispatch queue, throttles, condition variable) is recorded
      in the state it returns.
    - [utime_t] durations are exact numbers of nanoseconds in [Z]; the
      conversions from the configuration's doubles are outside the model.

    Part I holds the definitions, Part II the lemmas and theorems. *)

From Stdlib Require Import ZArith List Bool Lia Sorted.
From stdpp Require Import base decidable option list numbers countable gmap fin_maps.

Local Open Scope Z_scope.

(** * Part I: definitions *)

(** ** Machine integers *)

Definition wrap64 (z : Z) : Z := z mod 2 ^ 64.
Definition wrap32 (z : Z) : Z := z mod 2 ^ 32.

(** The greatest C [int], and the conversion of an integer value to [int]
    (in two's complement, the value modulo 2^32 that lies in the range of
    [int]). *)
Definition INT_MAX : Z := 2 ^ 31 - 1.
Definition to_int (z : Z) : Z := (z + 2 ^ 31) mod 2 ^ 32 - 2 ^ 31.

(** ** Accepter::entry (Accepter.cc) *)

Module Accepter.

(** What one turn of the [while (!done)] loop observes: the [done] flag at
    the loop head, the result of [rpoll], [pfd.revents], the [done] flag
    after the poll, and the result of [raccept]. *)
Record turn := Turn {
  done_at_head : bool;
  poll_result : Z;
  revents : Z;
  done_after_poll : bool;
  accept_sd : Z
}.

(** [POLLERR | POLLNVAL | POLLHUP], with the values of <poll.h>. *)
Definition POLLERR : Z := 8.
Definition POLLHUP : Z := 16.
Definition POLLNVAL : Z := 32.
Definition hangup_mask : Z := Z.lor POLLERR (Z.lor POLLNVAL POLLHUP).

Inductive loop_status := Looping | Left.

(** [errors] is the local counter of [entry]; [accepted] lists the
    descriptors handed to [msgr->add_accept_pipe], oldest first. *)
Record loop := Loop {
  status : loop_status;
  errors : Z;
  accepted : list Z
}.

Definition leave (l : loop) : loop := Loop Left (errors l) (accepted l).

(** The body of the [while (!done)] loop. *)
Definition body (l : loop) (t : turn) : loop :=
  match status l with
  | Left => l
  | Looping =>
    if done_at_head t then leave l
    else if poll_result t <? 0 then leave l
    else if negb (Z.land (revents t) hangup_mask =? 0) then leave l
    else if done_after_poll t then leave l
    else if 0 <=? accept_sd t then
      Loop Looping 0 (accepted l ++ [accept_sd t])
    else
      let e := errors l + 1 in              (* ++errors *)
      if 4 <? e then Loop Left e (accepted l)
      else Loop Looping e (accepted l)
  end.

Definition start : loop := Loop Looping 0 [].

Definition run (l : loop) (ts : list turn) : loop := fold_left body ts l.

Definition entry (ts : list turn) : loop := run start ts.

(** The turn reaches the [raccept] call. *)
Definition reaches_accept (t : turn) : Prop :=
  done_at_head t = false /\ 0 <= poll_result t /\
  Z.land (revents t) hangup_mask = 0 /\ done_after_poll t = false.

Definition accept_fails (t : turn) : Prop :=
  reaches_accept t /\ accept_sd t < 0.

Definition accept_succeeds (t : turn) : Prop :=
  reaches_accept t /\ 0 <= accept_sd t.

(** A turn in which the poll reports a readable listener and [raccept]
    returns [sd]. *)
Definition accept_turn (sd : Z) : turn := Turn false 1 1 false sd.

Definition five_failures : list turn := repeat (accept_turn (-1)) 5.
Definition four_failures : list turn := repeat (accept_turn (-1)) 4.

(** *** Accepter::bind and Accepter::rebind *)

(** What the socket calls of [bind] do: [None] when the call succeeds,
    [Some e] when it fails and leaves [errno] at [e] for the [return
    -errno] that follows. [rbind] is given for every port. [stale_errno] is
    [errno] as the port loop finds it: no call of [bind] before the loop
    sets it. *)
Record socket_calls := SocketCalls {
  rsocket : option Z;
  rsetsockopt : option Z;
  rbind : Z -> option Z;
  rgetsockname : option Z;
  rlisten : option Z;
  stale_errno : Z
}.

(** The loop [for (port = ms_bind_port_min; port <= ms_bind_port_max;
    port++)] of [bind], from [port] on, with [rc], [errno] and the port of
    [listen_addr] as the earlier turns left them. [turns] bounds the number
    of turns; [bind_port_range] gives it the size of the range. *)
Fixpoint scan_ports (turns : nat) (port port_max avoid_port1 avoid_port2 : Z)
  (s : socket_calls) (rc errno listen_port : Z) : Z * Z * Z :=
  match turns with
  | O => (rc, errno, listen_port)
  | S turns' =>
    if port_max <? port then (rc, errno, listen_port)
    else if (port =? avoid_port1) || (port =? avoid_port2) then
      scan_ports turns' (port + 1) port_max avoid_port1 avoid_port2 s
                 rc errno listen_port
    else
      match rbind s port with
      | None => (0, errno, port)
      | Some e =>
        scan_ports turns' (port + 1) port_max avoid_port1 avoid_port2 s
                   (-1) e port
      end
  end.

(** The "try a range of ports" branch: [rc] starts at -1 and [errno] is
    what it was. The result is [rc], [errno] and the port of [listen_addr]
    after the loop. The ports are [int]s; the range is taken to lie within
    them. *)
Definition bind_port_range (port_min port_max avoid_port1 avoid_port2 : Z)
  (s : socket_calls) : Z * Z * Z :=
  scan_ports (Z.to_nat (port_max - port_min + 1)) port_min port_max
             avoid_port1 avoid_port2 s (-1) (stale_errno s) 0.

(** What [bind] leaves: the value it returns, the port [listen_sd] was
    bound to by an [rbind] that succeeded, and whether [rlisten] was called
    and succeeded. *)
Record bind_result := BindResult {
  bind_rc : Z;
  bound_port : option Z;
  listening : bool
}.

(** The end of [bind], from [rgetsockname] on, with [listen_sd] bound to
    [port]. A socket bound to a port reports that port through
    [rgetsockname]. *)
Definition bind_listen (s : socket_calls) (port : Z) : bind_result :=
  match rgetsockname s with
  | Some e => BindResult (- e) (Some port) false
  | None =>
    match rlisten s with
    | Some e => BindResult (- e) (Some port) false
    | None => BindResult 0 (Some port) true
    end
  end.

(** [Accepter::bind] up to [rlisten]. [bind_port] is the port of
    [bind_addr]. After the port loop the test is [rc < 0], and the value
    returned is [-errno]: when every port of the range is skipped, no
    [rbind] is called, [rc] is still -1 and [errno] is the stale one. *)
Definition bind (port_min port_max : Z) (s : socket_calls)
  (bind_port avoid_port1 avoid_port2 : Z) : bind_result :=
  match rsocket s with
  | Some e => BindResult (- e) None false
  | None =>
    if negb (bind_port =? 0) then
      (* specific port *)
      match rsetsockopt s with
      | Some e => BindResult (- e) None false
      | None =>
        match rbind s bind_port with
        | Some e => BindResult (- e) None false
        | None => bind_listen s bind_port
        end
      end
    else
      (* try a range of ports *)
      let '(rc, errno, port) :=
        bind_port_range port_min port_max avoid_port1 avoid_port2 s in
      if rc <? 0 then BindResult (- errno) None false
      else bind_listen s port
  end.

(** [p] is the first port from [lo] up to [hi] that is not to be avoided
    and that [rbind] accepts. *)
Definition first_free (s : socket_calls) (lo hi avoid1 avoid2 p : Z) : Prop :=
  lo <= p <= hi /\ p <> avoid1 /\ p <> avoid2 /\ rbind s p = None /\
  forall q, lo <= q < p -> q = avoid1 \/ q = avoid2 \/ rbind s q <> None.

(** Every port from [lo] up to [hi] is one of the two to avoid. *)
Definition all_avoided (lo hi avoid1 avoid2 : Z) : Prop :=
  forall q, lo <= q <= hi -> q = avoid1 \/ q = avoid2.

(** A call that fails leaves a positive [errno]. *)
Definition sets_errno (s : socket_calls) : Prop :=
  forall e,
    rsocket s = Some e \/ rsetsockopt s = Some e \/
    (exists port, rbind s port = Some e) \/
    rgetsockname s = Some e \/ rlisten s = Some e ->
    0 < e.

(** [Accepter::rebind]: [old_port] is the port of the messenger's address;
    the address is bound again with its port set to 0. The second
    component tells whether [start()] is called, which is when [bind]
    returns 0. *)
Definition rebind (port_min port_max : Z) (s : socket_calls)
  (old_port avoid_port : Z) : bind_result * bool :=
  let r := bind port_min port_max s 0 old_port avoid_port in
  (r, bind_rc r =? 0).

End Accepter.

(** ** Pipe (Pipe.cc) *)

Module Pipe.

(** *** Data *)

(** The [STATE_*] enumeration of a Pipe. *)
Inductive pipe_state :=
| STATE_ACCEPTING
| STATE_CONNECTING
| STATE_OPEN
| STATE_STANDBY
| STATE_CLOSED
| STATE_CLOSING
| STATE_WAIT.

#[global] Instance pipe_state_eq_dec : EqDecision pipe_state.
Proof. solve_decision. Defined.

(** Constants of the protocol headers ([msgr.h], [ceph_features.h]) that
    Pipe.cc uses by name. The headers are not among the sources, so the
    values are parameters of the development. *)
Class Headers := {
  CEPH_MSG_PRIO_HIGHEST : Z;
  CEPH_FEATURE_MSG_AUTH : Z;
  CEPH_FEATURE_RECONNECT_SEQ : Z;
  CEPH_MSG_FOOTER_COMPLETE : Z
}.

(** [#define SEQ_MASK 0x7fffffff] *)
Definition SEQ_MASK : Z := 0x7fffffff.

(** A message: the header's [seq] (64-bit) and [priority], the size it
    reserved from the dispatch throttle, and [body], which stands for the
    payload and identifies the message. *)
Record Message := Msg {
  get_seq : Z;
  get_priority : Z;
  get_dispatch_throttle_size : Z;
  body : nat
}.

#[global] Instance Message_eq_dec : EqDecision Message.
Proof. solve_decision. Defined.

Definition set_seq (s : Z) (m : Message) : Message :=
  Msg s (get_priority m) (get_dispatch_throttle_size m) (body m).

Definition set_dispatch_throttle_size (n : Z) (m : Message) : Message :=
  Msg (get_seq m) (get_priority m) n (body m).

(** Modelled from the spec: [entity_addr_t] is declared in msg_types.h,
    which is not among the sources. A peer address is its address bytes,
    port and nonce, and the total order used for connect-race arbitration is
    lexicographic on (address, port, nonce). *)
Record entity_addr_t := Addr {
  addr_bytes : list Z;
  get_port : Z;
  get_nonce : Z
}.

#[global] Instance entity_addr_eq_dec : EqDecision entity_addr_t.
Proof. solve_decision. Defined.

#[global] Program Instance entity_addr_countable : Countable entity_addr_t :=
  inj_countable'
    (fun a => (addr_bytes a, get_port a, get_nonce a))
    (fun t => Addr t.1.1 t.1.2 t.2) _.
Next Obligation. intros []. reflexivity. Qed.

Fixpoint bytes_compare (x y : list Z) : comparison :=
  match x, y with
  | [], [] => Eq
  | [], _ :: _ => Lt
  | _ :: _, [] => Gt
  | a :: x', b :: y' =>
    match a ?= b with
    | Eq => bytes_compare x' y'
    | c => c
    end
  end.

Definition addr_compare (a b : entity_addr_t) : comparison :=
  match bytes_compare (addr_bytes a) (addr_bytes b) with
  | Eq =>
    match get_port a ?= get_port b with
    | Eq => get_nonce a ?= get_nonce b
    | c => c
    end
  | c => c
  end.

(** [operator<] on addresses. *)
Definition addr_lt (a b : entity_addr_t) : bool :=
  match addr_compare a b with Lt => true | _ => false end.

(** Modelled from the spec: [Throttle] is declared in common/Throttle.h,
    which is not among the sources. A throttler is a counted semaphore;
    [get] is a blocking acquire (it returns once the units are granted, so
    the model grants them) and [put] a non-blocking release. *)
Record Throttle := Thr { current : Z; maximum : Z }.

#[global] Instance Throttle_eq_dec : EqDecision Throttle.
Proof. solve_decision. Defined.

Definition throttle_get (c : Z) (t : Throttle) : Throttle :=
  Thr (current t + c) (maximum t).

Definition throttle_put (c : Z) (t : Throttle) : Throttle :=
  Thr (current t - c) (maximum t).

(** The per-peer-type policy; the throttlers are [None] for a NULL
    pointer. *)
Record Policy := Pol {
  lossy : bool;
  server : bool;
  standby : bool;
  resetcheck : bool;
  features_supported : Z;
  features_required : Z;
  throttler_bytes : option Throttle;
  throttler_messages : option Throttle
}.

(** Modelled from the spec: [Connection] is declared in Message.h, which is
    not among the sources. The connection_state object is shared between
    the Pipe and the application; it holds a back-reference to its Pipe that
    is cleared to a sentinel (with the connection marked failed) when the
    Pipe detaches, and the negotiated [features]. *)
Record Connection := Conn {
  pipe : option nat;
  failed : bool;
  features : Z
}.

(** The signals to the application, in the order they were queued. *)
Inductive notice :=
| queue_accept (con : nat)
| queue_connect (con : nat)
| queue_reset (con : nat)
| queue_remote_reset (con : nat).

#[global] Instance notice_eq_dec : EqDecision notice.
Proof. solve_decision. Defined.

(** The fields of a Pipe that Pipe.cc reads and writes in the functions
    below. [self] is the [this] pointer; [sd_shutdown] records that
    [shutdown_socket] was called; [delay_thread] is [None] for a NULL
    pointer and otherwise holds the [delay_queue] of (release time,
    message); [session_security] tells whether a signer is installed;
    [cond_signals] counts the calls of [cond.Signal] and [cond_waits] lists
    the intervals passed to [cond.WaitInterval]. *)
Record Pipe := Build_Pipe {
  self : nat;
  conn_id : Z;
  sd_shutdown : bool;
  peer_addr : entity_addr_t;
  policy : Policy;
  state : pipe_state;
  session_security : bool;
  connection_state : nat;
  delay_thread : option (list (Z * Message));
  out_q : gmap Z (list Message);
  sent : list Message;
  keepalive : bool;
  close_on_empty : bool;
  connect_seq : Z;
  peer_global_seq : Z;
  out_seq : Z;
  in_seq : Z;
  in_seq_acked : Z;
  backoff : Z;
  cond_signals : nat;
  cond_waits : list Z
}.

(** The part of the SimpleMessenger that Pipe.cc touches: its own address,
    the registry [rank_pipe], the Connection objects, the dispatch queue
    [in_q] as (conn_id, message) in arrival order, the notices queued for
    the application, and the global dispatch throttler. *)
Record Messenger := Build_Messenger {
  my_addr : entity_addr_t;
  rank_pipe : gmap entity_addr_t nat;
  connections : gmap nat Connection;
  dispatch_queue : list (Z * Message);
  notices : list notice;
  dispatch_throttler : Throttle
}.

(** The configuration values [fault] consumes, as durations. *)
Record Config := Conf {
  ms_initial_backoff : Z;
  ms_max_backoff : Z
}.

(** Field updates. *)

Definition set_conn_id (v : Z) (p : Pipe) : Pipe :=
  Build_Pipe (self p) v (sd_shutdown p) (peer_addr p) (policy p) (state p)
    (session_security p) (connection_state p) (delay_thread p) (out_q p)
    (sent p) (keepalive p) (close_on_empty p) (connect_seq p)
    (peer_global_seq p) (out_seq p) (in_seq p) (in_seq_acked p) (backoff p)
    (cond_signals p) (cond_waits p).

Definition set_sd_shutdown (v : bool) (p : Pipe) : Pipe :=
  Build_Pipe (self p) (conn_id p) v (peer_addr p) (policy p) (state p)
    (session_security p) (connection_state p) (delay_thread p) (out_q p)
    (sent p) (keepalive p) (close_on_empty p) (connect_seq p)
    (peer_global_seq p) (out_seq p) (in_seq p) (in_seq_acked p) (backoff p)
    (cond_signals p) (cond_waits p).

Definition set_policy (v : Policy) (p : Pipe) : Pipe :=
  Build_Pipe (self p) (conn_id p) (sd_shutdown p) (peer_addr p) v (state p)
    (session_security p) (connection_state p) (delay_thread p) (out_q p)
    (sent p) (keepalive p) (close_on_empty p) (connect_seq p)
    (peer_global_seq p) (out_seq p) (in_seq p) (in_seq_acked p) (backoff p)
    (cond_signals p) (cond_waits p).

Definition set_state (v : pipe_state) (p : Pipe) : Pipe :=
  Build_Pipe (self p) (conn_id p) (sd_shutdown p) (peer_addr p) (policy p) v
    (session_security p) (connection_state p) (delay_thread p) (out_q p)
    (sent p) (keepalive p) (close_on_empty p) (connect_seq p)
    (peer_global_seq p) (out_seq p) (in_seq p) (in_seq_acked p) (backoff p)
    (cond_signals p) (cond_waits p).

Definition set_connection_state (v : nat) (p : Pipe) : Pipe :=
  Build_Pipe (self p) (conn_id p) (sd_shutdown p) (peer_addr p) (policy p)
    (state p) (session_security p) v (delay_thread p) (out_q p) (sent p)
    (keepalive p) (close_on_empty p) (connect_seq p) (peer_global_seq p)
    (out_seq p) (in_seq p) (in_seq_acked p) (backoff p) (cond_signals p)
    (cond_waits p).

Definition set_delay_thread (v : option (list (Z * Message))) (p : Pipe) : Pipe :=
  Build_Pipe (self p) (conn_id p) (sd_shutdown p) (peer_addr p) (policy p)
    (state p) (session_security p) (connection_state p) v (out_q p) (sent p)
    (keepalive p) (close_on_empty p) (connect_seq p) (peer_global_seq p)
    (out_seq p) (in_seq p) (in_seq_acked p) (backoff p) (cond_signals p)
    (cond_waits p).

Definition set_out_q (v : gmap Z (list Message)) (p : Pipe) : Pipe :=
  Build_Pipe (self p) (conn_id p) (sd_shutdown p) (peer_addr p) (policy p)
    (state p) (session_security p) (connection_state p) (delay_thread p) v
    (sent p) (keepalive p) (close_on_empty p) (connect_seq p)
    (peer_global_seq p) (out_seq p) (in_seq p) (in_seq_acked p) (backoff p)
    (cond_signals p) (cond_waits p).

Definition set_sent (v : list Message) (p : Pipe) : Pipe :=
  Build_Pipe (self p) (conn_id p) (sd_shutdown p) (peer_addr p) (policy p)
    (state p) (session_security p) (connection_state p) (delay_thread p)
    (out_q p) v (keepalive p) (close_on_empty p) (connect_seq p)
    (peer_global_seq p) (out_seq p) (in_seq p) (in_seq_acked p) (backoff p)
    (cond_signals p) (cond_waits p).

Definition set_keepalive (v : bool) (p : Pipe) : Pipe :=
  Build_Pipe (self p) (conn_id p) (sd_shutdown p) (peer_addr p) (policy p)
    (state p) (session_security p) (connection_state p) (delay_thread p)
    (out_q p) (sent p) v (close_on_empty p) (connect_seq p)
    (peer_global_seq p) (out_seq p) (in_seq p) (in_seq_acked p) (backoff p)
    (cond_signals p) (cond_waits p).

Definition set_connect_seq (v : Z) (p : Pipe) : Pipe :=
  Build_Pipe (self p) (conn_id p) (sd_shutdown p) (peer_addr p) (policy p)
    (state p) (session_security p) (connection_state p) (delay_thread p)
    (out_q p) (sent p) (keepalive p) (close_on_empty p) v (peer_global_seq p)
    (out_seq p) (in_seq p) (in_seq_acked p) (backoff p) (cond_signals p)
    (cond_waits p).

Definition set_peer_global_seq (v : Z) (p : Pipe) : Pipe :=
  Build_Pipe (self p) (conn_id p) (sd_shutdown p) (peer_addr p) (policy p)
    (state p) (session_security p) (connection_state p) (delay_thread p)
    (out_q p) (sent p) (keepalive p) (close_on_empty p) (connect_seq p) v
    (out_seq p) (in_seq p) (in_seq_acked p) (backoff p) (cond_signals p)
    (cond_waits p).

Definition set_out_seq (v : Z) (p : Pipe) : Pipe :=
  Build_Pipe (self p) (conn_id p) (sd_shutdown p) (peer_addr p) (policy p)
    (state p) (session_security p) (connection_state p) (delay_thread p)
    (out_q p) (sent p) (keepalive p) (close_on_empty p) (connect_seq p)
    (peer_global_seq p) v (in_seq p) (in_seq_acked p) (backoff p)
    (cond_signals p) (cond_waits p).

Definition set_in_seq (v : Z) (p : Pipe) : Pipe :=
  Build_Pipe (self p) (conn_id p) (sd_shutdown p) (peer_addr p) (policy p)
    (state p) (session_security p) (connection_state p) (delay_thread p)
    (out_q p) (sent p) (keepalive p) (close_on_empty p) (connect_seq p)
    (peer_global_seq p) (out_seq p) v (in_seq_acked p) (backoff p)
    (cond_signals p) (cond_waits p).

Definition set_in_seq_acked (v : Z) (p : Pipe) : Pipe :=
  Build_Pipe (self p) (conn_id p) (sd_shutdown p) (peer_addr p) (policy p)
    (state p) (session_security p) (connection_state p) (delay_thread p)
    (out_q p) (sent p) (keepalive p) (close_on_empty p) (connect_seq p)
    (peer_global_seq p) (out_seq p) (in_seq p) v (backoff p) (cond_signals p)
    (cond_waits p).

Definition set_backoff (v : Z) (p : Pipe) : Pipe :=
  Build_Pipe (self p) (conn_id p) (sd_shutdown p) (peer_addr p) (policy p)
    (state p) (session_security p) (connection_state p) (delay_thread p)
    (out_q p) (sent p) (keepalive p) (close_on_empty p) (connect_seq p)
    (peer_global_seq p) (out_seq p) (in_seq p) (in_seq_acked p) v
    (cond_signals p) (cond_waits p).

Definition set_cond_signals (v : nat) (p : Pipe) : Pipe :=
  Build_Pipe (self p) (conn_id p) (sd_shutdown p) (peer_addr p) (policy p)
    (state p) (session_security p) (connection_state p) (delay_thread p)
    (out_q p) (sent p) (keepalive p) (close_on_empty p) (connect_seq p)
    (peer_global_seq p) (out_seq p) (in_seq p) (in_seq_acked p) (backoff p) v
    (cond_waits p).

Definition set_cond_waits (v : list Z) (p : Pipe) : Pipe :=
  Build_Pipe (self p) (conn_id p) (sd_shutdown p) (peer_addr p) (policy p)
    (state p) (session_security p) (connection_state p) (delay_thread p)
    (out_q p) (sent p) (keepalive p) (close_on_empty p) (connect_seq p)
    (peer_global_seq p) (out_seq p) (in_seq p) (in_seq_acked p) (backoff p)
    (cond_signals p) v.

Definition set_rank_pipe (v : gmap entity_addr_t nat) (p : Messenger) : Messenger :=
  Build_Messenger (my_addr p) v (connections p) (dispatch_queue p) (notices p)
    (dispatch_throttler p).

Definition set_connections (v : gmap nat Connection) (p : Messenger) : Messenger :=
  Build_Messenger (my_addr p) (rank_pipe p) v (dispatch_queue p) (notices p)
    (dispatch_throttler p).

Definition set_dispatch_queue (v : list (Z * Message)) (p : Messenger) : Messenger :=
  Build_Messenger (my_addr p) (rank_pipe p) (connections p) v (notices p)
    (dispatch_throttler p).

Definition set_notices (v : list notice) (p : Messenger) : Messenger :=
  Build_Messenger (my_addr p) (rank_pipe p) (connections p) (dispatch_queue p)
    v (dispatch_throttler p).

Definition set_dispatch_throttler (v : Throttle) (p : Messenger) : Messenger :=
  Build_Messenger (my_addr p) (rank_pipe p) (connections p) (dispatch_queue p)
    (notices p) v.

Definition state_is (s : pipe_state) (p : Pipe) : bool :=
  bool_decide (state p = s).

(** [out_q[k]] read as a value: the list at [k], empty when the key is
    absent. *)
Definition bucket (q : gmap Z (list Message)) (k : Z) : list Message :=
  default [] (q !! k).

(** *** Small operations *)

Section Operations.
Context {hdr : Headers}.

(** [cond.Signal()]. *)
Definition cond_Signal (p : Pipe) : Pipe :=
  set_cond_signals (S (cond_signals p)) p.

(** [cond.WaitInterval(cct, pipe_lock, t)]: the wait is recorded; what
    other threads do to the Pipe meanwhile is outside the model. *)
Definition cond_WaitInterval (t : Z) (p : Pipe) : Pipe :=
  set_cond_waits (cond_waits p ++ [t]) p.

(** Modelled from the spec: [shutdown_socket] is defined in Pipe.h, which
    is not among the sources; it half-closes the socket to wake the
    workers. *)
Definition shutdown_socket (p : Pipe) : Pipe := set_sd_shutdown true p.

(** [Pipe::stop] *)
Definition stop (p : Pipe) : Pipe :=
  shutdown_socket (cond_Signal (set_state STATE_CLOSED p)).

(** Modelled from the spec: [is_queued] is defined in Pipe.h, which is not
    among the sources; a Pipe has work queued when [out_q] is non-empty or
    a keepalive is pending. *)
Definition is_queued (p : Pipe) : bool :=
  negb (bool_decide (out_q p = ∅)) || keepalive p.

(** Modelled from the spec: [_send] is defined in Pipe.h, which is not
    among the sources; a submitted message goes to the back of the bucket of
    its priority and the writer is signalled. *)
Definition _send (m : Message) (p : Pipe) : Pipe :=
  cond_Signal
    (set_out_q (<[get_priority m := bucket (out_q p) (get_priority m) ++ [m]]>
                  (out_q p)) p).

(** Modelled from the spec: [_send_keepalive] is defined in Pipe.h, which
    is not among the sources; it sets the keepalive flag and signals the
    writer. *)
Definition _send_keepalive (p : Pipe) : Pipe :=
  cond_Signal (set_keepalive true p).

(** The highest priority whose bucket holds a message. *)
Definition top_priority (q : gmap Z (list Message)) : option Z :=
  map_fold
    (fun k l acc =>
       match l with
       | [] => acc
       | _ :: _ =>
         match acc with
         | None => Some k
         | Some k' => Some (Z.max k k')
         end
       end)
    None q.

(** Modelled from the spec: [_get_next_outgoing] is defined in Pipe.h,
    which is not among the sources; it takes the head of the highest-priority
    non-empty bucket (within a bucket, insertion order). *)
Definition _get_next_outgoing (q : gmap Z (list Message))
  : option (Message * gmap Z (list Message)) :=
  match top_priority q with
  | None => None
  | Some k =>
    match bucket q k with
    | [] => None
    | m :: rest => Some (m, <[k := rest]> q)
    end
  end.

(** Modelled from the spec: [DispatchQueue::enqueue] and
    [DispatchQueue::discard_queue] are not among the sources; the dispatch
    queue receives messages in the order they are enqueued, and
    [discard_queue] drops what is in flight for one connection. *)
Definition enqueue (m : Message) (id : Z) (ms : Messenger) : Messenger :=
  set_dispatch_queue (dispatch_queue ms ++ [(id, m)]) ms.

Definition discard_queue (id : Z) (ms : Messenger) : Messenger :=
  set_dispatch_queue
    (filter (fun e => negb (bool_decide (e.1 = id))) (dispatch_queue ms)) ms.

(** Modelled from the spec: [SimpleMessenger::dispatch_throttle_release] is
    not among the sources; it is the non-blocking release of the global
    dispatch throttle. *)
Definition dispatch_throttle_release (msize : Z) (ms : Messenger) : Messenger :=
  set_dispatch_throttler (throttle_put msize (dispatch_throttler ms)) ms.

Definition queue_notice (n : notice) (ms : Messenger) : Messenger :=
  set_notices (notices ms ++ [n]) ms.

(** Modelled from the spec: [Connection::reset_pipe] and
    [Connection::clear_pipe] are not among the sources; [reset_pipe] points
    the connection at a Pipe, [clear_pipe] clears the back-reference of the
    given Pipe to the sentinel and marks the connection failed. *)
Definition reset_pipe (con : nat) (p : nat) (ms : Messenger) : Messenger :=
  set_connections
    (alter (fun c => Conn (Some p) (failed c) (features c)) con
           (connections ms)) ms.

Definition clear_pipe (con : nat) (old_p : nat) (ms : Messenger) : Messenger :=
  set_connections
    (alter (fun c =>
              if bool_decide (pipe c = Some old_p)
              then Conn None true (features c) else c) con
           (connections ms)) ms.

(** [Pipe::register_pipe]. [existing] is what
    [msgr->_lookup_pipe(peer_addr)] returns ([_lookup_pipe] is defined in
    SimpleMessenger.h, which is not among the sources); the result is
    [None] when [assert(existing == NULL)] fails. *)
Definition register_pipe (existing : option Pipe) (p : Pipe) (ms : Messenger)
  : option Messenger :=
  match existing with
  | Some _ => None
  | None => Some (set_rank_pipe (<[peer_addr p := self p]> (rank_pipe ms)) ms)
  end.

(** [Pipe::unregister_pipe] *)
Definition unregister_pipe (p : Pipe) (ms : Messenger) : Messenger :=
  if bool_decide (rank_pipe ms !! peer_addr p = Some (self p))
  then set_rank_pipe (delete (peer_addr p) (rank_pipe ms)) ms
  else ms.

(** [Pipe::DelayedDelivery::discard], for a Pipe that has a delay
    thread. *)
Definition delay_discard (dq : list (Z * Message)) (ms : Messenger) : Messenger :=
  fold_left
    (fun acc e => dispatch_throttle_release (get_dispatch_throttle_size e.2) acc)
    dq ms.

(** [Pipe::DelayedDelivery::flush] *)
Definition delay_flush (id : Z) (dq : list (Z * Message)) (ms : Messenger) : Messenger :=
  fold_left (fun acc e => enqueue e.2 id acc) dq ms.

(** Modelled from the spec: [DelayedDelivery::queue] is defined in Pipe.h,
    which is not among the sources; the delay queue holds the deferred
    inbound messages with their release times, in arrival order. *)
Definition delay_queue_push (release : Z) (m : Message)
  (dq : list (Z * Message)) : list (Z * Message) :=
  dq ++ [(release, m)].

(** [if (delay_thread) delay_thread->discard();] *)
Definition discard_delayed (p : Pipe) (ms : Messenger) : Pipe * Messenger :=
  match delay_thread p with
  | None => (p, ms)
  | Some dq => (set_delay_thread (Some []) p, delay_discard dq ms)
  end.

(** [if (delay_thread) delay_thread->flush();] *)
Definition flush_delayed (p : Pipe) (ms : Messenger) : Pipe * Messenger :=
  match delay_thread p with
  | None => (p, ms)
  | Some dq => (set_delay_thread (Some []) p, delay_flush (conn_id p) dq ms)
  end.

End Operations.
(** *** Queues and sequence numbers *)

Section Queues.
Context {hdr : Headers}.

(** The [while] loop of [handle_ack]: pop the front of [sent] while its
    seq is at most the acked one. *)
Fixpoint trim_sent (seq : Z) (l : list Message) : list Message :=
  match l with
  | [] => []
  | m :: rest => if get_seq m <=? seq then trim_sent seq rest else l
  end.

(** [Pipe::handle_ack] *)
Definition handle_ack (seq : Z) (p : Pipe) : Pipe :=
  let p := set_sent (trim_sent seq (sent p)) p in
  match sent p with
  | [] => if close_on_empty p then stop p else p
  | _ :: _ => p
  end.

(** The [while (!sent.empty())] loop of [requeue_sent]. The first argument
    is [sent] read from its back ([sent.back()] is its head); each turn
    pushes the message on the front of [rq] and does [out_seq--]. *)
Fixpoint requeue_loop (from_back rq : list Message) (oseq : Z)
  : list Message * Z :=
  match from_back with
  | [] => (rq, oseq)
  | m :: rest => requeue_loop rest (m :: rq) (wrap64 (oseq - 1))
  end.

(** [Pipe::requeue_sent] *)
Definition requeue_sent (p : Pipe) : Pipe :=
  match sent p with
  | [] => p
  | _ :: _ =>
    let rq := bucket (out_q p) CEPH_MSG_PRIO_HIGHEST in
    let '(rq', oseq') := requeue_loop (rev (sent p)) rq (out_seq p) in
    set_out_seq oseq'
      (set_sent [] (set_out_q (<[CEPH_MSG_PRIO_HIGHEST := rq']> (out_q p)) p))
  end.

(** The [while (!rq.empty())] loop of [discard_requeued_up_to]. *)
Fixpoint discard_loop (seq : Z) (rq : list Message) (oseq : Z)
  : list Message * Z :=
  match rq with
  | [] => ([], oseq)
  | m :: rest =>
    if (get_seq m =? 0) || (seq <? get_seq m) then (rq, oseq)
    else discard_loop seq rest (wrap64 (oseq + 1))
  end.

(** [Pipe::discard_requeued_up_to]; [rq] is a reference to
    [out_q[CEPH_MSG_PRIO_HIGHEST]], which creates the bucket when it is
    absent. *)
Definition discard_requeued_up_to (seq : Z) (p : Pipe) : Pipe :=
  let rq := bucket (out_q p) CEPH_MSG_PRIO_HIGHEST in
  let '(rq', oseq') := discard_loop seq rq (out_seq p) in
  set_out_seq oseq' (set_out_q (<[CEPH_MSG_PRIO_HIGHEST := rq']> (out_q p)) p).

(** [Pipe::discard_out_queue] *)
Definition discard_out_queue (p : Pipe) : Pipe :=
  set_out_q ∅ (set_sent [] p).

(** [Pipe::randomize_out_seq]; [rnd] is what [get_random_bytes] wrote into
    the 64 bits of [out_seq]. *)
Definition randomize_out_seq (rnd : Z) (p : Pipe) (ms : Messenger) : Pipe :=
  let feats := default 0 (features <$> connections ms !! connection_state p) in
  if negb (Z.land feats CEPH_FEATURE_MSG_AUTH =? 0)
  then set_out_seq (Z.land (wrap64 rnd) SEQ_MASK) p
  else set_out_seq 0 p.

(** [Pipe::was_session_reset] *)
Definition was_session_reset (rnd : Z) (p : Pipe) (ms : Messenger)
  : Pipe * Messenger :=
  let ms := discard_queue (conn_id p) ms in
  let '(p, ms) := discard_delayed p ms in
  let p := discard_out_queue p in
  let ms := queue_notice (queue_remote_reset (connection_state p)) ms in
  let p := randomize_out_seq rnd p ms in
  (set_connect_seq 0 (set_in_seq 0 p), ms).

(** The "grab outgoing message" block of [Pipe::writer]: the next message
    gets [++out_seq] and, unless the Pipe is lossy and not closing on
    empty, goes on the back of [sent]. The result is the message as it is
    written to the wire and the Pipe after it. *)
Definition writer_grab (p : Pipe) : option (Message * Pipe) :=
  match _get_next_outgoing (out_q p) with
  | None => None
  | Some (m, q') =>
    let oseq := wrap64 (out_seq p + 1) in
    let m := set_seq oseq m in
    let p := set_out_seq oseq (set_out_q q' p) in
    let p :=
      if negb (lossy (policy p)) || close_on_empty p
      then set_sent (sent p ++ [m]) p else p in
    Some (m, p)
  end.

(** [n] turns of the writer's send block in a row; the messages are
    listed in the order they were written. *)
Fixpoint writer_drain (n : nat) (p : Pipe) : option (list Message * Pipe) :=
  match n with
  | O => Some ([], p)
  | S n' =>
    match writer_grab p with
    | None => None
    | Some (m, p') =>
      match writer_drain n' p' with
      | None => None
      | Some (ms, p'') => Some (m :: ms, p'')
      end
    end
  end.

(** Turns of the writer's send block with messages submitted in between:
    before each turn the messages of one list of [submitted] are handed to
    [_send], in their order. *)
Fixpoint writer_drain_sends (submitted : list (list Message)) (p : Pipe)
  : option (list Message * Pipe) :=
  match submitted with
  | [] => Some ([], p)
  | news :: rest =>
    match writer_grab (fold_left (fun q m => _send m q) news p) with
    | None => None
    | Some (m, p') =>
      match writer_drain_sends rest p' with
      | None => None
      | Some (ms, p'') => Some (m :: ms, p'')
      end
    end
  end.

End Queues.

(** *** Pipe::fault *)

Section Fault.
Context {hdr : Headers}.

(** [Pipe::fault(bool onread)], called with [pipe_lock] held. *)
Definition fault (conf : Config) (onread : bool) (p : Pipe) (ms : Messenger)
  : Pipe * Messenger :=
  let p := cond_Signal p in
  if onread && state_is STATE_CONNECTING p then (p, ms)
  else if state_is STATE_CLOSED p || state_is STATE_CLOSING p then (p, ms)
  else
    let p := shutdown_socket p in
    if lossy (policy p) && negb (state_is STATE_CONNECTING p) then
      (* lossy channel: fail *)
      let p := stop p in
      let ms := unregister_pipe p ms in
      let ms := discard_queue (conn_id p) ms in
      let '(p, ms) := discard_delayed p ms in
      let p := discard_out_queue p in
      let ms := clear_pipe (connection_state p) (self p) ms in
      let ms := queue_notice (queue_reset (connection_state p)) ms in
      (p, ms)
    else
      let '(p, ms) := flush_delayed p ms in
      let p := requeue_sent p in
      if standby (policy p) && negb (is_queued p) then
        (set_state STATE_STANDBY p, ms)
      else if negb (state_is STATE_CONNECTING p) then
        let p :=
          if server (policy p) then set_state STATE_STANDBY p
          else set_state STATE_CONNECTING
                 (set_connect_seq (wrap32 (connect_seq p + 1)) p) in
        (set_backoff 0 p, ms)
      else if backoff p =? 0 then
        (set_backoff (ms_initial_backoff conf) p, ms)
      else
        let p := cond_WaitInterval (backoff p) p in
        let b := backoff p + backoff p in
        let b := if ms_max_backoff conf <? b then ms_max_backoff conf else b in
        (set_backoff b p, ms).

(** The test [policy.standby && !is_queued()] that [fault] makes after
    [requeue_sent]. *)
Definition goes_to_standby (p : Pipe) : bool :=
  standby (policy p) && negb (is_queued (requeue_sent p)).

(** [n] calls of [fault] in a row. *)
Fixpoint faults (conf : Config) (onread : bool) (n : nat)
  (p : Pipe) (ms : Messenger) : Pipe * Messenger :=
  match n with
  | O => (p, ms)
  | S n' =>
    let '(p', ms') := fault conf onread p ms in
    faults conf onread n' p' ms'
  end.

(** The three ways through [fault]: the early returns (a read fault while
    CONNECTING, a Pipe that is CLOSED or CLOSING), the lossy branch, and the
    branch that requeues and reconnects or waits. *)
Definition fault_returns_early (onread : bool) (p : Pipe) : Prop :=
  (onread = true /\ state p = STATE_CONNECTING) \/
  state p = STATE_CLOSED \/ state p = STATE_CLOSING.

Definition fault_fails (p : Pipe) : Prop :=
  lossy (policy p) = true /\ state p <> STATE_CONNECTING /\
  state p <> STATE_CLOSED /\ state p <> STATE_CLOSING.

Definition fault_recovers (onread : bool) (p : Pipe) : Prop :=
  state p <> STATE_CLOSED /\ state p <> STATE_CLOSING /\
  (lossy (policy p) = false \/ state p = STATE_CONNECTING) /\
  (onread = false \/ state p <> STATE_CONNECTING).

End Fault.

(** *** Pipe::read_message and Pipe::reader *)

Section Reader.
Context {hdr : Headers}.

(** The fields of [ceph_msg_header] that [read_message] uses. *)
Record ceph_msg_header := Hdr {
  front_len : Z;
  middle_len : Z;
  data_len : Z;
  crc : Z
}.

(** What [read_message] gets from the socket and from the decoder, in the
    order it asks for it: the header ([None] when the read fails) and the
    CRC computed over the bytes read; whether the reads of the front, middle
    and data sections succeed; the footer's flags ([None] when the read
    fails); the result of [decode_message]; and whether the signature check
    rejects the message. *)
Record wire := Wire {
  w_header : option ceph_msg_header;
  w_header_crc : Z;
  w_front : bool;
  w_middle : bool;
  w_data : bool;
  w_footer_flags : option Z;
  w_decoded : option Message;
  w_bad_signature : bool
}.

Definition EINVAL : Z := 22.

Definition set_throttler_messages (t : option Throttle) (pol : Policy) : Policy :=
  Pol (lossy pol) (server pol) (standby pol) (resetcheck pol)
      (features_supported pol) (features_required pol)
      (throttler_bytes pol) t.

Definition set_throttler_bytes (t : option Throttle) (pol : Policy) : Policy :=
  Pol (lossy pol) (server pol) (standby pol) (resetcheck pol)
      (features_supported pol) (features_required pol)
      t (throttler_messages pol).

(** The acquisitions of [read_message]: one unit of the policy's message
    throttler, then, for a non-empty message, [message_size] of the policy's
    byte throttler and of the dispatch throttler. *)
Definition acquire_throttles (message_size : Z) (p : Pipe) (ms : Messenger)
  : Pipe * Messenger :=
  let pol := policy p in
  let pol := set_throttler_messages
               (throttle_get 1 <$> throttler_messages pol) pol in
  if message_size =? 0 then (set_policy pol p, ms)
  else
    let pol := set_throttler_bytes
                 (throttle_get message_size <$> throttler_bytes pol) pol in
    (set_policy pol p,
     set_dispatch_throttler
       (throttle_get message_size (dispatch_throttler ms)) ms).

(** The [out_dethrottle] block of [read_message]. *)
Definition out_dethrottle (message_size : Z) (p : Pipe) (ms : Messenger)
  : Pipe * Messenger :=
  let pol := policy p in
  let pol := set_throttler_messages
               (throttle_put 1 <$> throttler_messages pol) pol in
  if message_size =? 0 then (set_policy pol p, ms)
  else
    let pol := set_throttler_bytes
                 (throttle_put message_size <$> throttler_bytes pol) pol in
    (set_policy pol p, dispatch_throttle_release message_size ms).

(** [Pipe::read_message]: the return value, the message stored through
    [pm] ([None] when [*pm] is left untouched), and the state after. *)
Definition read_message (w : wire) (p : Pipe) (ms : Messenger)
  : Z * option Message * Pipe * Messenger :=
  match w_header w with
  | None => (-1, None, p, ms)
  | Some header =>
    if negb (w_header_crc w =? crc header) then (-1, None, p, ms)
    else
      let message_size :=
        wrap32 (front_len header + middle_len header + data_len header) in
      let '(p, ms) := acquire_throttles message_size p ms in
      let dethrottle (ret : Z) :=
        let '(p, ms) := out_dethrottle message_size p ms in
        (ret, None, p, ms) in
      if negb (front_len header =? 0) && negb (w_front w) then dethrottle (-1)
      else if negb (middle_len header =? 0) && negb (w_middle w)
      then dethrottle (-1)
      else if negb (data_len header =? 0) && negb (w_data w)
      then dethrottle (-1)
      else
        match w_footer_flags w with
        | None => dethrottle (-1)
        | Some flags =>
          let aborted := Z.land flags CEPH_MSG_FOOTER_COMPLETE =? 0 in
          if aborted then dethrottle 0
          else
            match w_decoded w with
            | None => dethrottle (- EINVAL)
            | Some message =>
              if session_security p && w_bad_signature w
              then dethrottle (- EINVAL)
              else
                (0, Some (set_dispatch_throttle_size message_size message),
                 p, ms)
            end
        end
  end.

(** The message on the wire is read up to its footer, and the footer
    lacks the COMPLETE flag. *)
Definition aborted_on_wire (w : wire) (header : ceph_msg_header) (flags : Z)
  : Prop :=
  w_header w = Some header /\ w_header_crc w = crc header /\
  (front_len header = 0 \/ w_front w = true) /\
  (middle_len header = 0 \/ w_middle w = true) /\
  (data_len header = 0 \/ w_data w = true) /\
  w_footer_flags w = Some flags /\
  Z.land flags CEPH_MSG_FOOTER_COMPLETE = 0.

(** What one turn of the reader's loop reads after the tag byte. For a
    [MSG] tag, [release] is the release time drawn for the delay queue. *)
Inductive reader_input :=
| tag_unreadable
| TAG_KEEPALIVE
| TAG_ACK (rc : Z) (seq : Z)
| TAG_MSG (w : wire) (release : Z)
| TAG_CLOSE
| tag_unknown.

(** One turn of the [while] loop of [Pipe::reader]. *)
Definition reader (conf : Config) (i : reader_input) (p : Pipe) (ms : Messenger)
  : Pipe * Messenger :=
  if state_is STATE_CLOSED p || state_is STATE_CONNECTING p then (p, ms)
  else if state_is STATE_STANDBY p then (p, ms)
  else
    match i with
    | tag_unreadable => fault conf true p ms
    | TAG_KEEPALIVE => (p, ms)
    | TAG_ACK rc seq =>
      if rc <? 0 then fault conf true p ms
      else if negb (state_is STATE_CLOSED p) then (handle_ack seq p, ms)
      else (p, ms)
    | TAG_MSG w release =>
      let '(r, om, p, ms) := read_message w p ms in
      match om with
      | None => if r <? 0 then fault conf true p ms else (p, ms)
      | Some m =>
        if state_is STATE_CLOSED p || state_is STATE_CONNECTING p then
          (p, dispatch_throttle_release (get_dispatch_throttle_size m) ms)
        else if get_seq m <=? in_seq p then
          (* old message: drop it *)
          (p, dispatch_throttle_release (get_dispatch_throttle_size m) ms)
        else
          let p := cond_Signal (set_in_seq (get_seq m) p) in
          match delay_thread p with
          | Some dq =>
            (set_delay_thread (Some (delay_queue_push release m dq)) p, ms)
          | None => (p, enqueue m (conn_id p) ms)
          end
      end
    | TAG_CLOSE =>
      let p :=
        if state_is STATE_CLOSING p then set_state STATE_CLOSED p
        else set_state STATE_CLOSING p in
      (cond_Signal p, ms)
    | tag_unknown => fault conf true p ms
    end.

End Reader.

(** *** Pipe::accept: the existing-pipe checks and the replace block *)

Section Accept.
Context {hdr : Headers}.

(** The fields of [ceph_msg_connect] the checks read. *)
Record ceph_msg_connect := Connect {
  msg_features : Z;
  msg_global_seq : Z;
  msg_connect_seq : Z
}.

(** The reply tags [accept] chooses among after authorization. *)
Inductive tag :=
| CEPH_MSGR_TAG_READY
| CEPH_MSGR_TAG_RESETSESSION
| CEPH_MSGR_TAG_WAIT
| CEPH_MSGR_TAG_RETRY_SESSION
| CEPH_MSGR_TAG_RETRY_GLOBAL
| CEPH_MSGR_TAG_SEQ.

(** The fields of [ceph_msg_connect_reply] the checks write; [memset]
    leaves the others zero. *)
Record ceph_msg_connect_reply := Reply {
  reply_tag : tag;
  reply_global_seq : Z;
  reply_connect_seq : Z
}.

(** Where the checks jump to: the [reply] label (and another turn of the
    handshake loop), the [replace] label, the [open] label, or a failed
    [assert]. *)
Inductive accept_goto :=
| goto_reply (r : ceph_msg_connect_reply)
| goto_replace
| goto_open
| assertion_failed.

(** The [retry_session] label. *)
Definition retry_session (existing : Pipe) : accept_goto :=
  goto_reply
    (Reply CEPH_MSGR_TAG_RETRY_SESSION 0 (wrap32 (connect_seq existing + 1))).

(** [Pipe::accept] from [existing = msgr->_lookup_pipe(peer_addr)] to the
    jump, for the accepting Pipe [this] with its policy set. [existing] is
    the result of the lookup, [rnd] the random bytes a session reset would
    draw. The result also holds the existing Pipe and the messenger as the
    checks leave them. *)
Definition accept_existing (connect : ceph_msg_connect) (this : Pipe)
  (existing : option Pipe) (rnd : Z) (ms : Messenger)
  : accept_goto * option Pipe * Messenger :=
  match existing with
  | Some e =>
    if msg_global_seq connect <? peer_global_seq e then
      (goto_reply (Reply CEPH_MSGR_TAG_RETRY_GLOBAL (peer_global_seq e) 0),
       Some e, ms)
    else if lossy (policy e) then
      let '(e, ms) := was_session_reset rnd e ms in
      (goto_replace, Some e, ms)
    else if (msg_connect_seq connect =? 0) && (0 <? connect_seq e) then
      if resetcheck (policy this) then
        let '(e, ms) := was_session_reset rnd e ms in
        (goto_replace, Some e, ms)
      else (goto_replace, Some e, ms)
    else if msg_connect_seq connect <? connect_seq e then
      (retry_session e, Some e, ms)
    else if msg_connect_seq connect =? connect_seq e then
      if state_is STATE_OPEN e || state_is STATE_STANDBY e then
        (retry_session e, Some e, ms)
      else if addr_lt (peer_addr this) (my_addr ms) || server (policy e) then
        (* incoming wins *)
        if state_is STATE_CONNECTING e || state_is STATE_WAIT e
        then (goto_replace, Some e, ms)
        else (assertion_failed, Some e, ms)
      else
        (* our existing outgoing wins *)
        if negb (addr_lt (my_addr ms) (peer_addr this))
        then (assertion_failed, Some e, ms)
        else if negb (state_is STATE_CONNECTING e)
        then (assertion_failed, Some e, ms)
        else
          (goto_reply (Reply CEPH_MSGR_TAG_WAIT 0 0),
           Some (_send_keepalive e), ms)
    else
      if resetcheck (policy this) && (connect_seq e =? 0) then
        (goto_reply (Reply CEPH_MSGR_TAG_RESETSESSION 0 0), Some e, ms)
      else (goto_replace, Some e, ms)
  | None =>
    if resetcheck (policy this) && (0 <? msg_connect_seq connect) then
      (goto_reply (Reply CEPH_MSGR_TAG_RESETSESSION 0 0), None, ms)
    else (goto_open, None, ms)
  end.

(** The connect race as the accepting side sees it: the peer's connect
    carries the connect_seq of the existing Pipe, which is reliable and
    still CONNECTING, and its global_seq is not stale. *)
Definition connect_race (connect : ceph_msg_connect) (existing : Pipe) : Prop :=
  lossy (policy existing) = false /\
  state existing = STATE_CONNECTING /\
  msg_connect_seq connect = connect_seq existing /\
  peer_global_seq existing <= msg_global_seq connect.

(** The loop that steals the outgoing queue:
    [out_q[p->first].splice(out_q[p->first].begin(), p->second)] for every
    bucket [p] of the existing Pipe. *)
Definition splice_out_q (mine theirs : gmap Z (list Message))
  : gmap Z (list Message) :=
  map_fold (fun k l q => <[k := l ++ bucket q k]> q) mine theirs.

(** The [replace] block of [Pipe::accept]. The result is the accepting
    Pipe, the existing Pipe, the messenger, and [existing_seq] when the
    reply tag becomes [SEQ]. *)
Definition accept_replace (connect : ceph_msg_connect) (this existing : Pipe)
  (ms : Messenger) : Pipe * Pipe * Messenger * option Z :=
  let existing_seq :=
    if negb (Z.land (msg_features connect) CEPH_FEATURE_RECONNECT_SEQ =? 0)
    then Some (in_seq existing) else None in
  let existing := stop existing in
  let ms := unregister_pipe existing ms in
  if negb (lossy (policy existing)) then
    (* take a ref to the existing Connection and make it reference us *)
    let this := set_connection_state (connection_state existing) this in
    let ms := reset_pipe (connection_state existing) (self this) ms in
    let '(existing, ms) := flush_delayed existing ms in
    (* steal incoming queue *)
    let replaced_conn_id := conn_id this in
    let this := set_conn_id (conn_id existing) this in
    let existing := set_conn_id replaced_conn_id existing in
    let this := set_in_seq (in_seq existing) this in
    let this := set_in_seq_acked (in_seq this) this in
    (* steal outgoing queue and out_seq *)
    let existing := requeue_sent existing in
    let this := set_out_seq (out_seq existing) this in
    let this := set_out_q (splice_out_q (out_q this) (out_q existing)) this in
    let existing := set_out_q ((fun _ => []) <$> out_q existing) existing in
    (this, existing, ms, existing_seq)
  else (this, existing, ms, existing_seq).

End Accept.


(** *** The numbering the writer leaves behind *)

(** [numbered o l]: a writer whose [out_seq] is [o] and that sends the
    messages of [l] in order gives each of them the seq it already
    carries ([m->set_seq(++out_seq)]). The writer puts each message it
    numbers on the back of [sent], so [sent] is numbered from
    [out_seq - |sent|]. *)
Fixpoint numbered (o : Z) (l : list Message) : Prop :=
  match l with
  | [] => True
  | m :: rest => get_seq m = wrap64 (o + 1) /\ numbered (wrap64 (o + 1)) rest
  end.

(** The messages on [sent] carry the [|sent|] consecutive numbers that end
    at [out_seq]. *)
Definition sent_numbered (p : Pipe) : Prop :=
  numbered (wrap64 (out_seq p - Z.of_nat (length (sent p)))) (sent p).

(** The value is a 64-bit unsigned integer. *)
Definition uint64 (z : Z) : Prop := 0 <= z < 2 ^ 64.

(** No message is queued at a priority above [k]. *)
Definition none_above (k : Z) (q : gmap Z (list Message)) : Prop :=
  forall k' l, q !! k' = Some l -> l <> [] -> k' <= k.

(** The scan of [discard_requeued_up_to] stops at the head of [l]. *)
Definition stops_scan (seq : Z) (l : list Message) : Prop :=
  forall m, head l = Some m -> get_seq m = 0 \/ seq < get_seq m.

(** *** Socket helpers: do_sendmsg, tcp_read, alloc_aligned_buffer *)

Section SocketHelpers.
Context {A : Type}.

(** The loop [while (r > 0)] of [do_sendmsg] that trims [r] sent bytes off
    the front of the iovec array; an iovec is the list of its bytes. The
    source would read past the array when [r] exceeds what it holds. *)
Fixpoint trim_iov (iov : list (list A)) (r : Z) : list (list A) :=
  match iov with
  | [] => []
  | v :: rest =>
    if r <=? 0 then iov
    else if Z.of_nat (length v) <=? r then
      (* lose this whole item *)
      trim_iov rest (r - Z.of_nat (length v))
    else
      (* partial! *)
      drop (Z.to_nat r) v :: rest
  end.

(** [Pipe::do_sendmsg]. Each call of [rsendmsg] is given by its return
    value [r] and by whether [state == STATE_CLOSED] is seen after it; a
    call that returns [r >= 0] has put the first [r] bytes of the iovecs on
    the wire. The result is the return value ([None] while the calls at
    hand have not finished the loop) and the bytes on the wire. *)
Fixpoint do_sendmsg (calls : list (Z * bool)) (iov : list (list A)) (len : Z)
  (wire : list A) : option Z * list A :=
  if len <=? 0 then (Some 0, wire)
  else
    match calls with
    | [] => (None, wire)
    | (r, closed) :: calls' =>
      if r <? 0 then (Some (-1), wire)
      else
        let wire := wire ++ take (Z.to_nat r) (concat iov) in
        if closed then (Some (-1), wire)
        else
          let len := len - r in
          if len =? 0 then (Some 0, wire)
          else do_sendmsg calls' (trim_iov iov r) len wire
    end.

(** [rsendmsg] never reports more bytes than it was offered. *)
Fixpoint within_offer (calls : list (Z * bool)) (len : Z) : Prop :=
  match calls with
  | [] => True
  | (r, _) :: calls' => r <= len /\ within_offer calls' (len - r)
  end.

End SocketHelpers.

(** The poll bits of <poll.h> that [tcp_read_wait] tests. *)
Definition POLLIN : Z := 1.
Definition POLLERR : Z := 8.
Definition POLLHUP : Z := 16.
Definition POLLNVAL : Z := 32.
Definition POLLRDHUP : Z := 8192.

(** What [rpoll] returns and reports in [pfd.revents]. *)
Record poll_result := Poll { poll_rc : Z; poll_revents : Z }.

(** [Pipe::tcp_read_wait], on Linux. *)
Definition tcp_read_wait (sd : Z) (p : poll_result) : Z :=
  if sd <? 0 then -1
  else if poll_rc p <=? 0 then -1
  else
    let evmask := Z.lor (Z.lor (Z.lor POLLERR POLLHUP) POLLNVAL) POLLRDHUP in
    if negb (Z.land (poll_revents p) evmask =? 0) then -1
    else if Z.land (poll_revents p) POLLIN =? 0 then -1
    else 0.

(** What [rrecv] returns, and whether a negative return comes with
    [EAGAIN] or [EINTR]. *)
Record rrecv_result := Recv { recv_got : Z; recv_again : bool }.

(** [Pipe::tcp_read_nonblocking]: the return value ([None] while the calls
    at hand all ask to try again). *)
Fixpoint tcp_read_nonblocking (calls : list rrecv_result) : option Z :=
  match calls with
  | [] => None
  | c :: calls' =>
    if recv_got c <? 0 then
      if recv_again c then tcp_read_nonblocking calls' else Some (-1)
    else if recv_got c =? 0 then Some (-1)   (* peer sent a FIN *)
    else Some (recv_got c)
  end.

(** The loop of [Pipe::tcp_read]: one turn polls and then receives. The
    result is the return value ([None] while the turns at hand have not
    finished the loop) and the number of bytes stored in [buf]. The
    injection of socket failures only changes what the calls return. *)
Fixpoint tcp_read_loop (sd : Z) (turns : list (poll_result * list rrecv_result))
  (len : Z) (stored : Z) : option Z * Z :=
  if len <=? 0 then (Some len, stored)
  else
    match turns with
    | [] => (None, stored)
    | (p, calls) :: turns' =>
      if tcp_read_wait sd p <? 0 then (Some (-1), stored)
      else
        match tcp_read_nonblocking calls with
        | None => (None, stored)
        | Some got =>
          if got <? 0 then (Some (-1), stored)
          else tcp_read_loop sd turns' (len - got) (stored + got)
        end
    end.

(** [Pipe::tcp_read] *)
Definition tcp_read (sd : Z) (turns : list (poll_result * list rrecv_result))
  (len : Z) : option Z * Z :=
  if sd <? 0 then (Some (-1), 0) else tcp_read_loop sd turns len 0.

(** The page size and mask of include/page.h, which is not among the
    sources: parameters, with [CEPH_PAGE_MASK = ~(CEPH_PAGE_SIZE - 1)] for a
    page size that is a power of two. *)
Class PageHeaders := {
  CEPH_PAGE_SIZE : Z;
  CEPH_PAGE_MASK : Z
}.

Definition page_headers_ok {pg : PageHeaders} : Prop :=
  (exists k, 0 <= k /\ CEPH_PAGE_SIZE = 2 ^ k) /\
  CEPH_PAGE_MASK = Z.lnot (CEPH_PAGE_SIZE - 1).

(** The buffers [alloc_aligned_buffer] pushes on [data]. *)
Inductive bufferptr :=
| buffer_create (len : Z)
| buffer_create_page_aligned (len : Z).

Definition buffer_length (b : bufferptr) : Z :=
  match b with
  | buffer_create len => len
  | buffer_create_page_aligned len => len
  end.

(** The number of bytes a list of buffers holds. *)
Definition total_length (bufs : list bufferptr) : Z :=
  fold_right (fun b n => buffer_length b + n) 0 bufs.

(** [alloc_aligned_buffer(data, len, off)] for an empty [data]; [len] and
    [off] are [unsigned]. *)
Definition alloc_aligned_buffer {pg : PageHeaders} (len off : Z)
  : list bufferptr :=
  let in_page := Z.land off (Z.lnot CEPH_PAGE_MASK) in
  let '(data, nleft) :=
    if negb (in_page =? 0) then
      let head := Z.min (CEPH_PAGE_SIZE - in_page) len in
      ([buffer_create head], len - head)
    else ([], len) in
  let middle := Z.land nleft CEPH_PAGE_MASK in
  let '(data, nleft) :=
    if 0 <? middle
    then (data ++ [buffer_create_page_aligned middle], nleft - middle)
    else (data, nleft) in
  if negb (nleft =? 0) then data ++ [buffer_create nleft] else data.

(** *** The delay thread and the inbound order *)

(** One turn of the loop of [Pipe::DelayedDelivery::entry] at time [now]:
    an empty queue waits, a head whose release time lies ahead waits, and
    otherwise the head is handed to the dispatch queue. *)
Definition delay_entry (now : Z) (p : Pipe) (ms : Messenger) : Pipe * Messenger :=
  match delay_thread p with
  | None => (p, ms)
  | Some [] => (p, ms)
  | Some ((release, m) :: rest) =>
    if now <? release then (p, ms)
    else (set_delay_thread (Some rest) p, enqueue m (conn_id p) ms)
  end.

(** Turns of the delay thread at the given times. *)
Fixpoint delay_entries (times : list Z) (p : Pipe) (ms : Messenger)
  : Pipe * Messenger :=
  match times with
  | [] => (p, ms)
  | now :: times' =>
    let '(p', ms') := delay_entry now p ms in
    delay_entries times' p' ms'
  end.

(** The entries of the dispatch queue a delay queue turns into under the
    connection id [id]. *)
Definition delivered (id : Z) (dq : list (Z * Message)) : list (Z * Message) :=
  map (fun e => (id, e.2)) dq.

(** The seqs of the messages the reader has accepted for this Pipe and
    that the dispatcher has not taken yet, in the order they will reach it:
    those in the dispatch queue under the Pipe's [conn_id], then those in
    its delay queue. *)
Definition inbound_seqs (p : Pipe) (ms : Messenger) : list Z :=
  map (fun e => get_seq e.2)
      (filter (fun e => e.1 = conn_id p) (dispatch_queue ms)) ++
  map (fun e => get_seq e.2) (default [] (delay_thread p)).

(** The seqs increase strictly and none is above [bound]. *)
Definition increasing_up_to (bound : Z) (l : list Z) : Prop :=
  StronglySorted Z.lt l /\ Forall (fun s => s <= bound) l.

(** The sum of the dispatch throttle sizes of the messages of a delay
    queue. *)
Definition delayed_size (dq : list (Z * Message)) : Z :=
  fold_right (fun e n => get_dispatch_throttle_size e.2 + n) 0 dq.

(** *** Pipe::writer *)

Section Writer.
Context {hdr : Headers}.

(** What a turn of the writer has put on the socket, in order. *)
Inductive written :=
| wrote_close
| wrote_keepalive
| wrote_ack (seq : Z)
| wrote_message (m : Message).

(** How a turn of the writer's [while] loop ends: the loop condition
    fails, [connect()] is called (its work is outside this function),
    the loop goes round ([continue]), the writer sleeps on [cond], or
    [assert(!policy.server)] fails. *)
Inductive writer_next :=
| writer_done
| writer_connect
| writer_continue
| writer_wait
| writer_assert.

(** What the socket gives the writer in a turn: whether [sd] is non-zero,
    and the return values of [write_keepalive], [write_ack] and
    [write_message] should they be called. *)
Record writer_io := WriterIO {
  sd_set : bool;
  write_keepalive_rc : Z;
  write_ack_rc : Z;
  write_message_rc : Z
}.

(** One turn of the [while] loop of [Pipe::writer], up to the call of
    [connect]. The result is how the turn ends, what it wrote, and the
    state after. *)
Definition writer (conf : Config) (io : writer_io) (p : Pipe) (ms : Messenger)
  : writer_next * list written * Pipe * Messenger :=
  if state_is STATE_CLOSED p then (writer_done, [], p, ms)
  else
    (* standby? *)
    let p :=
      if is_queued p && state_is STATE_STANDBY p && negb (server (policy p))
      then set_state STATE_CONNECTING
             (set_connect_seq (wrap32 (connect_seq p + 1)) p)
      else p in
    (* connect? *)
    if state_is STATE_CONNECTING p then
      if server (policy p) then (writer_assert, [], p, ms)
      else (writer_connect, [], p, ms)
    else if state_is STATE_CLOSING p then
      (* write close tag *)
      (writer_continue, if sd_set io then [wrote_close] else [],
       set_state STATE_CLOSED p, ms)
    else if negb (state_is STATE_CONNECTING p) &&
            negb (state_is STATE_WAIT p) &&
            negb (state_is STATE_STANDBY p) &&
            (is_queued p || (in_seq_acked p <? in_seq p)) then
      (* keepalive? *)
      if keepalive p && (write_keepalive_rc io <? 0) then
        let '(p, ms) := fault conf false p ms in
        (writer_continue, [], p, ms)
      else
        let w1 := if keepalive p then [wrote_keepalive] else [] in
        let p := if keepalive p then set_keepalive false p else p in
        (* send ack? *)
        if (in_seq_acked p <? in_seq p) && (write_ack_rc io <? 0) then
          let '(p, ms) := fault conf false p ms in
          (writer_continue, w1, p, ms)
        else
          let w2 :=
            if in_seq_acked p <? in_seq p then [wrote_ack (in_seq p)]
            else [] in
          let p :=
            if in_seq_acked p <? in_seq p
            then set_in_seq_acked (in_seq p) p else p in
          (* grab outgoing message *)
          match writer_grab p with
          | None => (writer_continue, w1 ++ w2, p, ms)
          | Some (m, p) =>
            if write_message_rc io <? 0 then
              let '(p, ms) := fault conf false p ms in
              (writer_continue, w1 ++ w2, p, ms)
            else (writer_continue, w1 ++ w2 ++ [wrote_message m], p, ms)
          end
    else
      match sent p with
      | [] =>
        if close_on_empty p then (writer_continue, [], stop p, ms)
        else (writer_wait, [], p, ms)
      | _ :: _ => (writer_wait, [], p, ms)
      end.

(** The outbound bookkeeping the writer relies on: [sent] carries the
    consecutive seqs that end at [out_seq], and a Pipe that does not record
    what it sends (lossy, not closing on empty) has nothing on [sent]. *)
Definition sent_consistent (p : Pipe) : Prop :=
  sent_numbered p /\
  (lossy (policy p) = true -> close_on_empty p = false -> sent p = []).

(** Two Pipes with the same outbound bookkeeping. *)
Definition same_outbound (p p' : Pipe) : Prop :=
  sent p' = sent p /\ out_seq p' = out_seq p /\
  lossy (policy p') = lossy (policy p) /\
  close_on_empty p' = close_on_empty p.

End Writer.

(** *** Pipe::write_message, write_ack and write_keepalive *)

Section WriteMessage.
Context {A : Type}.

(** [IOV_MAX] of limits.h. *)
Variable IOV_MAX : Z.

(** How a write ends: it returns (with what is on the wire then); one of
    the assertions of the payload loop fails ([donow > 0], [left >= 0],
    [left == 0]); an [int] computation of the loop leaves the range of
    [int], which is undefined; the loop dereferences [pb] at the end of the
    buffer list; the [rsendmsg] results at hand have not finished a
    [do_sendmsg]; or the turns allowed to the loop are used up. *)
Inductive write_result :=
| write_returns (ret : Z) (wire : list A)
| write_asserts
| write_overflows
| write_past_the_end
| write_blocked
| write_out_of_turns.

(** [while (b_off == (int)pb->length()) { ++pb; b_off = 0; }] *)
Fixpoint advance (pb : list (list A)) (b_off : Z) : list (list A) * Z :=
  match pb with
  | [] => ([], b_off)
  | b :: rest =>
    if b_off =? to_int (Z.of_nat (length b)) then advance rest 0
    else (pb, b_off)
  end.

(** The end of [write_message]: the footer is added to the iovecs and
    the last [do_sendmsg] sends what is gathered. [msglen += sizeof(footer)]
    adds a [size_t] to the [int] and converts the sum back. [sends] holds,
    for each call of [do_sendmsg] still to come, the results of its
    [rsendmsg] calls. *)
Definition write_footer (sends : list (list (Z * bool)))
  (iov : list (list A)) (msglen : Z) (footer : list A) (wire : list A)
  : write_result :=
  let iov := iov ++ [footer] in
  let msglen := to_int (msglen + Z.of_nat (length footer)) in
  match sends with
  | [] => write_blocked
  | calls :: _ =>
    match do_sendmsg calls iov msglen wire with
    | (None, _) => write_blocked
    | (Some r, wire) =>
      if r =? 0 then write_returns 0 wire else write_returns (-1) wire
    end
  end.

(** The loop [while (left > 0)] of [write_message] and what follows it,
    from [assert(left == 0)] on. [iov] is [msgvec[0 .. msg.msg_iovlen)],
    an iovec being the list of its bytes; [pb] is the buffer list from the
    iterator on; [msglen], [b_off], [left] and [donow] are [int]s. The
    subtraction [(int)pb->length()-b_off] and the addition [msglen +=
    donow] are checked for the range of [int]; [left -= donow] and [b_off
    += donow] stay in range because [donow] is positive and at most [left]
    and [(int)pb->length()-b_off]. The test [msg.msg_iovlen >= IOV_MAX-2]
    compares in [size_t]. Every turn takes [donow > 0] bytes, so [turns]
    bounds the loop. *)
Fixpoint write_payload (turns : nat) (sends : list (list (Z * bool)))
  (iov : list (list A)) (msglen : Z) (pb : list (list A)) (b_off left : Z)
  (footer : list A) (wire : list A) : write_result :=
  if left <=? 0 then
    (* assert(left == 0) *)
    if left =? 0 then write_footer sends iov msglen footer wire
    else write_asserts
  else
    match turns with
    | O => write_out_of_turns
    | S turns =>
      match pb with
      | [] => write_past_the_end
      | b :: _ =>
        let room := to_int (Z.of_nat (length b)) - b_off in
        if (room <? - 2 ^ 31) || (INT_MAX <? room) then write_overflows
        else
        let donow := Z.min left room in
        if donow <=? 0 then write_asserts
        else
          let gather sends iov msglen wire :=
            let iov :=
              iov ++ [take (Z.to_nat donow) (drop (Z.to_nat b_off) b)] in
            if INT_MAX <? msglen + donow then write_overflows
            else
            let msglen := msglen + donow in
            let left := left - donow in
            if left <? 0 then write_asserts
            else
            let b_off := b_off + donow in
            if left =? 0 then write_footer sends iov msglen footer wire
            else
              let '(pb, b_off) := advance pb b_off in
              write_payload turns sends iov msglen pb b_off left footer wire in
          if wrap64 (IOV_MAX - 2) <=? Z.of_nat (length iov) then
            match sends with
            | [] => write_blocked
            | calls :: sends =>
              match do_sendmsg calls iov msglen wire with
              | (None, _) => write_blocked
              | (Some r, wire) =>
                if r =? 0 then
                  (* and restart the iov *)
                  gather sends [] 0 wire
                else write_returns (-1) wire
              end
            end
          else gather sends iov msglen wire
      end
    end.

(** [Pipe::write_message]. [tag] is the byte CEPH_MSGR_TAG_MSG; [header]
    and [footer] are the bytes of the envelope chosen by the features of the
    connection (the header or the old header, the footer or the old
    footer); [blist] is the buffer list of the payload, whose [length()] is
    the sum of the lengths of its buffers, converted to the [int] [left]. *)
Definition write_message (tag : A) (header footer : list A)
  (blist : list (list A)) (sends : list (list (Z * bool))) (wire : list A)
  : write_result :=
  let iov := [[tag]; header] in
  let msglen := to_int (1 + Z.of_nat (length header)) in
  let left := to_int (Z.of_nat (length (concat blist))) in
  write_payload (length blist) sends iov msglen blist 0 left footer wire.

(** [Pipe::write_ack]: the tag byte and the eight bytes of the seq. *)
Definition write_ack (tag : A) (s : list A) (calls : list (Z * bool))
  (wire : list A) : option Z * list A :=
  match do_sendmsg calls [[tag]; s] (1 + Z.of_nat (length s)) wire with
  | (Some r, wire) => (Some (if r <? 0 then -1 else 0), wire)
  | (None, wire) => (None, wire)
  end.

(** [Pipe::write_keepalive]: the tag byte. *)
Definition write_keepalive (tag : A) (calls : list (Z * bool))
  (wire : list A) : option Z * list A :=
  match do_sendmsg calls [[tag]] 1 wire with
  | (Some r, wire) => (Some (if r <? 0 then -1 else 0), wire)
  | (None, wire) => (None, wire)
  end.

(** What a write is allowed to end in: 0 with the whole of [msg] behind
    what the wire held, or -1 with a part of it from its start; or the
    [rsendmsg] results at hand did not finish it. *)
Definition frames (wire msg : list A) (r : write_result) : Prop :=
  match r with
  | write_returns ret wire' =>
    (ret = 0 /\ wire' = wire ++ msg) \/
    (ret = -1 /\ exists d rest, wire' = wire ++ d /\ msg = d ++ rest)
  | write_blocked => True
  | _ => False
  end.

End WriteMessage.

(** *** Pipe::connect: one turn of the handshake loop *)

Section Connect.
Context {hdr : Headers}.

(** [CEPH_MSG_CONNECT_LOSSY] of msgr.h. *)
Variable CEPH_MSG_CONNECT_LOSSY : Z.

(** The reply tags [connect] tells apart: those [accept] chooses among
    after authorization, the three refusals before it, and any other
    byte. *)
Inductive connect_tag :=
| reply_with (t : tag)
| CEPH_MSGR_TAG_FEATURES
| CEPH_MSGR_TAG_BADPROTOVER
| CEPH_MSGR_TAG_BADAUTHORIZER
| tag_bad.

(** The fields of the [ceph_msg_connect_reply] that [connect] reads. *)
Record connect_reply_read := ReplyRead {
  read_tag : connect_tag;
  read_features : Z;
  read_global_seq : Z;
  read_connect_seq : Z;
  read_flags : Z
}.

(** The local variables of [connect] that live across the turns of its
    loop. *)
Record connect_vars := Vars {
  cseq : Z;
  gseq : Z;
  got_bad_auth : bool
}.

(** What the socket and the messenger give a turn: whether the connect
    message is sent and the reply read and verified; whether there is an
    authorizer and whether [get_auth_session_handler] gives a handler;
    what [tcp_read] gets for [newly_acked_seq] ([None] when it fails);
    whether [in_seq] is written; what [msgr->get_global_seq] returns; the
    random bytes of a session reset; and whether the configuration asks
    for a delay thread. *)
Record connect_io := ConnectIO {
  exchange_ok : bool;
  has_authorizer : bool;
  handler_installed : bool;
  acked_read : option Z;
  in_seq_written : bool;
  next_global_seq : Z;
  reset_rnd : Z;
  inject_delay : bool
}.

(** How a turn ends: [continue] with the variables for the next turn, a
    [return], or a failed [assert]. *)
Inductive connect_next :=
| connect_continue (v : connect_vars)
| connect_returns (rc : Z)
| connect_asserts.

Definition set_session_security (v : bool) (p : Pipe) : Pipe :=
  Build_Pipe (self p) (conn_id p) (sd_shutdown p) (peer_addr p) (policy p)
    (state p) v (connection_state p) (delay_thread p) (out_q p) (sent p)
    (keepalive p) (close_on_empty p) (connect_seq p) (peer_global_seq p)
    (out_seq p) (in_seq p) (in_seq_acked p) (backoff p) (cond_signals p)
    (cond_waits p).

Definition set_lossy (v : bool) (pol : Policy) : Policy :=
  Pol v (server pol) (standby pol) (resetcheck pol)
      (features_supported pol) (features_required pol)
      (throttler_bytes pol) (throttler_messages pol).

(** Modelled from the spec: [Connection::set_features] is not among the
    sources; it stores the negotiated features in the Connection. *)
Definition connection_set_features (con : nat) (f : Z) (ms : Messenger)
  : Messenger :=
  set_connections
    (alter (fun c => Conn (pipe c) (failed c) f) con (connections ms)) ms.

(** [Pipe::maybe_start_delay_thread] *)
Definition maybe_start_delay_thread (inject : bool) (p : Pipe) : Pipe :=
  match delay_thread p with
  | None => if inject then set_delay_thread (Some []) p else p
  | Some _ => p
  end.

(** The [fail_locked] label of [connect]. *)
Definition connect_fail_locked (conf : Config) (p : Pipe) (ms : Messenger)
  : connect_next * Pipe * Messenger :=
  let '(p, ms) :=
    if state_is STATE_CONNECTING p then fault conf false p ms else (p, ms) in
  (connect_returns (-1), p, ms).

(** The "hooray" block of [connect]. *)
Definition connect_open (v : connect_vars) (reply : connect_reply_read)
  (io : connect_io) (p : Pipe) (ms : Messenger)
  : connect_next * Pipe * Messenger :=
  let p := set_peer_global_seq (read_global_seq reply) p in
  let p :=
    set_policy
      (set_lossy (negb (Z.land (read_flags reply) CEPH_MSG_CONNECT_LOSSY =? 0))
                 (policy p)) p in
  let p := set_state STATE_OPEN p in
  let p := set_connect_seq (wrap32 (cseq v + 1)) p in
  if negb (connect_seq p =? read_connect_seq reply) then (connect_asserts, p, ms)
  else
    let p := set_backoff 0 p in
    let ms :=
      connection_set_features (connection_state p)
        (Z.land (wrap32 (read_features reply))
                (wrap32 (features_supported (policy p)))) ms in
    let p :=
      set_session_security (has_authorizer io && handler_installed io) p in
    let ms := queue_notice (queue_connect (connection_state p)) ms in
    let p := maybe_start_delay_thread (inject_delay io) p in
    (connect_returns 0, p, ms).

(** One turn of the [while (1)] loop of [Pipe::connect], from the sending
    of the connect message (which carries [cseq] and [gseq]) to the
    [continue] or the [return]. *)
Definition connect_reply (conf : Config) (v : connect_vars)
  (reply : connect_reply_read) (io : connect_io) (p : Pipe) (ms : Messenger)
  : connect_next * Pipe * Messenger :=
  if negb (exchange_ok io) then connect_fail_locked conf p ms
  else if negb (state_is STATE_CONNECTING p) then
    (* stop_locked *)
    (connect_returns (-1), p, ms)
  else
    match read_tag reply with
    | CEPH_MSGR_TAG_FEATURES => connect_fail_locked conf p ms
    | CEPH_MSGR_TAG_BADPROTOVER => connect_fail_locked conf p ms
    | CEPH_MSGR_TAG_BADAUTHORIZER =>
      if got_bad_auth v then (connect_returns (-1), p, ms)
      else (connect_continue (Vars (cseq v) (gseq v) true), p, ms)
    | reply_with CEPH_MSGR_TAG_RESETSESSION =>
      let '(p, ms) := was_session_reset (reset_rnd io) p ms in
      (connect_continue (Vars 0 (gseq v) (got_bad_auth v)), p, ms)
    | reply_with CEPH_MSGR_TAG_RETRY_GLOBAL =>
      (connect_continue (Vars (cseq v) (next_global_seq io) (got_bad_auth v)),
       p, ms)
    | reply_with CEPH_MSGR_TAG_RETRY_SESSION =>
      if read_connect_seq reply <=? connect_seq p then (connect_asserts, p, ms)
      else
        (connect_continue
           (Vars (read_connect_seq reply) (gseq v) (got_bad_auth v)),
         set_connect_seq (read_connect_seq reply) p, ms)
    | reply_with CEPH_MSGR_TAG_WAIT =>
      (connect_returns (-1), set_state STATE_WAIT p, ms)
    | reply_with CEPH_MSGR_TAG_READY =>
      let feat_missing :=
        Z.land (features_required (policy p))
               (Z.lnot (read_features reply)) in
      if negb (feat_missing =? 0) then connect_fail_locked conf p ms
      else connect_open v reply io p ms
    | reply_with CEPH_MSGR_TAG_SEQ =>
      let feat_missing :=
        Z.land (features_required (policy p))
               (Z.lnot (read_features reply)) in
      if negb (feat_missing =? 0) then connect_fail_locked conf p ms
      else
        match acked_read io with
        | None => connect_fail_locked conf p ms
        | Some newly_acked_seq =>
          let p := handle_ack newly_acked_seq p in
          if negb (in_seq_written io) then connect_fail_locked conf p ms
          else connect_open v reply io p ms
        end
    | tag_bad => connect_fail_locked conf p ms
    end.

(** The reply [accept] writes at its [reply] label, as [connect] reads
    it. *)
Definition on_wire (r : ceph_msg_connect_reply) (feats flags : Z)
  : connect_reply_read :=
  ReplyRead (reply_with (reply_tag r)) feats (reply_global_seq r)
            (reply_connect_seq r) flags.

(** How the [open] label of [Pipe::accept] ends: the Pipe is registered
    and the reply is ready to be written, or [msgr->dispatch_queue.stop] is
    seen ([shutting_down]), or the assertion of [register_pipe] fails. *)
Inductive accept_open_result :=
| accept_opens (reply : connect_reply_read) (this : Pipe) (ms : Messenger)
| accept_shutting_down
| accept_open_asserts.

(** The [open] label of [Pipe::accept], up to [register_pipe]: the Pipe
    takes the session the connect message asks for and the READY (or SEQ)
    reply is filled in. [existing_seq] is set when the replace block chose
    the SEQ tag; [global_seq] is what [msgr->get_global_seq()] returns;
    [handler] tells whether [get_auth_session_handler] gives a handler;
    [registered] is what [_lookup_pipe] returns inside [register_pipe]. *)
Definition accept_open (connect : ceph_msg_connect) (existing_seq : option Z)
  (global_seq : Z) (handler : bool) (dispatch_stop : bool)
  (registered : option Pipe) (this : Pipe) (ms : Messenger)
  : accept_open_result :=
  let this := set_connect_seq (wrap32 (msg_connect_seq connect + 1)) this in
  let this := set_peer_global_seq (msg_global_seq connect) this in
  let this := set_state STATE_OPEN this in
  (* send READY reply *)
  let reply :=
    ReplyRead
      (reply_with
         (match existing_seq with
          | Some _ => CEPH_MSGR_TAG_SEQ
          | None => CEPH_MSGR_TAG_READY
          end))
      (features_supported (policy this)) global_seq (connect_seq this)
      (if lossy (policy this) then Z.lor 0 CEPH_MSG_CONNECT_LOSSY else 0) in
  let ms :=
    connection_set_features (connection_state this)
      (Z.land (read_features reply) (msg_features connect)) ms in
  let this := set_session_security handler this in
  (* notify *)
  let ms := queue_notice (queue_accept (connection_state this)) ms in
  if dispatch_stop then accept_shutting_down
  else
    match register_pipe registered this ms with
    | None => accept_open_asserts
    | Some ms => accept_opens reply this ms
    end.

End Connect.

(** *** Pipe::tcp_write *)

Section TcpWrite.
Context {A : Type}.

Definition POLLOUT : Z := 4.

(** How [tcp_write] ends: it returns, [assert(len > 0)] fails, or the
    [rsend] results at hand have not finished the loop. *)
Inductive tcp_write_result :=
| tcp_write_returns (rc : Z) (wire : list A)
| tcp_write_asserts
| tcp_write_blocked.

(** The loop [while (len > 0)] of [tcp_write]; [calls] are the return
    values of [rsend], and a call that returns [did >= 0] has put the first
    [did] bytes of [buf] on the wire. *)
Fixpoint tcp_write_loop (calls : list Z) (buf : list A) (len : Z)
  (wire : list A) : tcp_write_result :=
  if len <=? 0 then tcp_write_returns 0 wire
  else
    match calls with
    | [] => tcp_write_blocked
    | did :: calls' =>
      if did <? 0 then tcp_write_returns did wire
      else
        tcp_write_loop calls' (drop (Z.to_nat did) buf) (len - did)
          (wire ++ take (Z.to_nat did) buf)
    end.

(** [Pipe::tcp_write]. The injection of socket failures only changes what
    the calls return. *)
Definition tcp_write (sd : Z) (p : poll_result) (calls : list Z)
  (buf : list A) (len : Z) (wire : list A) : tcp_write_result :=
  if sd <? 0 then tcp_write_returns (-1) wire
  else if poll_rc p <? 0 then tcp_write_returns (-1) wire
  else if Z.land (poll_revents p) POLLOUT =? 0 then tcp_write_returns (-1) wire
  else if len <=? 0 then tcp_write_asserts
  else tcp_write_loop calls buf len wire.

End TcpWrite.

End Pipe.

(** ** Concrete inputs for the examples *)

Module Samples.
Import Pipe.

(** The constants with the values of the Ceph headers. *)
Definition ceph_headers : Headers := {|
  CEPH_MSG_PRIO_HIGHEST := 255;
  CEPH_FEATURE_MSG_AUTH := 2 ^ 23;
  CEPH_FEATURE_RECONNECT_SEQ := 2 ^ 6;
  CEPH_MSG_FOOTER_COMPLETE := 1
|}.

Definition no_policy : Policy := Pol false false false false 0 0 None None.

Definition addr0 : entity_addr_t := Addr [0; 0; 0; 0] 0 0.

(** A Pipe as the constructor leaves it, without a delay thread. *)
Definition new_pipe (this : nat) (st : pipe_state) : Pipe :=
  Build_Pipe this 0 false addr0 no_policy st false 0 None ∅ [] false false
    0 0 0 0 0 0 0 [].

Definition new_messenger : Messenger :=
  Build_Messenger addr0 ∅ ∅ [] [] (Thr 0 100).

(** A message with the given seq and body, at the default priority. *)
Definition message (s : Z) (b : nat) : Message := Msg s 127 0 b.

(** A reliable Pipe whose writer has numbered two messages 4 and 5 and
    waits for their acks. *)
Definition sent_4_5 : Pipe :=
  set_out_seq 5 (set_sent [message 4 1; message 5 2] (new_pipe 1 STATE_OPEN)).

(** A Pipe whose [sent] carries the increasing seqs 1 and 5 while [out_seq]
    is 5. *)
Definition sent_1_5 : Pipe :=
  set_out_seq 5 (set_sent [message 1 1; message 5 2] (new_pipe 1 STATE_OPEN)).

(** A Pipe that has sent message 7 and has a message queued at priority
    300, above CEPH_MSG_PRIO_HIGHEST. *)
Definition sent_7_urgent_queued : Pipe :=
  set_out_q {[300 := [Msg 0 300 0 9]]}
    (set_out_seq 7 (set_sent [message 7 1] (new_pipe 1 STATE_OPEN))).

(** A Pipe after a replacement: messages 41 and 42 requeued in front of
    a message that was never sent, [out_seq] back at 40. *)
Definition requeued_41_42 : Pipe :=
  set_out_q {[255 := [message 41 1; message 42 2; Msg 0 255 0 3]]}
    (set_out_seq 40 (new_pipe 1 STATE_OPEN)).

(** The backoff configuration: 0.2 s initial, 15 s maximum. *)
Definition backoff_conf : Config := Conf 200000000 15000000000.

(** A configuration whose initial backoff (20 s) is above its maximum
    (15 s). *)
Definition inverted_conf : Config := Conf 20000000000 15000000000.

(** A client Pipe that is connecting, with one message to send. *)
Definition connecting : Pipe :=
  set_out_q {[127 := [message 0 1]]} (new_pipe 1 STATE_CONNECTING).

(** The same Pipe entering a new run of connect attempts with a backoff of
    5 s left from an earlier one. *)
Definition connecting_backed_off : Pipe := set_backoff 5000000000 connecting.

(** A connecting Pipe with the standby policy and nothing queued. *)
Definition connecting_idle : Pipe :=
  set_policy (Pol false false true false 0 0 None None)
    (new_pipe 1 STATE_CONNECTING).

(** A reliable Pipe in state OPEN that has received up to seq 7. *)
Definition open_in_7 : Pipe := set_in_seq 7 (new_pipe 1 STATE_OPEN).

(** The same Pipe under a policy with a byte and a message throttler. *)
Definition open_throttled : Pipe :=
  set_policy
    (Pol false false false false 0 0 (Some (Thr 0 1000)) (Some (Thr 0 10)))
    open_in_7.

(** A complete frame of 10 bytes that decodes to a message with the given
    seq. *)
Definition frame (s : Z) : wire :=
  Wire (Some (Hdr 10 0 0 99)) 99 true true true (Some 1)
       (Some (message s 1)) false.

(** A frame of 30 bytes whose footer lacks the COMPLETE flag. *)
Definition aborted_frame : wire :=
  Wire (Some (Hdr 10 0 20 99)) 99 true true true (Some 0) None false.

(** The peers of scenario S3: A at 10.0.0.1:6800 and B at 10.0.0.2:6800. *)
Definition addrA : entity_addr_t := Addr [10; 0; 0; 1] 6800 0.
Definition addrB : entity_addr_t := Addr [10; 0; 0; 2] 6800 0.

Definition messenger_at (a : entity_addr_t) : Messenger :=
  Build_Messenger a ∅ ∅ [] [] (Thr 0 100).

(** A Pipe for the peer at [a]. *)
Definition pipe_to (this : nat) (a : entity_addr_t) (st : pipe_state) : Pipe :=
  Build_Pipe this 0 false a no_policy st false 0 None ∅ [] false false
    0 0 0 0 0 0 0 [].

(** The connect record both peers send: connect_seq 0, global_seq 1. *)
Definition first_connect : ceph_msg_connect := Connect 0 1 0.

(** A registered lossy Pipe with conn_id 11 on Connection 1 that has
    received up to seq 7 and has message 9 unacknowledged, and the Pipe
    that accepts a new connection from the same peer, with conn_id 22 on
    Connection 2. *)
Definition lossy_existing : Pipe :=
  set_policy (Pol true false false false 0 0 None None)
    (set_conn_id 11 (set_connection_state 1 (set_in_seq 7
       (set_out_seq 9 (set_sent [message 9 1] (pipe_to 1 addrA STATE_OPEN)))))).

Definition accepting : Pipe :=
  set_conn_id 22 (set_connection_state 2 (pipe_to 2 addrA STATE_ACCEPTING)).


Definition registry_with (p : Pipe) : Messenger :=
  Build_Messenger addrB {[peer_addr p := self p]}
    {[1%nat := Conn (Some 1%nat) false 0; 2%nat := Conn (Some 2%nat) false 0]}
    [] [] (Thr 0 100).

(** A host on which the ports below 6802 are taken: [rbind] to them fails
    with EADDRINUSE (98). No earlier call has failed, so [errno] is 0 when
    [bind] is entered. *)
Definition ports_from_6802 : Accepter.socket_calls :=
  Accepter.SocketCalls None None
    (fun port => if 6802 <=? port then None else Some 98) None None 0.

(** Pages of 4096 bytes. *)
Definition pages_4k : PageHeaders := {|
  CEPH_PAGE_SIZE := 4096;
  CEPH_PAGE_MASK := Z.lnot 4095
|}.

(** A message of six bytes in three iovecs, and [rsendmsg] calls that take
    two bytes, none, three and one. *)
Definition six_bytes : list (list Z) := [[1]; [2; 3; 4]; [5; 6]].
Definition short_writes : list (Z * bool) :=
  [(2, false); (0, false); (3, false); (1, false)].

(** An OPEN Pipe with conn_id 11 that has received up to seq 9 and holds
    messages 8 and 9 in its delay queue, to be released at times 100 and
    200; and a messenger whose dispatch queue holds message 7 of that
    connection, with 35 units of the dispatch throttle taken. *)
Definition delayed_8_9 : Pipe :=
  set_delay_thread (Some [(100, Msg 8 127 10 1); (200, Msg 9 127 20 2)])
    (set_in_seq 9 (set_conn_id 11 (new_pipe 1 STATE_OPEN))).

Definition dispatching : Messenger :=
  Build_Messenger addr0 ∅ ∅ [(11, Msg 7 127 5 0)] [] (Thr 35 100).

(** A registered Pipe with an open session at connect_seq 3, and a connect
    of the same peer that still carries connect_seq 1. *)
Definition open_session : Pipe :=
  set_connect_seq 3 (pipe_to 1 addrA STATE_OPEN).

Definition stale_connect : ceph_msg_connect := Connect 0 1 1.

(** Scenario S4: a reliable Pipe with conn_id 11 that has sent messages 41
    and 42 and has one message queued that was never sent. *)
Definition resuming : Pipe :=
  set_out_q {[255 := [Msg 0 255 0 3]]}
    (set_out_seq 42 (set_sent [message 41 1; message 42 2]
       (set_conn_id 11 (set_connection_state 1 (set_in_seq 7
          (pipe_to 1 addrA STATE_OPEN)))))).

(** The Pipe [sent_4_5] with one more message queued, and a socket on
    which [write_message] fails. *)
Definition queued_behind_4_5 : Pipe :=
  set_out_q {[127 := [message 0 7]]} sent_4_5.

Definition failing_write : writer_io := WriterIO true 0 0 (-1).

(** A payload of three bytes in three buffers, the second one empty, and
    the [rsendmsg] results of two [do_sendmsg] calls: one that takes three
    bytes at once, one that takes four bytes in two short writes. *)
Definition fragmented : list (list Z) := [[1; 2]; []; [3]].
Definition two_sends : list (list (Z * bool)) :=
  [[(3, false)]; [(2, false); (2, false)]].

(** A client Pipe that reconnects at connect_seq 1 with message 41 requeued,
    the variables of its [connect], a socket on which everything succeeds
    and the peer has acked 41, and a SEQ reply that carries connect_seq
    2. *)
Definition reconnecting : Pipe :=
  set_connect_seq 1
    (set_out_q {[255 := [message 41 1]]} (pipe_to 2 addrB STATE_CONNECTING)).

Definition reconnect_vars : connect_vars := Vars 1 5 false.

Definition good_socket : connect_io :=
  ConnectIO true false false (Some 41) true 6 0 false.

Definition seq_reply : connect_reply_read :=
  ReplyRead (reply_with CEPH_MSGR_TAG_SEQ) 0 9 2 0.

End Samples.

(** * Part II: lemmas and theorems *)

(** ** Machine integers *)

Lemma wrap64_small z : 0 <= z < 2 ^ 64 -> wrap64 z = z.
Proof. intros Hz. unfold wrap64. apply Z.mod_small. exact Hz. Qed.

Lemma wrap64_sub_wrap z k : wrap64 (wrap64 z - k) = wrap64 (z - k).
Proof. unfold wrap64. apply Zminus_mod_idemp_l. Qed.

Lemma wrap64_add_wrap z k : wrap64 (wrap64 z + k) = wrap64 (z + k).
Proof. unfold wrap64. apply Zplus_mod_idemp_l. Qed.

(** ** Tests on the state of a Pipe *)

Lemma state_is_true s (p : Pipe.Pipe) :
  Pipe.state p = s -> Pipe.state_is s p = true.
Proof. intros H. unfold Pipe.state_is. apply bool_decide_eq_true_2, H. Qed.

Lemma state_is_false s (p : Pipe.Pipe) :
  Pipe.state p <> s -> Pipe.state_is s p = false.
Proof. intros H. unfold Pipe.state_is. apply bool_decide_eq_false_2, H. Qed.

(** Settle the [state_is] tests of the goal from what the context knows
    about the state. *)
Ltac decide_state :=
  repeat match goal with
  | |- context [Pipe.state_is ?s ?p] =>
    first [ rewrite (state_is_true s p) by (simpl; congruence)
          | rewrite (state_is_false s p) by (simpl; congruence) ]
  end.

(** ** The accept loop *)

Section AccepterFacts.
Import Accepter.

Lemma body_left l t : status l = Left -> body l t = l.
Proof. intros Hl. unfold body. rewrite Hl. reflexivity. Qed.

Lemma run_left l ts : status l = Left -> run l ts = l.
Proof.
  revert l. induction ts as [|t ts IH]; intros l Hl; [reflexivity|].
  unfold run in *. simpl. rewrite (body_left _ _ Hl). apply IH, Hl.
Qed.

Lemma body_accept_succeeds l t :
  status l = Looping -> accept_succeeds t ->
  body l t = Loop Looping 0 (accepted l ++ [accept_sd t]).
Proof.
  intros Hl [(Hd & Hp & Hr & Hd') Hsd]. unfold body.
  rewrite Hl, Hd, Hd', Hr. simpl.
  destruct (Z.ltb_spec (poll_result t) 0); [lia|].
  destruct (Z.leb_spec 0 (accept_sd t)); [reflexivity|lia].
Qed.

Lemma body_accept_fails l t :
  status l = Looping -> accept_fails t ->
  body l t =
    Loop (if 4 <? errors l + 1 then Left else Looping)
         (errors l + 1) (accepted l).
Proof.
  intros Hl [(Hd & Hp & Hr & Hd') Hsd]. unfold body.
  rewrite Hl, Hd, Hd', Hr. simpl.
  destruct (Z.ltb_spec (poll_result t) 0); [lia|].
  destruct (Z.leb_spec 0 (accept_sd t)); [lia|].
  destruct (4 <? errors l + 1); reflexivity.
Qed.

(** A run of failing accepts leaves the loop exactly when the counter
    passes 4. *)
Lemma run_failures l ts :
  status l = Looping -> 0 <= errors l <= 4 -> Forall accept_fails ts ->
  (status (run l ts) = Left <-> 5 - errors l <= Z.of_nat (length ts)) /\
  accepted (run l ts) = accepted l.
Proof.
  revert l. induction ts as [|t ts IH]; intros l Hl He Hts.
  - simpl. rewrite Hl. split; [|reflexivity]. split; [discriminate|lia].
  - apply Forall_cons in Hts as [Ht Hts].
    change (run l (t :: ts)) with (run (body l t) ts).
    rewrite (body_accept_fails _ _ Hl Ht).
    destruct (Z.ltb_spec 4 (errors l + 1)) as [Hgt|Hle].
    + rewrite run_left by reflexivity. simpl. split; [|reflexivity].
      split; [intros _; lia|reflexivity].
    + destruct (IH (Loop Looping (errors l + 1) (accepted l)))
        as [IH1 IH2]; [reflexivity|simpl; lia|exact Hts|].
      simpl in IH1, IH2. split; [|exact IH2].
      rewrite IH1. simpl length. lia.
Qed.

(** C9, as the code has it: a successful accept resets the counter of
    consecutive failures to zero and hands the descriptor to the messenger,
    and, counted from such a reset, the accept loop is left exactly when
    five accepts in a row have failed ([++errors > 4]); four failures in a
    row do not end it. *)
Theorem accept_loop_five_failures (l : loop) (t : turn) (ts : list turn) :
  status l = Looping ->
  (accept_succeeds t ->
     body l t = Loop Looping 0 (accepted l ++ [accept_sd t])) /\
  (errors l = 0 -> Forall accept_fails ts ->
     (status (run l ts) = Left <-> (5 <= length ts)%nat)).
Proof.
  intros Hl. split.
  - apply body_accept_succeeds, Hl.
  - intros He Hts.
    destruct (run_failures l ts Hl ltac:(lia) Hts) as [H _].
    rewrite H, He. lia.
Qed.

Lemma accept_loop_five_failures_witness :
  body start (accept_turn 3) = Loop Looping 0 [3] /\
  status (entry five_failures) = Left.
Proof.
  destruct (accept_loop_five_failures start (accept_turn 3) five_failures
              eq_refl) as [Hs Hf].
  split.
  - apply Hs. repeat split; simpl; (reflexivity || lia).
  - apply Hf; [reflexivity| |simpl; lia].
    repeat constructor; simpl; (reflexivity || lia).
Defined.

(** Four consecutive accept failures do not terminate the loop: it is
    still polling, with the counter at 4, and accepts the next
    connection. *)
Lemma four_failures_keep_accepting :
  entry four_failures = Loop Looping 4 [] /\
  entry (four_failures ++ [accept_turn 7]) = Loop Looping 0 [7].
Proof. split; reflexivity. Qed.

End AccepterFacts.

(** ** Outbound queues and sequence numbers *)

Section QueueFacts.
Import Pipe.
Context {hdr : Headers}.

Lemma bucket_insert_eq (q : gmap Z (list Message)) k l :
  bucket (<[k := l]> q) k = l.
Proof. unfold bucket. rewrite lookup_insert_eq. reflexivity. Qed.

Lemma bucket_insert_ne (q : gmap Z (list Message)) k k' l :
  k <> k' -> bucket (<[k := l]> q) k' = bucket q k'.
Proof. intros Hk. unfold bucket. rewrite lookup_insert_ne by exact Hk. reflexivity. Qed.

Lemma bucket_nonempty_lookup (q : gmap Z (list Message)) k m l :
  bucket q k = m :: l -> q !! k = Some (m :: l).
Proof.
  unfold bucket. destruct (q !! k) as [l'|]; simpl; [congruence|discriminate].
Qed.

(** *** requeue_sent *)

Lemma requeue_loop_spec (l rq : list Message) (o : Z) :
  requeue_loop l rq o =
    (rev l ++ rq,
     match l with [] => o | _ :: _ => wrap64 (o - Z.of_nat (length l)) end).
Proof.
  revert rq o. induction l as [|m l IH]; intros rq o; [reflexivity|].
  simpl requeue_loop. rewrite IH. f_equal.
  - simpl. rewrite <- app_assoc. reflexivity.
  - destruct l as [|m' l'].
    + simpl. reflexivity.
    + rewrite wrap64_sub_wrap. f_equal. simpl length. lia.
Qed.

Lemma requeue_sent_spec (p : Pipe) :
  uint64 (out_seq p) ->
  let p1 := requeue_sent p in
  bucket (out_q p1) CEPH_MSG_PRIO_HIGHEST =
    sent p ++ bucket (out_q p) CEPH_MSG_PRIO_HIGHEST /\
  (forall k, k <> CEPH_MSG_PRIO_HIGHEST -> out_q p1 !! k = out_q p !! k) /\
  sent p1 = [] /\
  out_seq p1 = wrap64 (out_seq p - Z.of_nat (length (sent p))).
Proof.
  intros Ho. unfold requeue_sent. destruct (sent p) as [|m s] eqn:Hs.
  - simpl. rewrite Hs. repeat split; try reflexivity.
    rewrite Z.sub_0_r, wrap64_small; [reflexivity|exact Ho].
  - rewrite <- Hs. rewrite requeue_loop_spec. rewrite rev_involutive.
    simpl. rewrite bucket_insert_eq. repeat split.
    + intros k Hk. rewrite lookup_insert_ne by congruence. reflexivity.
    + rewrite Hs at 1. simpl rev. destruct (rev s ++ [m]) eqn:Hr.
      * destruct (rev s); discriminate.
      * rewrite length_rev. reflexivity.
Qed.

(** *** The writer's choice of the next message *)

Lemma top_priority_spec (q : gmap Z (list Message)) :
  match top_priority q with
  | None => forall k l, q !! k = Some l -> l = []
  | Some k =>
    (exists m l, q !! k = Some (m :: l)) /\
    (forall k' l, q !! k' = Some l -> l <> [] -> k' <= k)
  end.
Proof.
  unfold top_priority.
  apply (map_fold_weak_ind
    (fun r (m : gmap Z (list Message)) =>
       match r with
       | None => forall k l, m !! k = Some l -> l = []
       | Some k =>
         (exists x l, m !! k = Some (x :: l)) /\
         (forall k' l, m !! k' = Some l -> l <> [] -> k' <= k)
       end)).
  - intros k l Hk. rewrite lookup_empty in Hk. discriminate.
  - intros i x m r Hi IH. destruct x as [|y x].
    + destruct r as [k|].
      * destruct IH as [(z & l & Hz) Hmax]. split.
        -- exists z, l. rewrite lookup_insert_ne; [exact Hz|congruence].
        -- intros k' l' Hk' Hl'.
           destruct (decide (i = k')) as [->|Hne].
           ++ rewrite lookup_insert_eq in Hk'. congruence.
           ++ rewrite lookup_insert_ne in Hk' by exact Hne. eauto.
      * intros k l Hk. destruct (decide (i = k)) as [->|Hne].
        -- rewrite lookup_insert_eq in Hk. congruence.
        -- rewrite lookup_insert_ne in Hk by exact Hne. eauto.
    + destruct r as [k|].
      * destruct IH as [(z & l & Hz) Hmax]. split.
        -- destruct (Z.max_spec i k) as [[Hlt ->]|[Hle ->]].
           ++ exists z, l. rewrite lookup_insert_ne; [exact Hz|congruence].
           ++ exists y, x. apply lookup_insert_eq.
        -- intros k' l' Hk' Hl'.
           destruct (decide (i = k')) as [->|Hne]; [lia|].
           rewrite lookup_insert_ne in Hk' by exact Hne.
           specialize (Hmax _ _ Hk' Hl'). lia.
      * split.
        -- exists y, x. apply lookup_insert_eq.
        -- intros k' l' Hk' Hl'.
           destruct (decide (i = k')) as [->|Hne]; [lia|].
           rewrite lookup_insert_ne in Hk' by exact Hne.
           specialize (IH _ _ Hk'). contradiction.
Qed.

Lemma top_priority_highest (q : gmap Z (list Message)) k m l :
  q !! k = Some (m :: l) -> none_above k q -> top_priority q = Some k.
Proof.
  intros Hk Hmax. pose proof (top_priority_spec q) as H.
  destruct (top_priority q) as [k0|].
  - destruct H as [(z & l0 & Hz) Hmax0]. f_equal.
    assert (k <= k0) by (eapply Hmax0; [exact Hk|discriminate]).
    assert (k0 <= k) by (eapply Hmax; [exact Hz|discriminate]).
    lia.
  - specialize (H _ _ Hk). discriminate.
Qed.

Lemma none_above_insert k (q : gmap Z (list Message)) l :
  none_above k q -> none_above k (<[k := l]> q).
Proof.
  intros H k' l' Hk' Hl'. destruct (decide (k = k')) as [->|Hne]; [lia|].
  rewrite lookup_insert_ne in Hk' by exact Hne. eauto.
Qed.

Lemma set_seq_same m : set_seq (get_seq m) m = m.
Proof. destruct m; reflexivity. Qed.

Lemma writer_grab_head (p : Pipe) k m l :
  bucket (out_q p) k = m :: l -> none_above k (out_q p) ->
  get_seq m = wrap64 (out_seq p + 1) ->
  exists p',
    writer_grab p = Some (m, p') /\
    out_q p' = <[k := l]> (out_q p) /\
    out_seq p' = wrap64 (out_seq p + 1).
Proof.
  intros Hb Hmax Hseq. unfold writer_grab, _get_next_outgoing.
  rewrite (top_priority_highest _ k m l (bucket_nonempty_lookup _ _ _ _ Hb) Hmax).
  rewrite Hb. rewrite <- Hseq, set_seq_same.
  eexists. split; [reflexivity|].
  destruct (negb (lossy (policy _)) || close_on_empty _); split; reflexivity.
Qed.

Lemma writer_drain_numbered (l rest : list Message) (p : Pipe) k :
  bucket (out_q p) k = l ++ rest -> none_above k (out_q p) ->
  numbered (out_seq p) l ->
  exists p', writer_drain (length l) p = Some (l, p') /\
             bucket (out_q p') k = rest.
Proof.
  revert p. induction l as [|m l IH]; intros p Hb Hmax Hn.
  - exists p. split; [reflexivity|exact Hb].
  - destruct Hn as [Hm Hn].
    destruct (writer_grab_head p k m (l ++ rest) Hb Hmax Hm)
      as (p1 & Hg & Hq & Ho).
    destruct (IH p1) as (p2 & Hd & Hb2).
    + rewrite Hq. apply bucket_insert_eq.
    + rewrite Hq. apply none_above_insert, Hmax.
    + rewrite Ho. exact Hn.
    + exists p2. simpl. rewrite Hg, Hd. split; [reflexivity|exact Hb2].
Qed.

Lemma none_above_bucket (k : Z) (q : gmap Z (list Message)) :
  none_above k q <-> (forall k', k < k' -> bucket q k' = []).
Proof.
  unfold none_above, bucket. split.
  - intros H k' Hk. destruct (q !! k') as [l|] eqn:Hl; [|reflexivity].
    simpl. destruct l as [|m l]; [reflexivity|].
    specialize (H k' (m :: l) Hl ltac:(discriminate)). lia.
  - intros H k' l Hl Hne. destruct (Z.le_gt_cases k' k) as [|Hgt]; [assumption|].
    specialize (H k' ltac:(lia)). rewrite Hl in H. simpl in H. contradiction.
Qed.

Lemma none_above_insert_le k k' (q : gmap Z (list Message)) l :
  k' <= k -> none_above k q -> none_above k (<[k' := l]> q).
Proof.
  intros Hle H k2 l2 Hk2 Hl2. destruct (decide (k' = k2)) as [->|Hne]; [lia|].
  rewrite lookup_insert_ne in Hk2 by exact Hne. eauto.
Qed.

(** Whatever seq the head of the top bucket carries, the writer takes it
    and writes it under [++out_seq]. *)
Lemma writer_grab_top (p : Pipe) k m l :
  bucket (out_q p) k = m :: l -> none_above k (out_q p) ->
  exists p',
    writer_grab p = Some (set_seq (wrap64 (out_seq p + 1)) m, p') /\
    out_q p' = <[k := l]> (out_q p) /\
    out_seq p' = wrap64 (out_seq p + 1).
Proof.
  intros Hb Hmax. unfold writer_grab, _get_next_outgoing.
  rewrite (top_priority_highest _ k m l (bucket_nonempty_lookup _ _ _ _ Hb) Hmax).
  rewrite Hb.
  eexists. split; [reflexivity|].
  destruct (negb (lossy (policy _)) || close_on_empty _); split; reflexivity.
Qed.

(** Messages submitted at priorities up to [k] go to the back of their
    buckets: bucket [k] grows at its back by those of priority [k], and
    nothing appears above [k]. *)
Lemma send_all_spec k (news : list Message) :
  Forall (fun m => get_priority m <= k) news ->
  forall p : Pipe, none_above k (out_q p) ->
  let p' := fold_left (fun q m => _send m q) news p in
  bucket (out_q p') k =
    bucket (out_q p) k ++ filter (fun m => get_priority m = k) news /\
  none_above k (out_q p') /\ out_seq p' = out_seq p.
Proof.
  induction 1 as [|m news Hm Hall IH]; intros p Hmax; simpl.
  - rewrite app_nil_r. repeat split. exact Hmax.
  - destruct (IH (_send m p)) as (Hb & Ha & Ho).
    { simpl. apply none_above_insert_le; assumption. }
    split; [|split; [exact Ha|exact Ho]].
    rewrite Hb. simpl out_q.
    destruct (decide (get_priority m = k)) as [He|Hne].
    + rewrite filter_cons_True by exact He.
      rewrite He, bucket_insert_eq, <- app_assoc. reflexivity.
    + rewrite filter_cons_False by exact Hne.
      rewrite bucket_insert_ne by exact Hne. reflexivity.
Qed.

(** The writer drains the front of the top bucket in its order also when
    messages are submitted between its turns, as long as none is submitted
    above that bucket; it writes the messages under the seqs they carry
    when these follow [out_seq]. *)
Lemma writer_drain_sends_order k (l : list Message) :
  forall (submitted : list (list Message)) (rest : list Message) (p : Pipe),
  length submitted = length l ->
  Forall (Forall (fun m => get_priority m <= k)) submitted ->
  bucket (out_q p) k = l ++ rest -> none_above k (out_q p) ->
  exists l' p',
    writer_drain_sends submitted p = Some (l', p') /\
    map (set_seq 0) l' = map (set_seq 0) l /\
    (numbered (out_seq p) l -> l' = l).
Proof.
  induction l as [|m l IH]; intros submitted rest p Hlen Hall Hb Hmax.
  - destruct submitted; [|discriminate Hlen].
    exists [], p. repeat split.
  - destruct submitted as [|news submitted]; [discriminate Hlen|].
    apply Forall_cons in Hall as [Hnews Hall].
    destruct (send_all_spec k news Hnews p Hmax) as (Hb1 & Ha1 & Ho1).
    rewrite Hb in Hb1. simpl in Hb1.
    destruct (writer_grab_top _ k m _ Hb1 Ha1) as (p1 & Hg & Hq & Ho).
    destruct (IH submitted
                (rest ++ filter (fun m => get_priority m = k) news) p1)
      as (l' & p2 & Hd & Hl & Hn).
    + simpl in Hlen. lia.
    + exact Hall.
    + rewrite Hq, bucket_insert_eq, <- app_assoc. reflexivity.
    + rewrite Hq. apply none_above_insert, Ha1.
    + eexists _, p2. simpl. rewrite Hg, Hd. split; [reflexivity|]. split.
      * simpl. rewrite Hl. reflexivity.
      * rewrite Ho1. intros [Hm Hnum]. rewrite <- Hm, set_seq_same.
        f_equal. apply Hn. rewrite Ho, Ho1. exact Hnum.
Qed.

Lemma numbered_wrap o l : numbered (wrap64 o) l <-> numbered o l.
Proof.
  destruct l as [|m l]; simpl; [tauto|].
  rewrite wrap64_add_wrap. tauto.
Qed.

Lemma numbered_app o (l1 l2 : list Message) :
  numbered o (l1 ++ l2) <->
  numbered o l1 /\ numbered (wrap64 (o + Z.of_nat (length l1))) l2.
Proof.
  revert o. induction l1 as [|m l1 IH]; intros o.
  - simpl. rewrite Z.add_0_r, numbered_wrap. tauto.
  - simpl app. simpl numbered. rewrite IH, wrap64_add_wrap.
    replace (o + 1 + Z.of_nat (length l1))
      with (o + Z.of_nat (length (m :: l1))) by (simpl length; lia).
    tauto.
Qed.

(** The writer keeps it so on a Pipe that records what it sends. *)
Lemma writer_grab_sent_numbered (p p' : Pipe) (m : Message) :
  negb (lossy (policy p)) || close_on_empty p = true ->
  writer_grab p = Some (m, p') -> sent_numbered p -> sent_numbered p'.
Proof.
  unfold sent_numbered, writer_grab. intros Hrec Hg Hn.
  destruct (_get_next_outgoing (out_q p)) as [[m0 q']|]; [|discriminate].
  simpl in Hg. rewrite Hrec in Hg. injection Hg as <- <-. simpl.
  rewrite length_app, wrap64_sub_wrap. simpl length.
  replace (out_seq p + 1 - Z.of_nat (length (sent p) + 1))
    with (out_seq p - Z.of_nat (length (sent p))) by lia.
  apply numbered_app. split; [exact Hn|].
  simpl. split; [|exact I].
  rewrite wrap64_add_wrap, <- Z.add_assoc, wrap64_add_wrap. f_equal. lia.
Qed.

Lemma trim_sent_suffix (seq : Z) (l : list Message) :
  exists acked, l = acked ++ trim_sent seq l.
Proof.
  induction l as [|m l [acked IH]]; [exists []; reflexivity|].
  simpl. destruct (get_seq m <=? seq).
  - exists (m :: acked). simpl. f_equal. exact IH.
  - exists []. reflexivity.
Qed.

(** And so does [handle_ack]. *)
Lemma handle_ack_sent_numbered (seq : Z) (p : Pipe) :
  sent_numbered p -> sent_numbered (handle_ack seq p).
Proof.
  unfold sent_numbered. intros Hn.
  assert (H : numbered
                (wrap64 (out_seq p - Z.of_nat (length (trim_sent seq (sent p)))))
                (trim_sent seq (sent p))).
  { destruct (trim_sent_suffix seq (sent p)) as [acked Hl].
    rewrite Hl in Hn at 2. apply numbered_app in Hn as [_ Hn].
    rewrite wrap64_add_wrap in Hn.
    replace (out_seq p - Z.of_nat (length (sent p)) + Z.of_nat (length acked))
      with (out_seq p - Z.of_nat (length (trim_sent seq (sent p)))) in Hn;
      [exact Hn|].
    rewrite Hl at 2. rewrite length_app. lia. }
  unfold handle_ack. simpl.
  destruct (trim_sent seq (sent p)) as [|m l] eqn:Ht.
  - destruct (close_on_empty p); exact I.
  - exact H.
Qed.

(** *** discard_requeued_up_to *)

Lemma discard_loop_spec (seq : Z) (rq : list Message) (o : Z) :
  exists dropped kept,
    rq = dropped ++ kept /\
    Forall (fun m => get_seq m <> 0 /\ get_seq m <= seq) dropped /\
    stops_scan seq kept /\
    discard_loop seq rq o =
      (kept,
       match dropped with
       | [] => o
       | _ :: _ => wrap64 (o + Z.of_nat (length dropped))
       end).
Proof.
  revert o. induction rq as [|m rq IH]; intros o.
  - exists [], []. repeat split; [constructor|intros m; discriminate].
  - simpl discard_loop.
    destruct (Z.eqb_spec (get_seq m) 0) as [H0|H0]; simpl orb.
    + exists [], (m :: rq). repeat split; [constructor|].
      intros m' [= <-]. left. exact H0.
    + destruct (Z.ltb_spec seq (get_seq m)) as [Hgt|Hle].
      * exists [], (m :: rq). repeat split; [constructor|].
        intros m' [= <-]. right. exact Hgt.
      * destruct (IH (wrap64 (o + 1))) as (d & k & -> & Hd & Hk & ->).
        exists (m :: d), k. repeat split; [constructor; tauto|exact Hk|].
        f_equal. destruct d as [|m' d]; [reflexivity|].
        rewrite wrap64_add_wrap. f_equal. simpl length. lia.
Qed.

Lemma discard_loop_numbered (seq : Z) (l1 l2 : list Message) (o : Z) :
  numbered o l1 -> stops_scan seq l2 ->
  exists j,
    (discard_loop seq (l1 ++ l2) o).1 = drop j l1 ++ l2 /\
    numbered (discard_loop seq (l1 ++ l2) o).2 (drop j l1).
Proof.
  revert o. induction l1 as [|m l1 IH]; intros o Hn Hstop.
  - exists 0%nat. simpl. destruct l2 as [|m l2]; [split; reflexivity|].
    simpl. destruct (Hstop m eq_refl) as [H0|Hgt].
    + rewrite H0. simpl. split; reflexivity.
    + destruct (Z.ltb_spec seq (get_seq m)); [|lia].
      rewrite orb_true_r. split; reflexivity.
  - simpl app. simpl discard_loop.
    destruct ((get_seq m =? 0) || (seq <? get_seq m)).
    + exists 0%nat. split; [reflexivity|exact Hn].
    + destruct Hn as [_ Hn]. destruct (IH _ Hn Hstop) as (j & H1 & H2).
      exists (S j). split; [exact H1|exact H2].
Qed.

(** C2, as the code has it: for every Pipe whose [sent] list holds [n]
    messages carrying the [n] consecutive numbers that end at [out_seq]
    (as the writer leaves them) and that has no message queued at a
    priority above CEPH_MSG_PRIO_HIGHEST, [requeue_sent] moves all [n]
    messages to the front of [out_q[CEPH_MSG_PRIO_HIGHEST]] in their
    original order, empties [sent] and decrements [out_seq] by [n], and the
    next [n] messages the writer drains are these messages, each with the
    seq it had, in the original order. *)
Theorem requeue_sent_preserves_order (p : Pipe) :
  uint64 (out_seq p) ->
  sent_numbered p ->
  none_above CEPH_MSG_PRIO_HIGHEST (out_q p) ->
  let p1 := requeue_sent p in
  bucket (out_q p1) CEPH_MSG_PRIO_HIGHEST =
    sent p ++ bucket (out_q p) CEPH_MSG_PRIO_HIGHEST /\
  sent p1 = [] /\
  out_seq p1 = wrap64 (out_seq p - Z.of_nat (length (sent p))) /\
  exists p2,
    writer_drain (length (sent p)) p1 = Some (sent p, p2) /\
    bucket (out_q p2) CEPH_MSG_PRIO_HIGHEST =
      bucket (out_q p) CEPH_MSG_PRIO_HIGHEST.
Proof.
  intros Ho Hn Hmax p1.
  destruct (requeue_sent_spec p Ho) as (Hb & Hk & Hs & Hseq).
  fold p1 in Hb, Hk, Hs, Hseq. repeat split; try assumption.
  apply writer_drain_numbered; [exact Hb| |rewrite Hseq; exact Hn].
  intros k l Hl Hne.
  destruct (decide (k = CEPH_MSG_PRIO_HIGHEST)) as [->|Hneq]; [lia|].
  rewrite Hk in Hl by exact Hneq. eauto.
Qed.

(** C8: [discard_requeued_up_to(seq)] drops messages from the front of
    [out_q[CEPH_MSG_PRIO_HIGHEST]] exactly while the front message's seq
    lies in (0, seq], increments [out_seq] once per dropped message, and
    keeps the first message whose seq is 0 or greater than [seq] and
    everything behind it; the other buckets and [sent] are untouched. When
    the front of the bucket holds requeued messages numbered from
    [out_seq], what is kept of them is numbered from the new [out_seq], so
    the writer gives the next drained message the number it carries. *)
Theorem discard_requeued_up_to_spec (seq : Z) (p : Pipe) :
  uint64 (out_seq p) ->
  Forall (fun m => 0 <= get_seq m) (bucket (out_q p) CEPH_MSG_PRIO_HIGHEST) ->
  let p' := discard_requeued_up_to seq p in
  exists dropped kept,
    bucket (out_q p) CEPH_MSG_PRIO_HIGHEST = dropped ++ kept /\
    Forall (fun m => 0 < get_seq m <= seq) dropped /\
    stops_scan seq kept /\
    bucket (out_q p') CEPH_MSG_PRIO_HIGHEST = kept /\
    (forall k, k <> CEPH_MSG_PRIO_HIGHEST -> out_q p' !! k = out_q p !! k) /\
    sent p' = sent p /\
    out_seq p' = wrap64 (out_seq p + Z.of_nat (length dropped)) /\
    (forall l1 l2,
       bucket (out_q p) CEPH_MSG_PRIO_HIGHEST = l1 ++ l2 ->
       numbered (out_seq p) l1 -> stops_scan seq l2 ->
       exists j, kept = drop j l1 ++ l2 /\
                 numbered (out_seq p') (drop j l1)).
Proof.
  intros Ho Hpos p'. subst p'. unfold discard_requeued_up_to.
  set (rq := bucket (out_q p) CEPH_MSG_PRIO_HIGHEST) in *.
  destruct (discard_loop_spec seq rq (out_seq p))
    as (d & k & Hrq & Hd & Hk & Hloop).
  destruct (discard_loop seq rq (out_seq p)) as [rq' o'] eqn:Hl.
  injection Hloop as -> ->.
  exists d, k. simpl. rewrite bucket_insert_eq.
  split; [exact Hrq|]. split.
  { rewrite Hrq in Hpos. apply Forall_app in Hpos as [Hpos _].
    rewrite Forall_forall in Hd, Hpos |- *. intros m Hm.
    specialize (Hd m Hm). specialize (Hpos m Hm). lia. }
  split; [exact Hk|]. split; [reflexivity|]. split.
  { intros k' Hk'. rewrite lookup_insert_ne by congruence. reflexivity. }
  split; [reflexivity|]. split.
  { destruct d; [|reflexivity].
    simpl. rewrite Z.add_0_r, wrap64_small; [reflexivity|exact Ho]. }
  intros l1 l2 Hrq' Hn Hstop.
  destruct (discard_loop_numbered seq l1 l2 (out_seq p) Hn Hstop)
    as (j & H1 & H2).
  rewrite <- Hrq', Hl in H1, H2. simpl in H1, H2.
  exists j. split; [exact H1|exact H2].
Qed.

End QueueFacts.

Section QueueExamples.
Import Pipe Samples.
#[local] Existing Instance ceph_headers.

Lemma requeue_sent_preserves_order_witness :
  exists p2,
    writer_drain 2 (requeue_sent sent_4_5) =
      Some ([message 4 1; message 5 2], p2).
Proof.
  destruct (requeue_sent_preserves_order sent_4_5) as (_ & _ & _ & p2 & Hd & _).
  - unfold uint64. simpl. lia.
  - vm_compute. repeat split.
  - intros k l Hk. simpl in Hk. rewrite lookup_empty in Hk. discriminate.
  - exists p2. exact Hd.
Defined.

(** With increasing seqs 1 and 5 on [sent] and [out_seq] at 5, the two
    messages come back from the writer numbered 4 and 5, not 1 and 5; and a
    message queued above CEPH_MSG_PRIO_HIGHEST is drained before the
    requeued message 7 and takes its number. *)
Lemma requeue_sent_renumbers :
  map get_seq (sent sent_1_5) = [1; 5] /\
  fst <$> writer_drain 2 (requeue_sent sent_1_5) =
    Some [message 4 1; message 5 2] /\
  map get_seq (sent sent_7_urgent_queued) = [7] /\
  fst <$> writer_drain 1 (requeue_sent sent_7_urgent_queued) =
    Some [Msg 7 300 0 9].
Proof. repeat split; vm_compute; reflexivity. Qed.

Lemma discard_requeued_up_to_spec_witness :
  exists dropped kept j,
    [message 41 1; message 42 2; Msg 0 255 0 3] = dropped ++ kept /\
    Forall (fun m => 0 < get_seq m <= 41) dropped /\
    bucket (out_q (discard_requeued_up_to 41 requeued_41_42)) 255 = kept /\
    out_seq (discard_requeued_up_to 41 requeued_41_42) =
      wrap64 (40 + Z.of_nat (length dropped)) /\
    kept = drop j [message 41 1; message 42 2] ++ [Msg 0 255 0 3] /\
    numbered (out_seq (discard_requeued_up_to 41 requeued_41_42))
      (drop j [message 41 1; message 42 2]).
Proof.
  destruct (discard_requeued_up_to_spec 41 requeued_41_42)
    as (d & k & Hrq & Hd & Hk & Hb & _ & _ & Ho & Hnum).
  - unfold uint64. simpl. lia.
  - vm_compute. repeat constructor; discriminate.
  - destruct (Hnum [message 41 1; message 42 2] [Msg 0 255 0 3])
      as (j & Hj & Hn).
    + reflexivity.
    + vm_compute. repeat split.
    + intros m [= <-]. left. reflexivity.
    + exists d, k, j. repeat split; assumption.
Defined.

End QueueExamples.

(** ** Pipe::fault *)

Section FaultFacts.
Import Pipe.
Context {hdr : Headers}.

(** C10: on a Pipe in state CONNECTING, [fault(true)] only signals the
    condition variable and returns: the socket is not shut down, and the
    state, backoff, [out_q], [sent], [connect_seq] and every other field of
    the Pipe, and the messenger, are as before, so the writer's connect
    attempt is not disturbed. *)
Theorem fault_onread_connecting_noop (conf : Config) (p : Pipe) (ms : Messenger) :
  state p = STATE_CONNECTING ->
  fault conf true p ms = (cond_Signal p, ms) /\
  let p' := (fault conf true p ms).1 in
  state p' = state p /\ backoff p' = backoff p /\ out_q p' = out_q p /\
  sent p' = sent p /\ sd_shutdown p' = sd_shutdown p /\
  connect_seq p' = connect_seq p /\ cond_waits p' = cond_waits p.
Proof.
  intros Hs.
  assert (fault conf true p ms = (cond_Signal p, ms)) as ->.
  { unfold fault. decide_state. reflexivity. }
  repeat split.
Qed.

Lemma fault_closed (conf : Config) (onread : bool) (p : Pipe) (ms : Messenger) :
  state p = STATE_CLOSED -> fault conf onread p ms = (cond_Signal p, ms).
Proof.
  intros Hs. unfold fault. decide_state.
  rewrite andb_false_r. reflexivity.
Qed.

Lemma delay_discard_frame dq (ms : Messenger) :
  rank_pipe (delay_discard dq ms) = rank_pipe ms /\
  connections (delay_discard dq ms) = connections ms /\
  notices (delay_discard dq ms) = notices ms /\
  dispatch_queue (delay_discard dq ms) = dispatch_queue ms.
Proof.
  revert ms. unfold delay_discard.
  induction dq as [|e dq IH]; intros ms; simpl; [repeat split|].
  destruct (IH (dispatch_throttle_release (get_dispatch_throttle_size e.2) ms))
    as (-> & -> & -> & ->).
  repeat split.
Qed.

(** What [if (delay_thread) delay_thread->discard()] changes: the delay
    queue and the dispatch throttle. *)
Lemma discard_delayed_frame (p : Pipe) (ms : Messenger) :
  let p' := (discard_delayed p ms).1 in
  let ms' := (discard_delayed p ms).2 in
  delay_thread p' = (fun _ => []) <$> delay_thread p /\
  rank_pipe ms' = rank_pipe ms /\
  connections ms' = connections ms /\
  notices ms' = notices ms /\
  state p' = state p /\ sd_shutdown p' = sd_shutdown p /\
  connect_seq p' = connect_seq p /\ backoff p' = backoff p /\
  cond_waits p' = cond_waits p /\ self p' = self p /\
  connection_state p' = connection_state p /\ peer_addr p' = peer_addr p.
Proof.
  unfold discard_delayed. destruct (delay_thread p) as [dq|] eqn:Hdq; simpl.
  - destruct (delay_discard_frame dq ms) as (-> & -> & -> & _).
    repeat split.
  - rewrite Hdq. repeat split.
Qed.

(** C5: a fault on a lossy Pipe that is not CONNECTING (and not already
    CLOSED or CLOSING) is terminal. The Pipe is stopped (state CLOSED,
    socket shut down); its registry entry is removed; the delay queue,
    [out_q] and [sent] are emptied; the Connection no longer refers to the
    Pipe; exactly one notice, a reset for its Connection, is queued for
    the application; no reconnection is started ([connect_seq] and
    [backoff] are untouched and nothing is waited for); and any later
    fault only signals the condition variable. *)
Theorem fault_lossy_terminal (conf : Config) (onread : bool)
  (p : Pipe) (ms : Messenger) :
  lossy (policy p) = true ->
  state p <> STATE_CONNECTING -> state p <> STATE_CLOSED ->
  state p <> STATE_CLOSING ->
  let p' := (fault conf onread p ms).1 in
  let ms' := (fault conf onread p ms).2 in
  state p' = STATE_CLOSED /\ sd_shutdown p' = true /\
  rank_pipe ms' !! peer_addr p <> Some (self p) /\
  (forall a, a <> peer_addr p -> rank_pipe ms' !! a = rank_pipe ms !! a) /\
  delay_thread p' = (fun _ => []) <$> delay_thread p /\
  out_q p' = ∅ /\ sent p' = [] /\
  (forall c, connections ms' !! connection_state p = Some c ->
             pipe c <> Some (self p)) /\
  notices ms' = notices ms ++ [queue_reset (connection_state p)] /\
  connect_seq p' = connect_seq p /\ backoff p' = backoff p /\
  cond_waits p' = cond_waits p /\
  (forall onread', fault conf onread' p' ms' = (cond_Signal p', ms')).
Proof.
  intros Hl Hc Hcl Hcg p' ms'.
  assert (Hf : fault conf onread p ms =
    let p1 := stop (shutdown_socket (cond_Signal p)) in
    let ms1 := discard_queue (conn_id p1) (unregister_pipe p1 ms) in
    let p2 := discard_out_queue (discard_delayed p1 ms1).1 in
    (p2, queue_notice (queue_reset (connection_state p2))
           (clear_pipe (connection_state p2) (self p2)
              (discard_delayed p1 ms1).2))).
  { unfold fault. decide_state.
    rewrite andb_false_r. simpl orb. cbv iota.
    replace (lossy (policy (shutdown_socket (cond_Signal p)))) with true
      by (symmetry; exact Hl).
    simpl andb. cbv iota.
    destruct (discard_delayed _ _) as [p2 ms2]. reflexivity. }
  subst p' ms'. rewrite Hf. clear Hf. cbv zeta.
  set (p1 := stop (shutdown_socket (cond_Signal p))).
  set (ms1 := discard_queue (conn_id p1) (unregister_pipe p1 ms)).
  destruct (discard_delayed_frame p1 ms1)
    as (Hd & Hr & Hcn & Hn & Hrest).
  destruct Hrest as (Hst & Hsd & Hcs & Hbk & Hw & Hself & Hcon & Hpeer).
  destruct (discard_delayed p1 ms1) as [p2 ms2]. simpl in *.
  assert (Hun : notices (unregister_pipe p1 ms) = notices ms).
  { unfold unregister_pipe. case_bool_decide; reflexivity. }
  subst p1. repeat split; try assumption.
  - rewrite Hr. unfold unregister_pipe. simpl.
    case_bool_decide as Hin; simpl; [|exact Hin].
    rewrite lookup_delete_eq. discriminate.
  - intros a Ha. rewrite Hr. unfold unregister_pipe. simpl.
    case_bool_decide as Hin; simpl; [|reflexivity].
    rewrite lookup_delete_ne by congruence. reflexivity.
  - intros c. rewrite Hcon, Hself. rewrite lookup_alter_eq.
    destruct (connections ms2 !! connection_state p) as [c0|]; simpl;
      [|discriminate].
    intros [= <-]. case_bool_decide as Hp; simpl; [discriminate|exact Hp].
  - rewrite Hcon, Hn, Hun. reflexivity.
  - intros onread'. apply fault_closed. simpl. exact Hst.
Qed.

(** *** Backoff *)

Lemma requeue_sent_out_q (p : Pipe) :
  out_q (requeue_sent p) =
    match sent p with
    | [] => out_q p
    | _ :: _ =>
      <[CEPH_MSG_PRIO_HIGHEST :=
          sent p ++ bucket (out_q p) CEPH_MSG_PRIO_HIGHEST]> (out_q p)
    end.
Proof.
  unfold requeue_sent. destruct (sent p) as [|m s] eqn:Hs; [reflexivity|].
  rewrite <- Hs, requeue_loop_spec, rev_involutive. reflexivity.
Qed.

Lemma requeue_sent_frame (p : Pipe) :
  let p' := requeue_sent p in
  sent p' = [] /\ state p' = state p /\ policy p' = policy p /\
  keepalive p' = keepalive p /\ backoff p' = backoff p /\
  cond_waits p' = cond_waits p /\ connect_seq p' = connect_seq p /\
  in_seq p' = in_seq p.
Proof.
  unfold requeue_sent. destruct (sent p) as [|m s] eqn:Hs.
  - simpl. rewrite Hs. repeat split.
  - destruct (requeue_loop _ _ _). repeat split.
Qed.

Lemma goes_to_standby_congr (p q : Pipe) :
  policy p = policy q -> out_q p = out_q q -> sent p = sent q ->
  keepalive p = keepalive q -> goes_to_standby p = goes_to_standby q.
Proof.
  intros Hp Ho Hs Hk. unfold goes_to_standby, is_queued.
  rewrite !requeue_sent_out_q.
  destruct (requeue_sent_frame p) as (_ & _ & _ & -> & _).
  destruct (requeue_sent_frame q) as (_ & _ & _ & -> & _).
  rewrite Hp, Ho, Hs, Hk. reflexivity.
Qed.

Lemma goes_to_standby_requeued (p : Pipe) :
  goes_to_standby (requeue_sent p) = goes_to_standby p.
Proof.
  unfold goes_to_standby.
  destruct (requeue_sent_frame p) as (Hs & _ & -> & _).
  f_equal. f_equal. f_equal. unfold requeue_sent at 1. rewrite Hs. reflexivity.
Qed.

Lemma flush_delayed_frame (p : Pipe) (ms : Messenger) :
  let p' := (flush_delayed p ms).1 in
  policy p' = policy p /\ out_q p' = out_q p /\ sent p' = sent p /\
  keepalive p' = keepalive p /\ state p' = state p /\
  backoff p' = backoff p /\ cond_waits p' = cond_waits p /\
  out_seq p' = out_seq p /\ in_seq p' = in_seq p.
Proof.
  unfold flush_delayed. destruct (delay_thread p); repeat split.
Qed.

(** One fault of the writer on a Pipe that is CONNECTING and is not sent
    to STANDBY. *)
Lemma fault_connecting (conf : Config) (p : Pipe) (ms : Messenger) :
  state p = STATE_CONNECTING -> goes_to_standby p = false ->
  let p' := (fault conf false p ms).1 in
  state p' = STATE_CONNECTING /\ goes_to_standby p' = false /\
  backoff p' =
    (if backoff p =? 0 then ms_initial_backoff conf
     else Z.min (backoff p + backoff p) (ms_max_backoff conf)) /\
  cond_waits p' =
    cond_waits p ++ (if backoff p =? 0 then [] else [backoff p]).
Proof.
  intros Hs Hg. unfold fault. decide_state.
  simpl andb. simpl orb. cbv iota. rewrite andb_false_r.
  set (p0 := shutdown_socket (cond_Signal p)).
  destruct (flush_delayed_frame p0 ms)
    as (Hpol & Hq & Hsent & Hka & Hst & Hb & Hw & _).
  destruct (flush_delayed p0 ms) as [p1 ms1]. simpl in Hpol, Hq, Hsent, Hka, Hst, Hb, Hw.
  destruct (requeue_sent_frame p1)
    as (Hs2 & Hst2 & Hpol2 & Hka2 & Hb2 & Hw2 & _).
  assert (Hg1 : goes_to_standby p1 = false).
  { rewrite <- Hg. apply goes_to_standby_congr; assumption. }
  assert (Hg2 : goes_to_standby (requeue_sent p1) = false).
  { rewrite goes_to_standby_requeued. exact Hg1. }
  replace (standby (policy (requeue_sent p1)) &&
           negb (is_queued (requeue_sent p1))) with false.
  2:{ rewrite <- Hg1. unfold goes_to_standby. rewrite Hpol2. reflexivity. }
  rewrite (state_is_true STATE_CONNECTING (requeue_sent p1))
    by (rewrite Hst2, Hst; exact Hs).
  simpl negb. cbv iota.
  rewrite Hb2, Hb. change (backoff p0) with (backoff p).
  destruct (backoff p =? 0) eqn:Hz.
  - simpl. repeat split.
    + rewrite Hst2, Hst. exact Hs.
    + rewrite <- Hg2. apply goes_to_standby_congr; reflexivity.
    + rewrite app_nil_r, Hw2, Hw. reflexivity.
  - simpl. repeat split.
    + rewrite Hst2, Hst. exact Hs.
    + rewrite <- Hg2. apply goes_to_standby_congr; reflexivity.
    + rewrite Hb2, Hb. change (backoff p0) with (backoff p).
      destruct (Z.ltb_spec (ms_max_backoff conf) (backoff p + backoff p)); lia.
    + rewrite Hw2, Hw. reflexivity.
Qed.

Lemma double_clamp (b M : Z) (j : nat) :
  0 < b <= M ->
  Z.min (2 ^ Z.of_nat j * Z.min (b + b) M) M =
  Z.min (2 ^ Z.of_nat (S j) * b) M.
Proof.
  intros Hb. rewrite Nat2Z.inj_succ, Z.pow_succ_r by lia.
  assert (0 < 2 ^ Z.of_nat j) by (apply Z.pow_pos_nonneg; lia).
  destruct (Z.min_spec (b + b) M) as [[H1 ->]|[H1 ->]]; [f_equal; lia|].
  rewrite !Z.min_r; nia.
Qed.

Lemma faults_backoff (conf : Config) (n : nat) (p : Pipe) (ms : Messenger) :
  state p = STATE_CONNECTING -> goes_to_standby p = false ->
  0 < backoff p <= ms_max_backoff conf ->
  let p' := (faults conf false n p ms).1 in
  state p' = STATE_CONNECTING /\
  backoff p' = Z.min (2 ^ Z.of_nat n * backoff p) (ms_max_backoff conf) /\
  cond_waits p' =
    cond_waits p ++
    map (fun j => Z.min (2 ^ Z.of_nat j * backoff p) (ms_max_backoff conf))
        (seq 0 n).
Proof.
  revert p ms. induction n as [|n IH]; intros p ms Hs Hg Hb.
  - simpl. repeat split; [exact Hs|lia|rewrite app_nil_r; reflexivity].
  - simpl faults.
    destruct (fault_connecting conf p ms Hs Hg) as (Hs1 & Hg1 & Hb1 & Hw1).
    destruct (fault conf false p ms) as [p1 ms1]. simpl in Hs1, Hg1, Hb1, Hw1.
    destruct (Z.eqb_spec (backoff p) 0) as [Hz|Hz]; [lia|].
    destruct (IH p1 ms1 Hs1 Hg1) as (Hs2 & Hb2 & Hw2); [rewrite Hb1; lia|].
    split; [exact Hs2|]. split.
    + rewrite Hb2, Hb1. apply double_clamp, Hb.
    + rewrite Hw2, Hw1, <- app_assoc. f_equal.
      change (seq 0 (S n)) with (0%nat :: seq 1 n).
      rewrite <- seq_shift, map_cons, map_map. simpl app. f_equal.
      * change (2 ^ Z.of_nat 0) with 1. rewrite Z.min_l; lia.
      * apply map_ext. intros j. rewrite Hb1. apply double_clamp, Hb.
Qed.

(** C6, as the code has it: on a Pipe in state CONNECTING, a fault raised
    with [onread = false] that is not sent to STANDBY (no standby policy,
    or something queued) sets a zero backoff to [ms_initial_backoff]
    without waiting, and otherwise waits for the current backoff, then
    doubles it and clamps it at [ms_max_backoff]. Hence, starting from a
    zero backoff and with 0 < ms_initial_backoff <= ms_max_backoff, after
    [k + 1] such faults in a row the Pipe is still CONNECTING, the waits
    were initial, 2 initial, 4 initial, ... each clamped at the maximum, the
    backoff is min(2^k initial, max), and it never exceeds the maximum. *)
Theorem fault_backoff_doubles (conf : Config) (p : Pipe) (ms : Messenger)
  (k : nat) :
  state p = STATE_CONNECTING -> goes_to_standby p = false ->
  (backoff p = 0 ->
     backoff (fault conf false p ms).1 = ms_initial_backoff conf /\
     cond_waits (fault conf false p ms).1 = cond_waits p) /\
  (backoff p <> 0 ->
     backoff (fault conf false p ms).1 =
       Z.min (backoff p + backoff p) (ms_max_backoff conf) /\
     cond_waits (fault conf false p ms).1 = cond_waits p ++ [backoff p]) /\
  (backoff p = 0 ->
   0 < ms_initial_backoff conf <= ms_max_backoff conf ->
   let p' := (faults conf false (S k) p ms).1 in
   state p' = STATE_CONNECTING /\
   backoff p' =
     Z.min (2 ^ Z.of_nat k * ms_initial_backoff conf) (ms_max_backoff conf) /\
   cond_waits p' =
     cond_waits p ++
     map (fun j => Z.min (2 ^ Z.of_nat j * ms_initial_backoff conf)
                         (ms_max_backoff conf))
         (seq 0 k) /\
   backoff p' <= ms_max_backoff conf).
Proof.
  intros Hs Hg.
  destruct (fault_connecting conf p ms Hs Hg) as (Hs1 & Hg1 & Hb1 & Hw1).
  split; [|split].
  - intros Hz. rewrite Hb1, Hw1, Hz. simpl. rewrite app_nil_r. tauto.
  - intros Hz. rewrite Hb1, Hw1.
    destruct (Z.eqb_spec (backoff p) 0); [contradiction|tauto].
  - intros Hz Hconf. simpl faults.
    destruct (fault conf false p ms) as [p1 ms1]. simpl in Hs1, Hg1, Hb1, Hw1.
    rewrite Hz in Hb1, Hw1. simpl in Hb1, Hw1. rewrite app_nil_r in Hw1.
    destruct (faults_backoff conf k p1 ms1 Hs1 Hg1) as (Hs2 & Hb2 & Hw2);
      [rewrite Hb1; exact Hconf|].
    rewrite Hb1 in Hb2, Hw2. rewrite Hw1 in Hw2.
    repeat split; try assumption. rewrite Hb2. lia.
Qed.

End FaultFacts.

Section FaultExamples.
Import Pipe Samples.
#[local] Existing Instance ceph_headers.

Lemma fault_onread_connecting_noop_witness :
  fault backoff_conf true connecting new_messenger =
    (cond_Signal connecting, new_messenger).
Proof.
  destruct (fault_onread_connecting_noop backoff_conf connecting new_messenger)
    as [H _]; [reflexivity|exact H].
Defined.

(** Scenario S5: a lossy Pipe in state OPEN with three queued messages
    faults. *)
Lemma fault_lossy_terminal_witness :
  let p := set_out_q {[127 := [message 0 1; message 0 2; message 0 3]]}
             lossy_existing in
  let r := fault backoff_conf false p (registry_with p) in
  state r.1 = STATE_CLOSED /\ out_q r.1 = ∅ /\ sent r.1 = [] /\
  rank_pipe r.2 !! addrA <> Some 1%nat /\
  notices r.2 = [queue_reset 1] /\
  connect_seq r.1 = 0.
Proof.
  intros p r.
  destruct (fault_lossy_terminal backoff_conf false p (registry_with p))
    as (H1 & _ & H3 & _ & _ & H6 & H7 & _ & H9 & H10 & _);
    [reflexivity|discriminate|discriminate|discriminate|].
  repeat split; assumption.
Defined.

Lemma fault_backoff_doubles_witness :
  let p' := (faults backoff_conf false 8 connecting new_messenger).1 in
  state p' = STATE_CONNECTING /\
  backoff p' = 15000000000 /\
  cond_waits p' =
    [200000000; 400000000; 800000000; 1600000000; 3200000000; 6400000000;
     12800000000].
Proof.
  destruct (fault_backoff_doubles backoff_conf connecting new_messenger 7)
    as (_ & _ & H); [reflexivity|vm_compute; reflexivity|].
  destruct H as (Hs & Hb & Hw & _); [reflexivity|simpl; lia|].
  cbv zeta. split; [exact Hs|]. split.
  - rewrite Hb. reflexivity.
  - rewrite Hw. reflexivity.
Defined.

(** Faults taken in state CONNECTING that do not set the backoff as
    stated: with the standby policy and nothing queued the Pipe goes to
    STANDBY and its backoff stays zero; a fault reported by the reader
    returns at once and leaves the backoff at zero; on a Pipe that starts
    with a backoff of 5 s the first fault waits 5 s and doubles it instead
    of setting the initial backoff; and with an initial backoff above the
    maximum the first fault leaves the backoff above the maximum. *)
Lemma fault_connecting_without_backoff :
  (let p' := (fault backoff_conf false connecting_idle new_messenger).1 in
   state p' = STATE_STANDBY /\ backoff p' = 0) /\
  backoff (fault backoff_conf true connecting new_messenger).1 = 0 /\
  (let p' := (fault backoff_conf false connecting_backed_off new_messenger).1 in
   backoff p' = 10000000000 /\ cond_waits p' = [5000000000]) /\
  (let p' := (fault inverted_conf false connecting new_messenger).1 in
   state p' = STATE_CONNECTING /\
   backoff p' = 20000000000 /\ ms_max_backoff inverted_conf < backoff p').
Proof. vm_compute. repeat split. Qed.

End FaultExamples.

(** ** Pipe::read_message and Pipe::reader *)

Section ReaderFacts.
Import Pipe.
Context {hdr : Headers}.

(** Releasing what was acquired restores the Pipe's policy throttlers and
    the dispatch throttler. *)
Lemma out_dethrottle_acquire (size : Z) (p : Pipe) (ms : Messenger) :
  out_dethrottle size (acquire_throttles size p ms).1
                      (acquire_throttles size p ms).2 = (p, ms).
Proof.
  unfold out_dethrottle, acquire_throttles.
  destruct p as [? ? ? ? [? ? ? ? ? ? tb tm] ? ? ? ? ? ? ? ? ? ? ? ? ? ? ? ?].
  destruct ms as [? ? ? ? ? [cur mx]].
  destruct tb as [[cb mb]|], tm as [[cm mm]|];
    destruct (size =? 0); simpl; unfold dispatch_throttle_release; simpl;
    unfold throttle_put, throttle_get; simpl;
    rewrite ?Z.add_simpl_r; reflexivity.
Qed.

(** [read_message] changes nothing of the Pipe but its policy's
    throttlers, and nothing of the messenger but the dispatch throttler. *)
Lemma acquire_throttles_frame (size : Z) (p : Pipe) (ms : Messenger) :
  let p' := (acquire_throttles size p ms).1 in
  let ms' := (acquire_throttles size p ms).2 in
  state p' = state p /\ in_seq p' = in_seq p /\
  delay_thread p' = delay_thread p /\ conn_id p' = conn_id p /\
  session_security p' = session_security p /\
  dispatch_queue ms' = dispatch_queue ms.
Proof.
  unfold acquire_throttles. destruct (size =? 0); repeat split.
Qed.

Lemma out_dethrottle_frame (size : Z) (p : Pipe) (ms : Messenger) :
  let p' := (out_dethrottle size p ms).1 in
  let ms' := (out_dethrottle size p ms).2 in
  state p' = state p /\ in_seq p' = in_seq p /\
  delay_thread p' = delay_thread p /\ conn_id p' = conn_id p /\
  dispatch_queue ms' = dispatch_queue ms.
Proof.
  unfold out_dethrottle. destruct (size =? 0); repeat split.
Qed.

Lemma read_message_frame (w : wire) (p : Pipe) (ms : Messenger) :
  let '(r, om, p', ms') := read_message w p ms in
  state p' = state p /\ in_seq p' = in_seq p /\
  delay_thread p' = delay_thread p /\ conn_id p' = conn_id p /\
  dispatch_queue ms' = dispatch_queue ms.
Proof.
  unfold read_message.
  destruct (w_header w) as [header|]; [|repeat split].
  destruct (negb (w_header_crc w =? crc header)); [repeat split|].
  set (size := wrap32 _).
  destruct (acquire_throttles_frame size p ms) as (H1 & H2 & H3 & H4 & _ & H5).
  destruct (acquire_throttles size p ms) as [p1 ms1]. simpl in H1, H2, H3, H4, H5.
  assert (Hd : forall ret : Z,
    let '(r, om, p', ms') :=
      (let '(p0, ms0) := out_dethrottle size p1 ms1 in
       (ret, @None Message, p0, ms0)) in
    state p' = state p /\ in_seq p' = in_seq p /\
    delay_thread p' = delay_thread p /\ conn_id p' = conn_id p /\
    dispatch_queue ms' = dispatch_queue ms).
  { intros ret.
    destruct (out_dethrottle_frame size p1 ms1) as (G1 & G2 & G3 & G4 & G5).
    destruct (out_dethrottle size p1 ms1) as [p2 ms2]. simpl in *.
    repeat split; congruence. }
  repeat (match goal with
          | |- context [if ?b then _ else _] => destruct b
          | |- context [match w_footer_flags w with _ => _ end] =>
            destruct (w_footer_flags w)
          | |- context [match w_decoded w with _ => _ end] =>
            destruct (w_decoded w)
          end; try apply Hd).
  repeat split; assumption.
Qed.

(** C7: when the footer of an inbound message lacks the COMPLETE flag,
    [read_message] goes to [out_dethrottle] with return value 0 and stores
    no message; what it releases there is what it acquired (one unit of the
    policy's message throttler, the message size of the policy's byte
    throttler and of the dispatch throttler), so the Pipe and the messenger
    are as before the call; and the reader's turn for it changes nothing:
    [in_seq] and the dispatch queue stay as they are. *)
Theorem read_message_aborted (conf : Config) (w : wire) (release : Z)
  (p : Pipe) (ms : Messenger) (header : ceph_msg_header) (flags : Z) :
  aborted_on_wire w header flags ->
  let size :=
    wrap32 (front_len header + middle_len header + data_len header) in
  let acquired := acquire_throttles size p ms in
  read_message w p ms =
    (0, None, (out_dethrottle size acquired.1 acquired.2).1,
              (out_dethrottle size acquired.1 acquired.2).2) /\
  read_message w p ms = (0, None, p, ms) /\
  (state p = STATE_OPEN ->
   reader conf (TAG_MSG w release) p ms = (p, ms) /\
   in_seq (reader conf (TAG_MSG w release) p ms).1 = in_seq p /\
   dispatch_queue (reader conf (TAG_MSG w release) p ms).2 =
     dispatch_queue ms).
Proof.
  intros (Hh & Hcrc & Hf & Hm & Hd & Hfl & Hab) size acquired.
  assert (Hr : read_message w p ms =
    (0, None, (out_dethrottle size acquired.1 acquired.2).1,
              (out_dethrottle size acquired.1 acquired.2).2)).
  { unfold read_message. rewrite Hh, Hcrc, Z.eqb_refl. simpl negb. cbv iota.
    fold size. fold acquired. destruct acquired as [p1 ms1]. simpl fst. simpl snd.
    replace (negb (front_len header =? 0) && negb (w_front w)) with false
      by (destruct Hf as [->| ->]; [reflexivity|apply eq_sym, andb_false_r]).
    replace (negb (middle_len header =? 0) && negb (w_middle w)) with false
      by (destruct Hm as [->| ->]; [reflexivity|apply eq_sym, andb_false_r]).
    replace (negb (data_len header =? 0) && negb (w_data w)) with false
      by (destruct Hd as [->| ->]; [reflexivity|apply eq_sym, andb_false_r]).
    rewrite Hfl, Hab. simpl. destruct (out_dethrottle size p1 ms1). reflexivity. }
  assert (Hr' : read_message w p ms = (0, None, p, ms)).
  { rewrite Hr. unfold acquired. rewrite out_dethrottle_acquire. reflexivity. }
  split; [exact Hr|]. split; [exact Hr'|].
  intros Hs.
  assert (reader conf (TAG_MSG w release) p ms = (p, ms)) as ->.
  { unfold reader. decide_state.
    simpl orb. cbv iota. rewrite Hr'. reflexivity. }
  repeat split.
Qed.

Lemma discard_delayed_in_seq (p : Pipe) (ms : Messenger) :
  in_seq (discard_delayed p ms).1 = in_seq p.
Proof. unfold discard_delayed. destruct (delay_thread p); reflexivity. Qed.

Lemma fault_in_seq (conf : Config) (onread : bool) (p : Pipe) (ms : Messenger) :
  in_seq (fault conf onread p ms).1 = in_seq p.
Proof.
  unfold fault.
  destruct (onread && _); [reflexivity|].
  destruct (_ || _); [reflexivity|].
  destruct (lossy _ && _).
  - set (p1 := stop _). set (ms1 := discard_queue _ _).
    pose proof (discard_delayed_in_seq p1 ms1) as H.
    destruct (discard_delayed p1 ms1) as [p2 ms2]. simpl in *. exact H.
  - set (p0 := shutdown_socket _).
    destruct (flush_delayed_frame p0 ms) as (_ & _ & _ & _ & _ & _ & _ & _ & H1).
    destruct (flush_delayed p0 ms) as [p1 ms1]. simpl in H1.
    destruct (requeue_sent_frame p1) as (_ & _ & _ & _ & _ & _ & _ & H2).
    repeat (match goal with
            | |- context [if ?b then _ else _] => destruct b
            end; simpl); rewrite H2; exact H1.
Qed.

Lemma handle_ack_in_seq (seq : Z) (p : Pipe) :
  in_seq (handle_ack seq p) = in_seq p.
Proof.
  unfold handle_ack. simpl.
  destruct (trim_sent seq (sent p)); [|reflexivity].
  destruct (close_on_empty p); reflexivity.
Qed.

(** [in_seq] never decreases in a turn of the reader. *)
Lemma reader_in_seq_monotone (conf : Config) (i : reader_input)
  (p : Pipe) (ms : Messenger) :
  in_seq p <= in_seq (reader conf i p ms).1.
Proof.
  unfold reader.
  destruct (_ || _); [simpl; lia|].
  destruct (state_is STATE_STANDBY p); [simpl; lia|].
  destruct i as [| |rc seq|w release| |].
  - rewrite fault_in_seq. lia.
  - simpl. lia.
  - destruct (rc <? 0); [rewrite fault_in_seq; lia|].
    destruct (negb _); simpl; [rewrite handle_ack_in_seq|]; lia.
  - pose proof (read_message_frame w p ms) as Hf.
    destruct (read_message w p ms) as [[[r om] p1] ms1].
    destruct Hf as (_ & Hin & _).
    destruct om as [m|].
    + destruct (_ || _); [simpl; lia|].
      destruct (Z.leb_spec (get_seq m) (in_seq p1)); [simpl; lia|].
      simpl. destruct (delay_thread p1); simpl; lia.
    + destruct (r <? 0); [rewrite fault_in_seq|simpl]; lia.
  - destruct (state_is STATE_CLOSING p); simpl; lia.
  - rewrite fault_in_seq. lia.
Qed.

(** C4: for a message [m] that [read_message] hands to the reader of a
    Pipe in state OPEN: when [m]'s seq is at most [in_seq] the message is
    dropped ([in_seq], the dispatch queue and the delay queue are as
    before); otherwise [in_seq] becomes [m]'s seq and [m] goes to the back
    of the dispatch queue under the Pipe's [conn_id], or, on a Pipe with a
    delay thread, to the back of its delay queue. And no turn of the reader,
    whatever it reads, decreases [in_seq]. *)
Theorem reader_drops_old_messages (conf : Config) (w : wire) (release : Z)
  (p : Pipe) (ms : Messenger) (r : Z) (m : Message)
  (p1 : Pipe) (ms1 : Messenger) :
  state p = STATE_OPEN ->
  read_message w p ms = (r, Some m, p1, ms1) ->
  let p' := (reader conf (TAG_MSG w release) p ms).1 in
  let ms' := (reader conf (TAG_MSG w release) p ms).2 in
  (get_seq m <= in_seq p ->
     in_seq p' = in_seq p /\ dispatch_queue ms' = dispatch_queue ms /\
     delay_thread p' = delay_thread p) /\
  (in_seq p < get_seq m ->
     in_seq p' = get_seq m /\
     match delay_thread p with
     | None =>
       dispatch_queue ms' = dispatch_queue ms ++ [(conn_id p, m)] /\
       delay_thread p' = None
     | Some dq =>
       delay_thread p' = Some (dq ++ [(release, m)]) /\
       dispatch_queue ms' = dispatch_queue ms
     end) /\
  (forall i q qs, in_seq q <= in_seq (reader conf i q qs).1).
Proof.
  intros Hs Hr p' ms'.
  pose proof (read_message_frame w p ms) as Hf. rewrite Hr in Hf.
  destruct Hf as (Hst & Hin & Hdt & Hid & Hdq).
  assert (Hrd : reader conf (TAG_MSG w release) p ms =
    if get_seq m <=? in_seq p then
      (p1, dispatch_throttle_release (get_dispatch_throttle_size m) ms1)
    else
      let p2 := cond_Signal (set_in_seq (get_seq m) p1) in
      match delay_thread p2 with
      | Some dq => (set_delay_thread (Some (dq ++ [(release, m)])) p2, ms1)
      | None => (p2, enqueue m (conn_id p2) ms1)
      end).
  { unfold reader. decide_state.
    simpl orb. cbv iota. rewrite Hr. decide_state.
    simpl orb. cbv iota. rewrite Hin. reflexivity. }
  subst p' ms'. rewrite Hrd. clear Hrd.
  split; [|split].
  - intros Hle. destruct (Z.leb_spec (get_seq m) (in_seq p)); [|lia].
    simpl. repeat split; assumption.
  - intros Hgt. destruct (Z.leb_spec (get_seq m) (in_seq p)); [lia|].
    cbv zeta. change (delay_thread (cond_Signal (set_in_seq (get_seq m) p1)))
      with (delay_thread p1).
    rewrite <- Hdt, <- Hid, <- Hdq.
    destruct (delay_thread p1) as [dq|] eqn:Hd1; simpl; repeat split.
    exact Hd1.
  - intros i q qs. apply reader_in_seq_monotone.
Qed.

End ReaderFacts.

Section ReaderExamples.
Import Pipe Samples.
#[local] Existing Instance ceph_headers.

Lemma read_message_aborted_witness :
  read_message aborted_frame open_throttled new_messenger =
    (0, None, open_throttled, new_messenger) /\
  policy (acquire_throttles 30 open_throttled new_messenger).1 =
    Pol false false false false 0 0 (Some (Thr 30 1000)) (Some (Thr 1 10)) /\
  dispatch_throttler (acquire_throttles 30 open_throttled new_messenger).2 =
    Thr 30 100 /\
  in_seq (reader backoff_conf (TAG_MSG aborted_frame 0) open_throttled
            new_messenger).1 = 7 /\
  dispatch_queue (reader backoff_conf (TAG_MSG aborted_frame 0) open_throttled
                    new_messenger).2 = [].
Proof.
  destruct (read_message_aborted backoff_conf aborted_frame 0 open_throttled
              new_messenger (Hdr 10 0 20 99) 0) as (_ & Hr & Hrd).
  - unfold aborted_on_wire. simpl. repeat split; auto.
  - destruct Hrd as (_ & Hin & Hdq); [reflexivity|].
    split; [exact Hr|]. split; [reflexivity|]. split; [reflexivity|].
    split; [exact Hin|exact Hdq].
Defined.

(** Scenario S2: a replayed frame with seq 5 after [in_seq] = 7 is
    discarded. *)
Lemma reader_drops_old_messages_witness :
  in_seq (reader backoff_conf (TAG_MSG (frame 5) 0) open_in_7 new_messenger).1
    = 7 /\
  dispatch_queue
    (reader backoff_conf (TAG_MSG (frame 5) 0) open_in_7 new_messenger).2
    = [].
Proof.
  destruct (reader_drops_old_messages backoff_conf (frame 5) 0 open_in_7
              new_messenger 0 (Msg 5 127 10 1)
              (acquire_throttles 10 open_in_7 new_messenger).1
              (acquire_throttles 10 open_in_7 new_messenger).2)
    as (Hold & _ & _); [reflexivity|reflexivity|].
  destruct Hold as (Hin & Hdq & _); [simpl; lia|].
  split; [exact Hin|exact Hdq].
Defined.

End ReaderExamples.

(** ** Pipe::accept *)

Section AcceptFacts.
Import Pipe.
Context {hdr : Headers}.

(** *** The order on addresses *)

Lemma bytes_compare_antisym x y :
  bytes_compare y x = CompOpp (bytes_compare x y).
Proof.
  revert y. induction x as [|a x IH]; intros [|b y]; simpl; try reflexivity.
  rewrite (Z.compare_antisym a b). destruct (a ?= b); simpl; auto.
Qed.

Lemma bytes_compare_eq x y : bytes_compare x y = Eq -> x = y.
Proof.
  revert y. induction x as [|a x IH]; intros [|b y]; simpl;
    try discriminate; [reflexivity|].
  destruct (Z.compare_spec a b) as [->| |]; try discriminate.
  intros H. f_equal. apply IH, H.
Qed.

Lemma addr_compare_antisym a b :
  addr_compare b a = CompOpp (addr_compare a b).
Proof.
  unfold addr_compare.
  rewrite (bytes_compare_antisym (addr_bytes a) (addr_bytes b)).
  destruct (bytes_compare (addr_bytes a) (addr_bytes b)); simpl; try reflexivity.
  rewrite (Z.compare_antisym (get_port a) (get_port b)).
  destruct (get_port a ?= get_port b); simpl; try reflexivity.
  apply Z.compare_antisym.
Qed.

Lemma addr_compare_eq a b : addr_compare a b = Eq -> a = b.
Proof.
  unfold addr_compare. destruct a as [xa pa na], b as [xb pb nb]. simpl.
  destruct (bytes_compare xa xb) eqn:Hx; try discriminate.
  destruct (Z.compare_spec pa pb) as [->| |]; try discriminate.
  destruct (Z.compare_spec na nb) as [->| |]; try discriminate.
  intros _. f_equal. apply bytes_compare_eq, Hx.
Qed.

(** Of two different addresses exactly one is less than the other. *)
Lemma addr_lt_total a b : a <> b -> addr_lt b a = negb (addr_lt a b).
Proof.
  intros Hne. unfold addr_lt. rewrite (addr_compare_antisym a b).
  destruct (addr_compare a b) eqn:Hc; try reflexivity.
  exfalso. apply Hne, addr_compare_eq, Hc.
Qed.

(** *** The connect race *)

(** What the accepting side does in a connect race. *)
Lemma accept_existing_race (connect : ceph_msg_connect) (this existing : Pipe)
  (rnd : Z) (ms : Messenger) :
  connect_race connect existing -> peer_addr this <> my_addr ms ->
  accept_existing connect this (Some existing) rnd ms =
    if addr_lt (peer_addr this) (my_addr ms) || server (policy existing)
    then (goto_replace, Some existing, ms)
    else (goto_reply (Reply CEPH_MSGR_TAG_WAIT 0 0),
          Some (_send_keepalive existing), ms).
Proof.
  intros (Hl & Hs & Hc & Hg) Hne. unfold accept_existing.
  destruct (Z.ltb_spec (msg_global_seq connect) (peer_global_seq existing));
    [lia|].
  rewrite Hl, Hc.
  replace ((connect_seq existing =? 0) && (0 <? connect_seq existing))
    with false by (symmetry; apply andb_false_iff; lia).
  rewrite Z.ltb_irrefl, Z.eqb_refl.
  decide_state. simpl. rewrite (addr_lt_total _ _ Hne).
  destruct (addr_lt (peer_addr this) (my_addr ms)); simpl; [reflexivity|].
  destruct (server (policy existing)); reflexivity.
Qed.

(** C1, as the code has it. On the accepting side of a connect race the
    existing outgoing attempt is replaced when [peer_addr < my_addr] or
    [existing.policy.server], and otherwise the reply is WAIT and the
    existing outgoing Pipe is kept, with a keepalive queued. Hence, when
    two peers A and B without the server policy race with equal
    connect_seq on reliable Pipes, exactly one outgoing attempt survives,
    and it is the one of the side with the lesser address: that side
    answers WAIT and keeps its attempt, the side with the greater address
    replaces its own. *)
Theorem connect_race_lesser_address_survives
  (toA toB : ceph_msg_connect) (inA outA inB outB : Pipe)
  (rnd : Z) (msA msB : Messenger) :
  connect_race toA outA -> connect_race toB outB ->
  peer_addr inA = my_addr msB -> peer_addr inB = my_addr msA ->
  my_addr msA <> my_addr msB ->
  let atA := accept_existing toA inA (Some outA) rnd msA in
  let atB := accept_existing toB inB (Some outB) rnd msB in
  let wait := goto_reply (Reply CEPH_MSGR_TAG_WAIT 0 0) in
  atA = (if addr_lt (my_addr msB) (my_addr msA) || server (policy outA)
         then (goto_replace, Some outA, msA)
         else (wait, Some (_send_keepalive outA), msA)) /\
  atB = (if addr_lt (my_addr msA) (my_addr msB) || server (policy outB)
         then (goto_replace, Some outB, msB)
         else (wait, Some (_send_keepalive outB), msB)) /\
  (server (policy outA) = false -> server (policy outB) = false ->
   if addr_lt (my_addr msA) (my_addr msB)
   then atA.1.1 = wait /\ atB.1.1 = goto_replace
   else atA.1.1 = goto_replace /\ atB.1.1 = wait).
Proof.
  intros HA HB HpA HpB Hne atA atB wait.
  assert (EA := accept_existing_race toA inA outA rnd msA HA).
  assert (EB := accept_existing_race toB inB outB rnd msB HB).
  rewrite HpA in EA. rewrite HpB in EB.
  specialize (EA ltac:(congruence)). specialize (EB Hne).
  fold atA in EA. fold atB in EB. rewrite EA, EB.
  split; [reflexivity|]. split; [reflexivity|].
  intros -> ->. rewrite !orb_false_r.
  rewrite (addr_lt_total _ _ Hne).
  destruct (addr_lt (my_addr msA) (my_addr msB)); simpl; split; reflexivity.
Qed.

(** *** Replacement *)

Lemma splice_out_q_bucket (mine theirs : gmap Z (list Message)) k :
  bucket (splice_out_q mine theirs) k = bucket theirs k ++ bucket mine k.
Proof.
  unfold splice_out_q. revert k.
  apply (map_fold_weak_ind
    (fun r (m : gmap Z (list Message)) =>
       forall k, bucket r k = bucket m k ++ bucket mine k)).
  - intros k. unfold bucket at 2. rewrite lookup_empty. reflexivity.
  - intros i x m r Hi IH k. destruct (decide (i = k)) as [->|Hne].
    + rewrite !bucket_insert_eq, IH. unfold bucket at 1. rewrite Hi.
      reflexivity.
    + rewrite !bucket_insert_ne by exact Hne. apply IH.
Qed.


Lemma flush_delayed_pipe (p : Pipe) (ms : Messenger) :
  let p' := (flush_delayed p ms).1 in
  let ms' := (flush_delayed p ms).2 in
  conn_id p' = conn_id p /\ connection_state p' = connection_state p /\
  self p' = self p /\ peer_addr p' = peer_addr p /\
  rank_pipe ms' = rank_pipe ms /\ connections ms' = connections ms.
Proof.
  unfold flush_delayed. destruct (delay_thread p) as [dq|]; [|repeat split].
  simpl. unfold delay_flush. generalize (conn_id p) as id. intros id.
  revert ms. induction dq as [|e dq IH]; intros ms; simpl; [repeat split|].
  destruct (IH (enqueue e.2 id ms)) as (_ & _ & _ & _ & -> & ->).
  repeat split.
Qed.

Lemma accept_replace_outbound (connect : ceph_msg_connect)
  (this e : Pipe) (ms : Messenger) :
  lossy (policy e) = false -> uint64 (out_seq e) ->
  let this' := (accept_replace connect this e ms).1.1.1 in
  bucket (out_q this') CEPH_MSG_PRIO_HIGHEST =
    sent e ++ bucket (out_q e) CEPH_MSG_PRIO_HIGHEST ++
    bucket (out_q this) CEPH_MSG_PRIO_HIGHEST /\
  (forall k, k <> CEPH_MSG_PRIO_HIGHEST ->
     bucket (out_q this') k = bucket (out_q e) k ++ bucket (out_q this) k) /\
  out_seq this' = wrap64 (out_seq e - Z.of_nat (length (sent e))) /\
  sent this' = sent this /\
  conn_id this' = conn_id e /\ in_seq this' = in_seq e /\
  delay_thread this' = delay_thread this.
Proof.
  intros Hl Ho this'. subst this'. unfold accept_replace.
  change (lossy (policy (stop e))) with (lossy (policy e)).
  rewrite Hl. simpl negb. cbv iota.
  set (e0 := stop e).
  set (ms0 := reset_pipe _ _ (unregister_pipe e0 ms)).
  destruct (flush_delayed_frame e0 ms0)
    as (_ & Hq & Hsent & _ & _ & _ & _ & Hos & Hin).
  destruct (flush_delayed_pipe e0 ms0) as (Hid & _).
  destruct (flush_delayed e0 ms0) as [e1 ms1].
  simpl in Hq, Hsent, Hos, Hin, Hid.
  set (e2 := set_conn_id (conn_id this) e1).
  assert (Ho2 : uint64 (out_seq e2)) by (simpl; rewrite Hos; exact Ho).
  destruct (requeue_sent_spec e2 Ho2) as (Hb & Hk & _ & Hseq).
  simpl in Hb, Hk, Hseq. rewrite Hq, Hsent in Hb. rewrite Hq in Hk.
  rewrite Hsent, Hos in Hseq.
  assert (Hhigh : bucket (splice_out_q (out_q this) (out_q (requeue_sent e2)))
                    CEPH_MSG_PRIO_HIGHEST =
                  sent e ++ bucket (out_q e) CEPH_MSG_PRIO_HIGHEST ++
                  bucket (out_q this) CEPH_MSG_PRIO_HIGHEST).
  { rewrite splice_out_q_bucket, Hb, <- app_assoc. reflexivity. }
  assert (Hrest : forall k, k <> CEPH_MSG_PRIO_HIGHEST ->
            bucket (splice_out_q (out_q this) (out_q (requeue_sent e2))) k =
            bucket (out_q e) k ++ bucket (out_q this) k).
  { intros k Hk'. rewrite splice_out_q_bucket. f_equal.
    unfold bucket. rewrite Hk by exact Hk'. reflexivity. }
  simpl. fold e2. repeat split; assumption.
Qed.


End AcceptFacts.

Section AcceptExamples.
Import Pipe Samples.
#[local] Existing Instance ceph_headers.

(** Scenario S3 with A the lesser address: A answers WAIT and keeps its
    outgoing attempt, B replaces its own. *)
Lemma connect_race_lesser_address_survives_witness :
  let atA := accept_existing first_connect (pipe_to 2 addrB STATE_ACCEPTING)
               (Some (pipe_to 1 addrB STATE_CONNECTING)) 0 (messenger_at addrA) in
  let atB := accept_existing first_connect (pipe_to 2 addrA STATE_ACCEPTING)
               (Some (pipe_to 1 addrA STATE_CONNECTING)) 0 (messenger_at addrB) in
  atA.1.1 = goto_reply (Reply CEPH_MSGR_TAG_WAIT 0 0) /\
  atB.1.1 = goto_replace.
Proof.
  destruct (connect_race_lesser_address_survives first_connect first_connect
              (pipe_to 2 addrB STATE_ACCEPTING) (pipe_to 1 addrB STATE_CONNECTING)
              (pipe_to 2 addrA STATE_ACCEPTING) (pipe_to 1 addrA STATE_CONNECTING)
              0 (messenger_at addrA) (messenger_at addrB))
    as (_ & _ & H).
  - repeat split; simpl; lia.
  - repeat split; simpl; lia.
  - reflexivity.
  - reflexivity.
  - discriminate.
  - exact (H eq_refl eq_refl).
Defined.

(** Scenario S3: B (10.0.0.2) has the greater address, and it is B's
    outgoing attempt that is replaced, by the Pipe B accepts from A, while
    A's outgoing attempt is kept and survives. *)
Lemma connect_race_greater_address_is_replaced :
  addr_lt addrA addrB = true /\
  (accept_existing first_connect (pipe_to 2 addrA STATE_ACCEPTING)
     (Some (pipe_to 1 addrA STATE_CONNECTING)) 0 (messenger_at addrB)).1.1
    = goto_replace /\
  (accept_existing first_connect (pipe_to 2 addrB STATE_ACCEPTING)
     (Some (pipe_to 1 addrB STATE_CONNECTING)) 0 (messenger_at addrA)).1
    = (goto_reply (Reply CEPH_MSGR_TAG_WAIT 0 0),
       Some (_send_keepalive (pipe_to 1 addrB STATE_CONNECTING))).
Proof. repeat split; vm_compute; reflexivity. Qed.



End AcceptExamples.

(** ** Accepter::bind and Accepter::rebind *)

Section BindFacts.
Import Accepter.

(** The port loop ends in one of three ways: an [rbind] succeeded, on the
    first free port; or every port was skipped, no [rbind] was called and
    [rc] and [errno] are as they were; or every [rbind] failed, and [rc] is
    -1 with the [errno] of a failed [rbind]. *)
Lemma scan_ports_spec (turns : nat) (port hi a1 a2 : Z) (s : socket_calls)
  (rc e lp : Z) :
  hi - port + 1 <= Z.of_nat turns ->
  let r := scan_ports turns port hi a1 a2 s rc e lp in
  (r.1.1 = 0 /\ first_free s port hi a1 a2 r.2) \/
  (r = (rc, e, lp) /\ all_avoided port hi a1 a2) \/
  (r.1.1 = -1 /\
   (exists q, port <= q <= hi /\ q <> a1 /\ q <> a2 /\
              rbind s q = Some r.1.2) /\
   forall q, port <= q <= hi -> q = a1 \/ q = a2 \/ rbind s q <> None).
Proof.
  revert port rc e lp. induction turns as [|n IH]; intros port rc e lp Hn.
  - simpl. right. left. split; [reflexivity|]. intros q Hq. lia.
  - simpl scan_ports. destruct (Z.ltb_spec hi port) as [Hgt|Hle].
    + right. left. split; [reflexivity|]. intros q Hq. lia.
    + destruct ((port =? a1) || (port =? a2)) eqn:Hav.
      * assert (Hp : port = a1 \/ port = a2).
        { apply orb_true_iff in Hav as [E|E]; apply Z.eqb_eq in E; auto. }
        destruct (IH (port + 1) rc e lp ltac:(lia))
          as [[H0 Hf]|[[Hr Hall]|(Hrc & (q0 & Hq0 & Hq1 & Hq2 & Hqe) & Hall)]].
        -- left. split; [exact H0|].
           destruct Hf as (Hr & H1 & H2 & Hb & Hmin).
           repeat split; try assumption; try lia.
           intros q Hq. destruct (Z.eq_dec q port) as [->|Hne].
           ++ destruct Hp; auto.
           ++ apply Hmin. lia.
        -- right. left. split; [exact Hr|]. intros q Hq.
           destruct (Z.eq_dec q port) as [->|Hne]; [exact Hp|].
           apply Hall. lia.
        -- right. right. split; [exact Hrc|]. split.
           ++ exists q0. repeat split; try assumption; lia.
           ++ intros q Hq. destruct (Z.eq_dec q port) as [->|Hne].
              ** destruct Hp; auto.
              ** apply Hall. lia.
      * apply orb_false_iff in Hav as [E1 E2].
        apply Z.eqb_neq in E1, E2.
        destruct (rbind s port) as [e'|] eqn:Hb.
        -- destruct (IH (port + 1) (-1) e' port ltac:(lia))
             as [[H0 Hf]|[[Hr Hall]|(Hrc & (q0 & Hq0 & Hq1 & Hq2 & Hqe) & Hall)]].
           ++ left. split; [exact H0|].
              destruct Hf as (Hr & H1 & H2 & Hb' & Hmin).
              repeat split; try assumption; try lia.
              intros q Hq. destruct (Z.eq_dec q port) as [->|Hne].
              ** right. right. congruence.
              ** apply Hmin. lia.
           ++ right. right. rewrite Hr. simpl. split; [reflexivity|]. split.
              ** exists port. repeat split; try assumption; lia.
              ** intros q Hq. destruct (Z.eq_dec q port) as [->|Hne].
                 --- right. right. congruence.
                 --- destruct (Hall q ltac:(lia)); auto.
           ++ right. right. split; [exact Hrc|]. split.
              ** exists q0. repeat split; try assumption; lia.
              ** intros q Hq. destruct (Z.eq_dec q port) as [->|Hne].
                 --- right. right. congruence.
                 --- apply Hall. lia.
        -- left. simpl. split; [reflexivity|].
           repeat split; try assumption; try lia; intros q Hq; lia.
Qed.

Lemma first_free_unique s lo hi a1 a2 p q :
  first_free s lo hi a1 a2 p -> first_free s lo hi a1 a2 q -> p = q.
Proof.
  intros (Hp & Hp1 & Hp2 & Hpb & Hpm) (Hq & Hq1 & Hq2 & Hqb & Hqm).
  destruct (Z.lt_trichotomy p q) as [Hlt|[Heq|Hgt]]; [|exact Heq|].
  - destruct (Hqm p ltac:(lia)) as [?|[?|?]]; congruence.
  - destruct (Hpm q ltac:(lia)) as [?|[?|?]]; congruence.
Qed.

(** [bind] with no port asked for, once the socket is there: it goes on to
    [rgetsockname] on the first free port; or it returns [-errno] with the
    stale [errno], having called no [rbind]; or it returns [-errno] of a
    failed [rbind]. *)
Lemma bind_any_port (lo hi : Z) (s : socket_calls) (a1 a2 : Z) :
  rsocket s = None ->
  let r := bind lo hi s 0 a1 a2 in
  (exists p, first_free s lo hi a1 a2 p /\ r = bind_listen s p) \/
  (all_avoided lo hi a1 a2 /\ r = BindResult (- stale_errno s) None false) \/
  ((exists q e, lo <= q <= hi /\ q <> a1 /\ q <> a2 /\ rbind s q = Some e /\
                r = BindResult (- e) None false) /\
   forall q, lo <= q <= hi -> q = a1 \/ q = a2 \/ rbind s q <> None).
Proof.
  intros Hs. unfold bind. rewrite Hs. simpl. unfold bind_port_range.
  destruct (scan_ports_spec (Z.to_nat (hi - lo + 1)) lo hi a1 a2 s (-1)
              (stale_errno s) 0 ltac:(lia))
    as [[H0 Hf]|[[Hr Hall]|(Hrc & (q & Hq & Hq1 & Hq2 & Hqe) & Hall)]].
  - destruct (scan_ports _ _ _ _ _ _ _ _ _) as [[rc e] port].
    simpl in H0, Hf. subst rc. simpl. left. exists port. split; [exact Hf|].
    reflexivity.
  - rewrite Hr. simpl. right. left. split; [exact Hall|reflexivity].
  - destruct (scan_ports _ _ _ _ _ _ _ _ _) as [[rc e] port].
    simpl in Hrc, Hqe. subst rc. simpl. right. right. split; [|exact Hall].
    exists q, e. repeat split; try assumption; lia.
Qed.

Lemma bind_listen_spec (s : socket_calls) (p : Z) :
  sets_errno s ->
  let r := bind_listen s p in
  bound_port r = Some p /\
  (bind_rc r = 0 <-> rgetsockname s = None /\ rlisten s = None) /\
  (listening r = true <-> bind_rc r = 0) /\
  bind_rc r <= 0.
Proof.
  intros He. unfold bind_listen.
  destruct (rgetsockname s) as [e|] eqn:Hg.
  - assert (0 < e) by (apply He; auto). simpl.
    repeat split; try discriminate; try lia; intros [? ?]; discriminate.
  - destruct (rlisten s) as [e|] eqn:Hl.
    + assert (0 < e) by (apply He; auto 6). simpl.
      repeat split; try discriminate; try lia; intros [? ?]; discriminate.
    + simpl. repeat split; lia.
Qed.

(** X1: with no port asked for, [bind] returns 0 with the listener bound
    exactly when the socket calls succeed and some port of
    [ms_bind_port_min .. ms_bind_port_max] other than the two avoided ones
    can be bound, and the listener is then on the lowest such port and
    listening. It listens only when it returns 0 with a port bound. When
    the range holds no port other than the avoided ones, no [rbind] is
    called and [bind] returns [-errno] with the stale [errno]: this is the
    only way it returns 0 with nothing bound, which it does when the
    stale [errno] is 0. With a port asked for, [bind] returns 0 exactly
    when it is bound to that port and listening, whatever the ports to
    avoid are. Calls that fail are taken to leave a positive [errno]. *)
Theorem bind_takes_first_free_port (lo hi : Z) (s : socket_calls)
  (bind_port a1 a2 : Z) :
  sets_errno s ->
  let r := bind lo hi s 0 a1 a2 in
  let r' := bind lo hi s bind_port a1 a2 in
  (forall p,
     bind_rc r = 0 /\ bound_port r = Some p <->
     rsocket s = None /\ rgetsockname s = None /\ rlisten s = None /\
     first_free s lo hi a1 a2 p) /\
  (forall p, bound_port r = Some p -> first_free s lo hi a1 a2 p) /\
  (listening r = true <-> bind_rc r = 0 /\ bound_port r <> None) /\
  (bind_rc r = 0 -> bound_port r = None ->
   rsocket s = None /\ all_avoided lo hi a1 a2 /\ stale_errno s = 0) /\
  (rsocket s = None -> all_avoided lo hi a1 a2 ->
   r = BindResult (- stale_errno s) None false) /\
  (bind_port <> 0 ->
   (bind_rc r' = 0 <-> bound_port r' = Some bind_port /\ listening r' = true)).
Proof.
  intros He r r'.
  assert (Hmain :
    (forall p,
       bind_rc r = 0 /\ bound_port r = Some p <->
       rsocket s = None /\ rgetsockname s = None /\ rlisten s = None /\
       first_free s lo hi a1 a2 p) /\
    (forall p, bound_port r = Some p -> first_free s lo hi a1 a2 p) /\
    (listening r = true <-> bind_rc r = 0 /\ bound_port r <> None) /\
    (bind_rc r = 0 -> bound_port r = None ->
     rsocket s = None /\ all_avoided lo hi a1 a2 /\ stale_errno s = 0) /\
    (rsocket s = None -> all_avoided lo hi a1 a2 ->
     r = BindResult (- stale_errno s) None false)).
  { destruct (rsocket s) as [e|] eqn:Hs.
    - assert (0 < e) by (apply He; auto).
      assert (Hr : r = BindResult (- e) None false)
        by (subst r; unfold bind; rewrite Hs; reflexivity).
      rewrite Hr. simpl.
      repeat split; intros; intuition (try discriminate; try lia).
    - destruct (bind_any_port lo hi s a1 a2 Hs)
        as [(p0 & Hf & Hr)|[(Hall & Hr)|((q & e & Hq & Hq1 & Hq2 & Hqe & Hr) & Hall)]];
        fold r in Hr; rewrite Hr.
      + destruct (bind_listen_spec s p0 He) as (Hb & Hrc & Hli & _).
        split; [|split; [|split; [|split]]].
        * intros p. rewrite Hb, Hrc. split.
          -- intros [[Hg Hl] [= <-]]. auto.
          -- intros (_ & Hg & Hl & Hp). split; [auto|].
             f_equal. eapply first_free_unique; eassumption.
        * intros p. rewrite Hb. intros [= <-]. exact Hf.
        * rewrite Hb, Hli. split; [intros ->; split; [reflexivity|discriminate]|tauto].
        * rewrite Hb. discriminate.
        * intros _ Hall. destruct Hf as (Hp & H1 & H2 & _).
          destruct (Hall p0 Hp); contradiction.
      + simpl. split; [|split; [|split; [|split]]].
        * intros p. split; [intros [_ ?]; discriminate|].
          intros (_ & _ & _ & Hp & H1 & H2 & _).
          destruct (Hall p Hp); contradiction.
        * discriminate.
        * split; [discriminate|]. intros [_ ?]. contradiction.
        * intros H0 _. repeat split; [exact Hall|lia].
        * reflexivity.
      + assert (0 < e) by (apply He; eauto 6). simpl.
        split; [|split; [|split; [|split]]].
        * intros p. split; [intros [_ ?]; discriminate|].
          intros (_ & _ & _ & Hp & H1 & H2 & Hb & _).
          destruct (Hall p Hp) as [?|[?|?]]; contradiction.
        * discriminate.
        * split; [discriminate|]. intros [_ ?]. contradiction.
        * lia.
        * intros _ Hav. destruct (Hav q Hq); contradiction. }
  destruct Hmain as (H1 & H2 & H3 & H4 & H5).
  repeat (split; [assumption|]).
  intros Hne. subst r'. unfold bind.
  destruct (Z.eqb_spec bind_port 0) as [?|_]; [contradiction|]. simpl negb.
  cbv iota.
  destruct (rsocket s) as [e|] eqn:Hs.
  { assert (0 < e) by (apply He; auto). simpl.
    split; [lia|intros [? _]; discriminate]. }
  destruct (rsetsockopt s) as [e|] eqn:Ho.
  { assert (0 < e) by (apply He; auto). simpl.
    split; [lia|intros [? _]; discriminate]. }
  destruct (rbind s bind_port) as [e|] eqn:Hb.
  { assert (0 < e) by (apply He; eauto 6). simpl.
    split; [lia|intros [? _]; discriminate]. }
  destruct (bind_listen_spec s bind_port He) as (Hbp & _ & Hli & _).
  rewrite Hbp, Hli. tauto.
Qed.

(** X2: [rebind] calls [start()] exactly when [bind] returns 0, and never
    binds the port the messenger had, nor [avoid_port]: a port it binds
    lies in the configured range, differs from both and is one [rbind]
    accepts. When no other port of the range can be bound, nothing is bound
    and nothing listens; [rebind] then returns a negative value and does
    not start the accept thread, unless the range holds no other port at
    all: no [rbind] is then called, [rebind] returns [-errno] with the
    stale [errno], and it calls [start()] with nothing bound when that
    [errno] is 0. Calls that fail are taken to leave a positive
    [errno]. *)
Theorem rebind_avoids_old_port (lo hi : Z) (s : socket_calls)
  (old_port avoid_port : Z) :
  sets_errno s ->
  let r := rebind lo hi s old_port avoid_port in
  (r.2 = true <-> bind_rc r.1 = 0) /\
  (forall p, bound_port r.1 = Some p ->
     lo <= p <= hi /\ p <> old_port /\ p <> avoid_port /\ rbind s p = None) /\
  ((forall q, lo <= q <= hi ->
      q = old_port \/ q = avoid_port \/ rbind s q <> None) ->
   bound_port r.1 = None /\ listening r.1 = false /\
   (~ all_avoided lo hi old_port avoid_port ->
    bind_rc r.1 < 0 /\ r.2 = false) /\
   (rsocket s = None -> all_avoided lo hi old_port avoid_port ->
    bind_rc r.1 = - stale_errno s /\
    (r.2 = true <-> stale_errno s = 0))).
Proof.
  intros He r. subst r. unfold rebind. simpl fst. simpl snd.
  set (r := bind lo hi s 0 old_port avoid_port).
  assert (Hst : (bind_rc r =? 0) = true <-> bind_rc r = 0)
    by apply Z.eqb_eq.
  split; [exact Hst|].
  assert (Hcases :
    (exists e, 0 < e /\ r = BindResult (- e) None false /\
               (rsocket s = None -> ~ all_avoided lo hi old_port avoid_port)) \/
    (rsocket s = None /\
     ((exists p, first_free s lo hi old_port avoid_port p /\
                 r = bind_listen s p) \/
      (all_avoided lo hi old_port avoid_port /\
       r = BindResult (- stale_errno s) None false)))).
  { destruct (rsocket s) as [e|] eqn:Hs.
    - left. exists e. split; [apply He; auto|]. split; [|discriminate].
      subst r. unfold bind. rewrite Hs. reflexivity.
    - destruct (bind_any_port lo hi s old_port avoid_port Hs)
        as [H|[H|((q & e & Hq & Hq1 & Hq2 & Hqe & Hr) & Hall)]].
      + right. split; [reflexivity|]. left. exact H.
      + right. split; [reflexivity|]. right. exact H.
      + left. exists e. split; [apply He; eauto 6|]. split; [exact Hr|].
        intros _ Hav. destruct (Hav q Hq); contradiction. }
  split.
  - intros p Hp.
    destruct Hcases as [(e & _ & Hr & _)|(_ & [(p0 & Hf & Hr)|(_ & Hr)])];
      rewrite Hr in Hp; try discriminate.
    destruct (bind_listen_spec s p0 He) as (Hb & _).
    rewrite Hb in Hp. injection Hp as <-.
    destruct Hf as (Hr' & H1 & H2 & Hb' & _). repeat split; assumption || lia.
  - intros Hfail.
    destruct Hcases
      as [(e & Hpos & Hr & Hna)|(Hs & [(p0 & Hf & Hr)|(Hall & Hr)])].
    + rewrite Hr. simpl. split; [reflexivity|]. split; [reflexivity|]. split.
      * intros _. split; [lia|]. apply Z.eqb_neq. lia.
      * intros Hs Hall. destruct (Hna Hs Hall).
    + destruct Hf as (Hp & H1 & H2 & Hb & _).
      destruct (Hfail p0 Hp) as [?|[?|?]]; contradiction.
    + rewrite Hr. simpl. split; [reflexivity|]. split; [reflexivity|]. split.
      * intros Hna. contradiction.
      * intros _ _. split; [reflexivity|]. rewrite Z.eqb_eq. lia.
Qed.

End BindFacts.

(** ** Socket helpers *)

Section SocketFacts.
Import Pipe.

Lemma concat_trim_iov {A} (iov : list (list A)) (r : Z) :
  0 <= r <= Z.of_nat (length (concat iov)) ->
  concat (trim_iov iov r) = drop (Z.to_nat r) (concat iov).
Proof.
  revert r. induction iov as [|v iov IH]; intros r Hr;
    [simpl; by rewrite drop_nil|].
  simpl in Hr. rewrite length_app in Hr. simpl trim_iov.
  destruct (Z.leb_spec r 0) as [H0|Hpos].
  - replace (Z.to_nat r) with 0%nat by lia. reflexivity.
  - destruct (Z.leb_spec (Z.of_nat (length v)) r) as [Hge|Hlt].
    + rewrite IH by lia. simpl concat. rewrite drop_app_ge by lia.
      f_equal. lia.
    + simpl concat. rewrite drop_app_le by lia. reflexivity.
Qed.

Lemma do_sendmsg_wire {A} (calls : list (Z * bool)) (iov : list (list A))
  (len : Z) (wire : list A) :
  len = Z.of_nat (length (concat iov)) -> within_offer calls len ->
  let r := do_sendmsg calls iov len wire in
  (exists n, r.2 = wire ++ take n (concat iov)) /\
  (r.1 = Some 0 -> r.2 = wire ++ concat iov) /\
  (r.1 = None \/ r.1 = Some 0 \/ r.1 = Some (-1)).
Proof.
  revert iov len wire.
  induction calls as [|[r closed] calls IH]; intros iov len wire Hlen Hoff.
  - simpl. destruct (Z.leb_spec len 0) as [H0|Hpos]; simpl.
    + assert (concat iov = []) as -> by (apply length_zero_iff_nil; lia).
      split; [exists 0%nat; by rewrite app_nil_r|].
      split; [by rewrite app_nil_r|auto].
    + split; [exists 0%nat; by rewrite take_0, app_nil_r|].
      split; [discriminate|auto].
  - simpl do_sendmsg. destruct Hoff as [Hr Hoff].
    destruct (Z.leb_spec len 0) as [H0|Hpos]; simpl.
    { assert (concat iov = []) as -> by (apply length_zero_iff_nil; lia).
      split; [exists 0%nat; by rewrite app_nil_r|].
      split; [by rewrite app_nil_r|auto]. }
    destruct (Z.ltb_spec r 0) as [Hneg|Hnn]; simpl.
    { split; [exists 0%nat; by rewrite take_0, app_nil_r|].
      split; [discriminate|auto]. }
    destruct closed; simpl.
    { split; [eexists; reflexivity|]. split; [discriminate|auto]. }
    destruct (Z.eqb_spec (len - r) 0) as [Hall|Hmore]; simpl.
    { assert (take (Z.to_nat r) (concat iov) = concat iov) as ->
        by (apply take_ge; lia).
      split; [exists (length (concat iov)); by rewrite firstn_all|].
      split; [reflexivity|auto]. }
    assert (Hc : concat (trim_iov iov r) = drop (Z.to_nat r) (concat iov))
      by (apply concat_trim_iov; lia).
    destruct (IH (trim_iov iov r) (len - r)
                (wire ++ take (Z.to_nat r) (concat iov)))
      as ((n & Hn) & Hall & Hret); [rewrite Hc, length_drop; lia|exact Hoff|].
    split; [|split; [|exact Hret]].
    + exists (Z.to_nat r + n)%nat.
      rewrite Hn, Hc, <- app_assoc, take_take_drop. reflexivity.
    + intros H. rewrite (Hall H), Hc, <- app_assoc, take_drop. reflexivity.
Qed.

(** X3: [do_sendmsg] resumes after short writes without losing, repeating or
    reordering a byte: called with the length of its iovecs, whatever the
    [rsendmsg] calls return within what they are offered, the bytes it has
    put on the wire are a prefix of the message, and when it returns 0 they
    are the whole message. It returns 0 or -1. *)
Theorem do_sendmsg_sends_the_message {A} (calls : list (Z * bool))
  (iov : list (list A)) (wire : list A) :
  within_offer calls (Z.of_nat (length (concat iov))) ->
  let r := do_sendmsg calls iov (Z.of_nat (length (concat iov))) wire in
  (exists n, r.2 = wire ++ take n (concat iov)) /\
  (r.1 = Some 0 -> r.2 = wire ++ concat iov) /\
  (r.1 = None \/ r.1 = Some 0 \/ r.1 = Some (-1)).
Proof. intros H. apply do_sendmsg_wire; [reflexivity|exact H]. Qed.

Lemma tcp_read_nonblocking_positive (calls : list rrecv_result) (v : Z) :
  tcp_read_nonblocking calls = Some v -> v = -1 \/ 0 < v.
Proof.
  induction calls as [|c calls IH]; simpl; [discriminate|].
  destruct (Z.ltb_spec (recv_got c) 0).
  - destruct (recv_again c); [exact IH|]. intros [= <-]. auto.
  - destruct (Z.eqb_spec (recv_got c) 0); intros [= <-]; [auto|right; lia].
Qed.

Lemma tcp_read_loop_spec (sd : Z) turns (len stored : Z) :
  let r := tcp_read_loop sd turns len stored in
  (forall v, r.1 = Some v -> v <= 0) /\
  (r.1 = Some 0 -> r.2 = stored + len) /\
  stored <= r.2.
Proof.
  revert len stored.
  induction turns as [|[p calls] turns IH]; intros len stored; simpl.
  - destruct (Z.leb_spec len 0); simpl.
    + split; [intros v [= <-]; lia|]. split; [intros [= ->]|]; lia.
    + split; [discriminate|]. split; [discriminate|lia].
  - destruct (Z.leb_spec len 0); simpl.
    { split; [intros v [= <-]; lia|]. split; [intros [= ->]|]; lia. }
    destruct (tcp_read_wait sd p <? 0); simpl.
    { split; [intros v [= <-]; lia|]. split; [discriminate|lia]. }
    destruct (tcp_read_nonblocking calls) as [got|] eqn:Hg; simpl.
    2:{ split; [discriminate|]. split; [discriminate|lia]. }
    destruct (tcp_read_nonblocking_positive _ _ Hg) as [->|Hpos]; simpl.
    { split; [intros v [= <-]; lia|]. split; [discriminate|lia]. }
    destruct (Z.ltb_spec got 0); [lia|].
    destruct (IH (len - got) (stored + got)) as (H1 & H2 & H3).
    split; [exact H1|]. split; [intros Hz; rewrite (H2 Hz)|]; lia.
Qed.

(** X4: [tcp_read] never reports a short read: it returns 0 only when exactly
    [len] bytes have been stored in the buffer, it never returns a positive
    value, and a turn in which [rrecv] returns 0 (the peer sent a FIN), an
    error other than EAGAIN or EINTR, or in which the poll fails, makes it
    return -1. On a closed descriptor it returns -1 without reading. *)
Theorem tcp_read_all_or_error (sd : Z)
  (turns : list (poll_result * list rrecv_result)) (len : Z) :
  let r := tcp_read sd turns len in
  (forall v, r.1 = Some v -> v <= 0) /\
  (r.1 = Some 0 -> r.2 = len) /\
  (sd < 0 -> r = (Some (-1), 0)) /\
  (forall p c calls turns',
     0 <= sd -> 0 < len -> turns = (p, c :: calls) :: turns' ->
     tcp_read_wait sd p < 0 \/ recv_got c = 0 \/
     (recv_got c < 0 /\ recv_again c = false) ->
     r = (Some (-1), 0)).
Proof.
  unfold tcp_read. destruct (Z.ltb_spec sd 0) as [Hsd|Hsd]; simpl.
  - split; [intros v [= <-]; lia|]. split; [discriminate|].
    split; [reflexivity|]. intros; lia.
  - destruct (tcp_read_loop_spec sd turns len 0) as (H1 & H2 & _).
    split; [exact H1|]. split; [intros H; rewrite (H2 H); lia|].
    split; [lia|]. intros p c calls turns' _ Hlen -> Hbad. simpl.
    destruct (Z.leb_spec len 0); [lia|].
    destruct Hbad as [Hw|[H0|[Hneg Hag]]].
    + destruct (Z.ltb_spec (tcp_read_wait sd p) 0); [reflexivity|lia].
    + destruct (tcp_read_wait sd p <? 0); [reflexivity|].
      rewrite H0. reflexivity.
    + destruct (tcp_read_wait sd p <? 0); [reflexivity|].
      destruct (Z.ltb_spec (recv_got c) 0); [|lia]. rewrite Hag. reflexivity.
Qed.

(** *** alloc_aligned_buffer *)

Lemma land_low_bits (x k : Z) :
  0 <= k -> Z.land x (Z.lnot (Z.lnot (2 ^ k - 1))) = x mod 2 ^ k.
Proof.
  intros Hk. rewrite Z.lnot_involutive.
  replace (2 ^ k - 1) with (Z.ones k) by (rewrite Z.ones_equiv; lia).
  apply Z.land_ones, Hk.
Qed.

Lemma land_high_bits (x k : Z) :
  0 <= k -> Z.land x (Z.lnot (2 ^ k - 1)) = x / 2 ^ k * 2 ^ k.
Proof.
  intros Hk. rewrite <- Z.ldiff_land.
  replace (2 ^ k - 1) with (Z.ones k) by (rewrite Z.ones_equiv; lia).
  rewrite Z.ldiff_ones_r by exact Hk.
  rewrite Z.shiftl_mul_pow2, Z.shiftr_div_pow2 by exact Hk. reflexivity.
Qed.

Lemma total_length_app (l1 l2 : list bufferptr) :
  total_length (l1 ++ l2) = total_length l1 + total_length l2.
Proof. induction l1 as [|b l1 IH]; simpl; [reflexivity|rewrite IH; lia]. Qed.

(** The buffers in terms of division by the page size. *)
Lemma alloc_aligned_buffer_parts {pg : PageHeaders} (len off : Z) :
  page_headers_ok -> 0 <= len -> 0 <= off ->
  let P := CEPH_PAGE_SIZE in
  let head := if off mod P =? 0 then 0 else Z.min (P - off mod P) len in
  let rest := len - head in
  alloc_aligned_buffer len off =
    (if off mod P =? 0 then [] else [buffer_create head]) ++
    (if 0 <? rest / P * P then [buffer_create_page_aligned (rest / P * P)]
     else []) ++
    (if rest mod P =? 0 then [] else [buffer_create (rest mod P)]).
Proof.
  intros [(k & Hk & HP) HM] Hlen Hoff. unfold alloc_aligned_buffer.
  rewrite HM, HP. rewrite land_low_bits by exact Hk.
  assert (HPpos : 0 < 2 ^ k) by (apply Z.pow_pos_nonneg; lia).
  pose proof (Z.mod_pos_bound off (2 ^ k) HPpos) as Hin.
  cbv zeta.
  assert (Hrest : forall data rest, 0 <= rest ->
    (let '(data0, nleft) :=
       if 0 <? Z.land rest (Z.lnot (2 ^ k - 1))
       then (data ++ [buffer_create_page_aligned
                        (Z.land rest (Z.lnot (2 ^ k - 1)))],
             rest - Z.land rest (Z.lnot (2 ^ k - 1)))
       else (data, rest) in
     if negb (nleft =? 0) then data0 ++ [buffer_create nleft] else data0) =
    data ++
    (if 0 <? rest / 2 ^ k * 2 ^ k
     then [buffer_create_page_aligned (rest / 2 ^ k * 2 ^ k)] else []) ++
    (if rest mod 2 ^ k =? 0 then [] else [buffer_create (rest mod 2 ^ k)])).
  { intros data rest Hr. rewrite land_high_bits by exact Hk.
    pose proof (Z.mod_pos_bound rest (2 ^ k) HPpos) as Hm.
    pose proof (Z.div_mod rest (2 ^ k) ltac:(lia)) as Hdiv.
    assert (Hq : 0 <= rest / 2 ^ k) by (apply Z.div_pos; lia).
    destruct (Z.ltb_spec 0 (rest / 2 ^ k * 2 ^ k)) as [Hmid|Hmid].
    - replace (rest - rest / 2 ^ k * 2 ^ k) with (rest mod 2 ^ k) by lia.
      destruct (rest mod 2 ^ k =? 0); simpl;
        rewrite <- ?app_assoc; reflexivity.
    - assert (rest mod 2 ^ k = rest) as -> by nia.
      destruct (rest =? 0); simpl; rewrite ?app_nil_r; reflexivity. }
  destruct (Z.eqb_spec (off mod 2 ^ k) 0) as [Hz|Hnz]; simpl negb;
    cbv iota beta.
  - rewrite Z.sub_0_r. apply (Hrest [] len Hlen).
  - apply (Hrest [buffer_create _]). lia.
Qed.

(** X5: the buffers of [alloc_aligned_buffer] hold exactly [len] bytes, none of
    them is empty, a plain buffer is shorter than a page and a page-aligned
    one is a whole number of pages, and the page-aligned buffer holds the
    data from the first page boundary at or after [off]: the bytes before it
    bring the offset to a multiple of the page size. *)
Theorem alloc_aligned_buffer_layout {pg : PageHeaders} (len off : Z) :
  page_headers_ok -> 0 < len -> 0 <= off ->
  let bufs := alloc_aligned_buffer len off in
  total_length bufs = len /\
  Forall (fun b => 0 < buffer_length b) bufs /\
  Forall (fun b => match b with
                   | buffer_create n => n < CEPH_PAGE_SIZE
                   | buffer_create_page_aligned n => n mod CEPH_PAGE_SIZE = 0
                   end) bufs /\
  (forall before n after,
     bufs = before ++ buffer_create_page_aligned n :: after ->
     (off + total_length before) mod CEPH_PAGE_SIZE = 0) /\
  (length bufs <= 3)%nat.
Proof.
  intros Hok Hlen Hoff bufs. subst bufs.
  rewrite (alloc_aligned_buffer_parts len off Hok ltac:(lia) Hoff).
  destruct Hok as [(k & Hk & HP) _]. cbv zeta.
  set (P := CEPH_PAGE_SIZE) in *.
  assert (HPpos : 0 < P) by (rewrite HP; apply Z.pow_pos_nonneg; lia).
  pose proof (Z.mod_pos_bound off P HPpos) as Hin.
  pose proof (Z.div_mod off P ltac:(lia)) as Hoffdiv.
  set (head := if off mod P =? 0 then 0 else Z.min (P - off mod P) len).
  assert (Hhead : 0 <= head <= len /\ head < P /\
                  (off mod P <> 0 -> 0 < head) /\
                  (head < len -> (off + head) mod P = 0)).
  { unfold head. destruct (Z.eqb_spec (off mod P) 0) as [Hz|Hnz].
    - repeat split; try lia. intros _. rewrite Z.add_0_r. exact Hz.
    - repeat split; try lia. intros Hlt.
      apply Z.mod_divide; [lia|]. exists (off / P + 1). lia. }
  destruct Hhead as (Hh1 & Hh2 & Hh3 & Hh4).
  set (rest := len - head) in *.
  pose proof (Z.mod_pos_bound rest P HPpos) as Hm.
  pose proof (Z.div_mod rest P ltac:(lia)) as Hdiv.
  assert (Hq : 0 <= rest / P) by (apply Z.div_pos; lia).
  destruct (Z.eqb_spec (off mod P) 0) as [Hz|Hnz];
    destruct (Z.ltb_spec 0 (rest / P * P)) as [Hmid|Hmid];
    destruct (Z.eqb_spec (rest mod P) 0) as [Ht|Ht];
    simpl; (split; [lia|]);
    (split; [repeat constructor; simpl; lia|]);
    (split; [repeat constructor; simpl; try lia;
             try (apply Z.mod_mul; lia)|]);
    (split; [|lia]); intros before n after Hb;
    repeat (destruct before as [|? before]; try discriminate);
    try (injection Hb as <-; intros);
    simpl; rewrite ?Z.add_0_r; try exact Hz; try (apply Hh4; lia).
Qed.

End SocketFacts.

Section SocketExamples.
Import Pipe Samples.

(** With ports 6800 and 6801 taken and 6802 to be avoided, [bind] listens
    on 6803; asked to choose among 6802 and 6803 with both to be avoided,
    it calls no [rbind] and returns 0, [errno] being 0. *)
Lemma bind_takes_first_free_port_witness :
  Accepter.bind 6800 7300 ports_from_6802 0 6802 0 =
    Accepter.BindResult 0 (Some 6803) true /\
  Accepter.bind 6802 6803 ports_from_6802 0 6803 6802 =
    Accepter.BindResult 0 None false.
Proof.
  assert (He : Accepter.sets_errno ports_from_6802).
  { intros e [H|[H|[[port H]|[H|H]]]]; try discriminate H.
    simpl in H. destruct (6802 <=? port); [discriminate|].
    injection H as <-. lia. }
  split.
  - destruct (bind_takes_first_free_port 6800 7300 ports_from_6802 6800
                6802 0 He) as (Hany & _ & Hli & _).
    destruct (proj2 (Hany 6803)) as [Hrc Hb].
    { repeat split; try reflexivity; try lia.
      intros q Hq. destruct (Z.eq_dec q 6802) as [->|Hne]; [auto|].
      right. right. simpl.
      destruct (Z.leb_spec 6802 q); [lia|discriminate]. }
    assert (Hl : Accepter.listening
                   (Accepter.bind 6800 7300 ports_from_6802 0 6802 0) = true).
    { apply Hli. split; [exact Hrc|]. rewrite Hb. discriminate. }
    destruct (Accepter.bind 6800 7300 ports_from_6802 0 6802 0).
    simpl in Hrc, Hb, Hl. subst. reflexivity.
  - destruct (bind_takes_first_free_port 6802 6803 ports_from_6802 6800
                6803 6802 He) as (_ & _ & _ & _ & Hstale & _).
    apply Hstale; [reflexivity|]. intros q Hq. lia.
Defined.

(** The listener was on 6803 and is told to avoid 6802: [rebind] moves it
    to 6804 and starts the accept thread. With 6802 and 6803 as the whole
    range, it calls no [rbind], returns 0 with nothing bound and starts the
    accept thread all the same. *)
Lemma rebind_avoids_old_port_witness :
  (forall p,
     Accepter.bound_port
       (Accepter.rebind 6800 7300 ports_from_6802 6803 6802).1 = Some p ->
     6800 <= p <= 7300 /\ p <> 6803 /\ p <> 6802) /\
  Accepter.bound_port
    (Accepter.rebind 6800 7300 ports_from_6802 6803 6802).1 = Some 6804 /\
  Accepter.bind_rc (Accepter.rebind 6802 6803 ports_from_6802 6803 6802).1
    = 0 /\
  (Accepter.rebind 6802 6803 ports_from_6802 6803 6802).2 = true.
Proof.
  assert (He : Accepter.sets_errno ports_from_6802).
  { intros e [H|[H|[[port H]|[H|H]]]]; try discriminate H.
    simpl in H. destruct (6802 <=? port); [discriminate|].
    injection H as <-. lia. }
  split; [|split].
  - destruct (rebind_avoids_old_port 6800 7300 ports_from_6802 6803 6802 He)
      as (_ & H & _).
    intros p Hp. destruct (H p Hp) as (H1 & H2 & H3 & _). auto.
  - reflexivity.
  - destruct (rebind_avoids_old_port 6802 6803 ports_from_6802 6803 6802 He)
      as (Hst & _ & H).
    destruct H as (_ & _ & _ & H).
    { intros q Hq. lia. }
    destruct H as [Hrc Hs]; [reflexivity|intros q Hq; lia|].
    split; [exact Hrc|]. apply Hs. reflexivity.
Defined.

Lemma do_sendmsg_sends_the_message_witness :
  do_sendmsg short_writes six_bytes 6 [] = (Some 0, [1; 2; 3; 4; 5; 6]).
Proof.
  destruct (do_sendmsg_sends_the_message short_writes six_bytes [])
    as (_ & Hall & _).
  - simpl. lia.
  - simpl length in Hall. change (Z.of_nat 6) with 6 in Hall.
    destruct (do_sendmsg short_writes six_bytes 6 []) as [r w] eqn:E.
    assert (Hr : r = Some 0) by (vm_compute in E; congruence).
    simpl in Hall. rewrite (Hall Hr), Hr. reflexivity.
Defined.

Lemma alloc_aligned_buffer_layout_witness :
  let bufs := alloc_aligned_buffer (pg := pages_4k) 10000 4000 in
  bufs = [buffer_create 96; buffer_create_page_aligned 8192;
          buffer_create 1712] /\
  total_length bufs = 10000.
Proof.
  destruct (alloc_aligned_buffer_layout (pg := pages_4k) 10000 4000)
    as (Hsum & _).
  - split; [exists 12; split; [lia|reflexivity]|reflexivity].
  - lia.
  - lia.
  - split; [reflexivity|exact Hsum].
Defined.

Lemma tcp_read_all_or_error_witness :
  tcp_read 3 [(Poll 1 POLLIN, [Recv (-1) true; Recv 3 false]);
              (Poll 1 POLLIN, [Recv 2 false])] 5 = (Some 0, 5) /\
  tcp_read 3 [(Poll 1 POLLIN, [Recv 0 false])] 5 = (Some (-1), 0).
Proof.
  split; [reflexivity|].
  apply (tcp_read_all_or_error 3 [(Poll 1 POLLIN, [Recv 0 false])] 5)
    with (p := Poll 1 POLLIN) (c := Recv 0 false) (calls := [])
         (turns' := []); try reflexivity; try lia.
  right. left. reflexivity.
Defined.

End SocketExamples.

(** ** Acknowledgements and session reset *)

Section SessionFacts.
Import Pipe.
Context {hdr : Headers}.

Lemma filter_Forall_id {A} (P : A -> Prop) `{!forall x, Decision (P x)}
  (l : list A) : Forall P l -> filter P l = l.
Proof.
  induction 1 as [|x l Hx _ IH]; [reflexivity|].
  rewrite filter_cons_True by exact Hx. f_equal. exact IH.
Qed.

Lemma trim_sent_filter (seq : Z) (l : list Message) :
  StronglySorted (fun m n => get_seq m < get_seq n) l ->
  trim_sent seq l = filter (fun m => seq < get_seq m) l.
Proof.
  induction 1 as [|m l _ IH Hall]; [reflexivity|]. simpl.
  destruct (Z.leb_spec (get_seq m) seq) as [Hle|Hgt].
  - rewrite filter_cons_False by lia. exact IH.
  - symmetry. apply filter_Forall_id. constructor; [exact Hgt|].
    eapply Forall_impl; [exact Hall|]. simpl. intros n Hn. lia.
Qed.

Lemma trim_sent_trim (a b : Z) (l : list Message) :
  trim_sent b (trim_sent a l) = trim_sent (Z.max a b) l.
Proof.
  induction l as [|m l IH]; [reflexivity|]. simpl.
  destruct (Z.leb_spec (get_seq m) a) as [Ha|Ha].
  - rewrite IH. destruct (Z.leb_spec (get_seq m) (Z.max a b)); [reflexivity|lia].
  - simpl.
    destruct (Z.leb_spec (get_seq m) b) as [Hb|Hb],
             (Z.leb_spec (get_seq m) (Z.max a b)) as [Hm|Hm];
      try lia; try reflexivity.
    rewrite Z.max_r by lia. reflexivity.
Qed.

Lemma trim_sent_nil (seq : Z) (l : list Message) :
  trim_sent seq l = [] <-> Forall (fun m => get_seq m <= seq) l.
Proof.
  induction l as [|m l IH]; simpl.
  - split; [constructor|reflexivity].
  - destruct (Z.leb_spec (get_seq m) seq) as [Hle|Hgt].
    + rewrite IH. split; [intros H; constructor; assumption|].
      intros H. inversion H; assumption.
    + split; [discriminate|]. intros H. inversion H; subst. lia.
Qed.

Lemma handle_ack_sent (seq : Z) (p : Pipe) :
  sent (handle_ack seq p) = trim_sent seq (sent p).
Proof.
  unfold handle_ack. simpl.
  destruct (trim_sent seq (sent p)); simpl; [|reflexivity].
  destruct (close_on_empty p); reflexivity.
Qed.

(** X6: acks are cumulative. When [sent] carries increasing seqs, [handle_ack]
    leaves exactly the messages whose seq is above the acked one; an ack
    that arrives after a later one changes nothing (two acks act as the
    greater of them, whatever [sent] holds); [out_q] and [out_seq] are not
    touched; and the Pipe is CLOSED afterwards exactly when it was already,
    or when [close_on_empty] is set and the ack covers everything in
    [sent]. *)
Theorem handle_ack_cumulative (a b : Z) (p : Pipe) :
  StronglySorted (fun m n => get_seq m < get_seq n) (sent p) ->
  sent (handle_ack a p) = filter (fun m => a < get_seq m) (sent p) /\
  sent (handle_ack b (handle_ack a p)) = sent (handle_ack (Z.max a b) p) /\
  out_q (handle_ack a p) = out_q p /\
  out_seq (handle_ack a p) = out_seq p /\
  (state (handle_ack a p) = STATE_CLOSED <->
   state p = STATE_CLOSED \/
   (close_on_empty p = true /\ Forall (fun m => get_seq m <= a) (sent p))).
Proof.
  intros Hsorted. split; [|split; [|split; [|split]]].
  - rewrite handle_ack_sent. apply trim_sent_filter. exact Hsorted.
  - rewrite !handle_ack_sent. apply trim_sent_trim.
  - unfold handle_ack. simpl.
    destruct (trim_sent a (sent p)); [destruct (close_on_empty p)|];
      reflexivity.
  - unfold handle_ack. simpl.
    destruct (trim_sent a (sent p)); [destruct (close_on_empty p)|];
      reflexivity.
  - rewrite <- trim_sent_nil. unfold handle_ack. simpl.
    destruct (trim_sent a (sent p)) as [|m l] eqn:Ht; simpl.
    + destruct (close_on_empty p) eqn:Hc; simpl.
      * split; [intros _; right; split; reflexivity|reflexivity].
      * split; [intros H; left; exact H|].
        intros [H|[H _]]; [exact H|discriminate].
    + split; [intros H; left; exact H|].
      intros [H|[_ H]]; [exact H|discriminate].
Qed.

Lemma land_SEQ_MASK (x : Z) : 0 <= Z.land x SEQ_MASK <= SEQ_MASK.
Proof.
  replace (Z.land x SEQ_MASK) with (x mod 2 ^ 31)
    by (symmetry; apply (Z.land_ones x 31); lia).
  pose proof (Z.mod_pos_bound x (2 ^ 31) ltac:(lia)).
  unfold SEQ_MASK. lia.
Qed.

(** What [was_session_reset] leaves. *)
Lemma was_session_reset_spec (rnd : Z) (p : Pipe) (ms : Messenger) :
  let p' := (was_session_reset rnd p ms).1 in
  let ms' := (was_session_reset rnd p ms).2 in
  Forall (fun e => e.1 <> conn_id p) (dispatch_queue ms') /\
  delay_thread p' = (fun _ => []) <$> delay_thread p /\
  out_q p' = ∅ /\ sent p' = [] /\
  in_seq p' = 0 /\ connect_seq p' = 0 /\
  0 <= out_seq p' <= SEQ_MASK /\
  (Z.land (default 0 (features <$> connections ms !! connection_state p))
          CEPH_FEATURE_MSG_AUTH = 0 -> out_seq p' = 0) /\
  notices ms' = notices ms ++ [queue_remote_reset (connection_state p)] /\
  state p' = state p /\ in_seq_acked p' = in_seq_acked p /\
  rank_pipe ms' = rank_pipe ms /\ connections ms' = connections ms.
Proof.
  unfold was_session_reset.
  assert (Hf : Forall (fun e : Z * Message => e.1 <> conn_id p)
                 (dispatch_queue (discard_queue (conn_id p) ms))).
  { unfold discard_queue. simpl. apply Forall_forall. intros e He.
    apply list_elem_of_filter in He. destruct He as [He _].
    destruct (bool_decide (e.1 = conn_id p)) eqn:Hd; [contradiction|].
    apply bool_decide_eq_false in Hd. exact Hd. }
  set (ms0 := discard_queue (conn_id p) ms) in *.
  assert (Hc0 : connections ms0 = connections ms) by reflexivity.
  assert (Hr0 : rank_pipe ms0 = rank_pipe ms) by reflexivity.
  assert (Hn0 : notices ms0 = notices ms) by reflexivity.
  unfold discard_delayed.
  destruct (delay_thread p) as [dq|] eqn:Hdq.
  - destruct (delay_discard_frame dq ms0) as (Hr & Hc & Hn & Hd).
    unfold randomize_out_seq. simpl.
    rewrite Hc, Hc0, Hr, Hr0, Hn, Hn0, Hd.
    destruct (Z.land _ CEPH_FEATURE_MSG_AUTH =? 0) eqn:Hz; simpl;
      repeat split; try exact Hf; try exact Hdq; try (unfold SEQ_MASK; lia);
      try apply land_SEQ_MASK;
      try (intros H; apply Z.eqb_neq in Hz; contradiction).
  - unfold randomize_out_seq. simpl.
    destruct (Z.land _ CEPH_FEATURE_MSG_AUTH =? 0) eqn:Hz; simpl;
      repeat split; try exact Hf; try exact Hdq; try (unfold SEQ_MASK; lia);
      try apply land_SEQ_MASK;
      try (intros H; apply Z.eqb_neq in Hz; contradiction).
Qed.

(** X7: [Pipe::was_session_reset] forgets the session: nothing of this
    connection is left in the dispatch queue, the delay queue, [out_q] or
    [sent]; [in_seq] and [connect_seq] are zero; [out_seq] is zero, or with
    CEPH_FEATURE_MSG_AUTH negotiated a random value of at most 31 bits;
    exactly one notice, a remote reset for the Pipe's Connection, is queued;
    and the state, the registry, the connections and the acked inbound seq
    are as before. *)
Theorem was_session_reset_forgets (rnd : Z) (p : Pipe) (ms : Messenger) :
  let p' := (was_session_reset rnd p ms).1 in
  let ms' := (was_session_reset rnd p ms).2 in
  Forall (fun e => e.1 <> conn_id p) (dispatch_queue ms') /\
  delay_thread p' = (fun _ => []) <$> delay_thread p /\
  out_q p' = ∅ /\ sent p' = [] /\
  in_seq p' = 0 /\ connect_seq p' = 0 /\
  0 <= out_seq p' <= SEQ_MASK /\
  (Z.land (default 0 (features <$> connections ms !! connection_state p))
          CEPH_FEATURE_MSG_AUTH = 0 -> out_seq p' = 0) /\
  notices ms' = notices ms ++ [queue_remote_reset (connection_state p)] /\
  state p' = state p /\ in_seq_acked p' = in_seq_acked p /\
  rank_pipe ms' = rank_pipe ms /\ connections ms' = connections ms.
Proof. apply was_session_reset_spec. Qed.

End SessionFacts.

(** ** Recovery: what a fault keeps and where it leaves the Pipe *)

Section RecoveryFacts.
Import Pipe.
Context {hdr : Headers}.

Lemma fault_cases (onread : bool) (p : Pipe) :
  fault_returns_early onread p \/ fault_fails p \/ fault_recovers onread p.
Proof.
  unfold fault_returns_early, fault_fails, fault_recovers.
  destruct (decide (state p = STATE_CLOSED)) as [?|Hc]; [tauto|].
  destruct (decide (state p = STATE_CLOSING)) as [?|Hg]; [tauto|].
  destruct (decide (state p = STATE_CONNECTING)) as [Hn|Hn].
  - destruct onread; [tauto|]. right. right. tauto.
  - destruct (lossy (policy p)); [tauto|]. right. right. tauto.
Qed.

Lemma fault_early (conf : Config) (onread : bool) (p : Pipe) (ms : Messenger) :
  fault_returns_early onread p -> fault conf onread p ms = (cond_Signal p, ms).
Proof.
  intros [[-> Hs]|[Hs|Hs]]; unfold fault; decide_state; try reflexivity.
  - rewrite andb_false_r. reflexivity.
  - rewrite andb_false_r. reflexivity.
Qed.

Lemma fault_lossy_shape (conf : Config) (onread : bool)
  (p : Pipe) (ms : Messenger) :
  fault_fails p ->
  fault conf onread p ms =
    let p1 := stop (shutdown_socket (cond_Signal p)) in
    let ms1 := discard_queue (conn_id p1) (unregister_pipe p1 ms) in
    let p2 := discard_out_queue (discard_delayed p1 ms1).1 in
    (p2, queue_notice (queue_reset (connection_state p2))
           (clear_pipe (connection_state p2) (self p2)
              (discard_delayed p1 ms1).2)).
Proof.
  intros (Hl & Hc & Hcl & Hcg). unfold fault. decide_state.
  rewrite andb_false_r. simpl orb. cbv iota.
  replace (lossy (policy (shutdown_socket (cond_Signal p)))) with true
    by (symmetry; exact Hl).
  simpl andb. cbv iota.
  destruct (discard_delayed _ _) as [p2 ms2]. reflexivity.
Qed.

Lemma fault_reliable_shape (conf : Config) (onread : bool)
  (p : Pipe) (ms : Messenger) :
  fault_recovers onread p ->
  let p0 := shutdown_socket (cond_Signal p) in
  let p2 := requeue_sent (flush_delayed p0 ms).1 in
  fault conf onread p ms =
    (if standby (policy p2) && negb (is_queued p2)
     then set_state STATE_STANDBY p2
     else if negb (state_is STATE_CONNECTING p2) then
       set_backoff 0
         (if server (policy p2) then set_state STATE_STANDBY p2
          else set_state STATE_CONNECTING
                 (set_connect_seq (wrap32 (connect_seq p2 + 1)) p2))
     else if backoff p2 =? 0 then set_backoff (ms_initial_backoff conf) p2
     else
       set_backoff
         (if ms_max_backoff conf <? backoff p2 + backoff p2
          then ms_max_backoff conf else backoff p2 + backoff p2)
         (cond_WaitInterval (backoff p2) p2),
     (flush_delayed p0 ms).2).
Proof.
  intros (Hc & Hg & Hrel & Hon) p0 p2. unfold fault.
  replace (onread && state_is STATE_CONNECTING (cond_Signal p)) with false.
  2:{ destruct Hon as [->|Hn]; [reflexivity|].
      rewrite (state_is_false STATE_CONNECTING (cond_Signal p)) by exact Hn.
      rewrite andb_false_r. reflexivity. }
  rewrite (state_is_false STATE_CLOSED (cond_Signal p)) by exact Hc.
  rewrite (state_is_false STATE_CLOSING (cond_Signal p)) by exact Hg.
  simpl orb. cbv iota. fold p0.
  replace (lossy (policy p0) && negb (state_is STATE_CONNECTING p0)) with false.
  2:{ destruct Hrel as [Hl|Hs].
      - change (lossy (policy p0)) with (lossy (policy p)). rewrite Hl.
        reflexivity.
      - rewrite (state_is_true STATE_CONNECTING p0) by exact Hs.
        rewrite andb_false_r. reflexivity. }
  subst p2. destruct (flush_delayed p0 ms) as [p1 ms1]. simpl fst. simpl snd.
  repeat (match goal with
          | |- context [if ?b then _ else _] => destruct b
          end; try reflexivity).
Qed.

Lemma flush_delayed_queue (p : Pipe) (ms : Messenger) :
  let p' := (flush_delayed p ms).1 in
  let ms' := (flush_delayed p ms).2 in
  dispatch_queue ms' =
    dispatch_queue ms ++ delivered (conn_id p) (default [] (delay_thread p)) /\
  delay_thread p' = (fun _ => []) <$> delay_thread p /\
  dispatch_throttler ms' = dispatch_throttler ms /\
  notices ms' = notices ms /\ sd_shutdown p' = sd_shutdown p /\
  connect_seq p' = connect_seq p /\ in_seq_acked p' = in_seq_acked p.
Proof.
  unfold flush_delayed. destruct (delay_thread p) as [dq|] eqn:Hdq; simpl.
  2:{ rewrite Hdq, app_nil_r. repeat split. }
  clear Hdq. unfold delay_flush. generalize (conn_id p) as id. intros id.
  revert ms. induction dq as [|e dq IH]; intros ms; simpl.
  - rewrite app_nil_r. repeat split.
  - destruct (IH (enqueue e.2 id ms)) as (-> & _ & -> & -> & _).
    simpl. rewrite <- app_assoc. repeat split.
Qed.

Lemma requeue_sent_rest (p : Pipe) :
  let p' := requeue_sent p in
  sd_shutdown p' = sd_shutdown p /\ delay_thread p' = delay_thread p /\
  conn_id p' = conn_id p /\ in_seq_acked p' = in_seq_acked p /\
  connection_state p' = connection_state p /\ self p' = self p /\
  peer_addr p' = peer_addr p.
Proof.
  unfold requeue_sent. destruct (sent p) as [|m s]; [repeat split|].
  destruct (requeue_loop _ _ _). repeat split.
Qed.

(** What the recovering branch of [fault] does to the queues. *)
Lemma fault_recovers_spec (conf : Config) (onread : bool)
  (p : Pipe) (ms : Messenger) :
  fault_recovers onread p -> uint64 (out_seq p) ->
  let p' := (fault conf onread p ms).1 in
  let ms' := (fault conf onread p ms).2 in
  bucket (out_q p') CEPH_MSG_PRIO_HIGHEST =
    sent p ++ bucket (out_q p) CEPH_MSG_PRIO_HIGHEST /\
  (forall k, k <> CEPH_MSG_PRIO_HIGHEST -> out_q p' !! k = out_q p !! k) /\
  sent p' = [] /\
  out_seq p' = wrap64 (out_seq p - Z.of_nat (length (sent p))) /\
  dispatch_queue ms' =
    dispatch_queue ms ++ delivered (conn_id p) (default [] (delay_thread p)) /\
  delay_thread p' = (fun _ => []) <$> delay_thread p /\
  dispatch_throttler ms' = dispatch_throttler ms /\
  rank_pipe ms' = rank_pipe ms /\ connections ms' = connections ms /\
  notices ms' = notices ms /\
  in_seq p' = in_seq p /\ sd_shutdown p' = true.
Proof.
  intros Hrec Ho p' ms'. subst p' ms'.
  rewrite (fault_reliable_shape conf onread p ms Hrec). cbv zeta.
  set (p0 := shutdown_socket (cond_Signal p)).
  destruct (flush_delayed_frame p0 ms)
    as (_ & Hq & Hsent & _ & _ & _ & _ & Hos & Hin).
  destruct (flush_delayed_pipe p0 ms) as (_ & _ & _ & _ & Hrank & Hconn).
  destruct (flush_delayed_queue p0 ms) as (Hdq & Hdt & Hthr & Hnot & Hsd & _).
  destruct (flush_delayed p0 ms) as [p1 ms1].
  simpl fst in *. simpl snd in *.
  destruct (requeue_sent_spec p1) as (Hb1 & Hk1 & Hs1 & Ho1);
    [rewrite Hos; exact Ho|].
  destruct (requeue_sent_frame p1) as (_ & _ & _ & _ & _ & _ & _ & Hin2).
  destruct (requeue_sent_rest p1) as (Hsd2 & Hdt2 & _).
  remember (requeue_sent p1) as p2 eqn:Hp2. clear Hp2.
  assert (E : forall p3 : Pipe,
    out_q p3 = out_q p2 -> sent p3 = sent p2 -> out_seq p3 = out_seq p2 ->
    delay_thread p3 = delay_thread p2 -> in_seq p3 = in_seq p2 ->
    sd_shutdown p3 = sd_shutdown p2 ->
    bucket (out_q p3) CEPH_MSG_PRIO_HIGHEST =
      sent p ++ bucket (out_q p) CEPH_MSG_PRIO_HIGHEST /\
    (forall k, k <> CEPH_MSG_PRIO_HIGHEST -> out_q p3 !! k = out_q p !! k) /\
    sent p3 = [] /\
    out_seq p3 = wrap64 (out_seq p - Z.of_nat (length (sent p))) /\
    dispatch_queue ms1 =
      dispatch_queue ms ++
      delivered (conn_id p) (default [] (delay_thread p)) /\
    delay_thread p3 = (fun _ => []) <$> delay_thread p /\
    dispatch_throttler ms1 = dispatch_throttler ms /\
    rank_pipe ms1 = rank_pipe ms /\ connections ms1 = connections ms /\
    notices ms1 = notices ms /\
    in_seq p3 = in_seq p /\ sd_shutdown p3 = true).
  { intros p3 -> -> -> -> -> ->.
    rewrite Hb1, Hs1, Ho1, Hq, Hsent, Hos, Hdt2, Hdt, Hin2, Hin, Hsd2, Hsd.
    repeat split; try assumption.
    intros k Hk. rewrite (Hk1 k Hk), Hq. reflexivity. }
  repeat (match goal with
          | |- context [if ?b then _ else _] => destruct b
          end); apply E; reflexivity.
Qed.

(** X9: a fault that takes neither an early return nor the lossy branch loses
    no outbound message: the unacknowledged messages of [sent] go back to
    the front of [out_q[CEPH_MSG_PRIO_HIGHEST]] in their order, the other
    buckets are as before, and [out_seq] is taken back by one per requeued
    message. The delay queue is flushed to the dispatch queue in its order;
    the socket is shut down; [in_seq], the dispatch throttle, the registry,
    the connections and the notices are untouched. *)
Theorem fault_reliable_keeps_messages (conf : Config) (onread : bool)
  (p : Pipe) (ms : Messenger) :
  fault_recovers onread p -> uint64 (out_seq p) ->
  let p' := (fault conf onread p ms).1 in
  let ms' := (fault conf onread p ms).2 in
  bucket (out_q p') CEPH_MSG_PRIO_HIGHEST =
    sent p ++ bucket (out_q p) CEPH_MSG_PRIO_HIGHEST /\
  (forall k, k <> CEPH_MSG_PRIO_HIGHEST -> out_q p' !! k = out_q p !! k) /\
  sent p' = [] /\
  out_seq p' = wrap64 (out_seq p - Z.of_nat (length (sent p))) /\
  dispatch_queue ms' =
    dispatch_queue ms ++ delivered (conn_id p) (default [] (delay_thread p)) /\
  delay_thread p' = (fun _ => []) <$> delay_thread p /\
  dispatch_throttler ms' = dispatch_throttler ms /\
  rank_pipe ms' = rank_pipe ms /\ connections ms' = connections ms /\
  notices ms' = notices ms /\
  in_seq p' = in_seq p /\ sd_shutdown p' = true.
Proof. apply fault_recovers_spec. Qed.

(** X10: where a fault leaves the Pipe. After [fault] the Pipe is CLOSED,
    CLOSING, STANDBY or CONNECTING, never OPEN; a CLOSED Pipe stays CLOSED,
    and only a Pipe that was CLOSING is CLOSING afterwards; a fault closes
    only a lossy Pipe; a Pipe with the server policy is never moved to
    CONNECTING; and a Pipe that is moved to CONNECTING has [connect_seq]
    incremented and its backoff reset, while [connect_seq] is unchanged in
    every other case. *)
Theorem fault_never_leaves_open (conf : Config) (onread : bool)
  (p : Pipe) (ms : Messenger) :
  let p' := (fault conf onread p ms).1 in
  (state p' = STATE_CLOSED \/ state p' = STATE_CLOSING \/
   state p' = STATE_STANDBY \/ state p' = STATE_CONNECTING) /\
  (state p = STATE_CLOSED -> state p' = STATE_CLOSED) /\
  (state p' = STATE_CLOSING -> state p = STATE_CLOSING) /\
  (state p' = STATE_CLOSED ->
   state p = STATE_CLOSED \/ lossy (policy p) = true) /\
  (server (policy p) = true -> state p' = STATE_CONNECTING ->
   state p = STATE_CONNECTING) /\
  (state p <> STATE_CONNECTING -> state p' = STATE_CONNECTING ->
   connect_seq p' = wrap32 (connect_seq p + 1) /\ backoff p' = 0) /\
  (state p = STATE_CONNECTING \/ state p' <> STATE_CONNECTING ->
   connect_seq p' = connect_seq p).
Proof.
  destruct (fault_cases onread p) as [He|[Hf|Hr]].
  - rewrite (fault_early conf onread p ms He). simpl.
    destruct He as [[_ Hs]|[Hs|Hs]]; rewrite Hs;
      repeat split; intros; try tauto; try congruence.
  - rewrite (fault_lossy_shape conf onread p ms Hf). cbv zeta.
    set (p1 := stop (shutdown_socket (cond_Signal p))).
    set (ms1 := discard_queue (conn_id p1) (unregister_pipe p1 ms)).
    destruct (discard_delayed_frame p1 ms1)
      as (_ & _ & _ & _ & Hst & _ & Hcs & _).
    destruct (discard_delayed p1 ms1) as [p2 ms2].
    simpl fst in *. simpl snd in *. simpl state. simpl connect_seq.
    rewrite Hst, Hcs. subst p1. simpl.
    destruct Hf as (Hl & Hn & Hc & Hg).
    repeat split; intros; try tauto; try congruence.
  - rewrite (fault_reliable_shape conf onread p ms Hr). cbv zeta.
    set (p0 := shutdown_socket (cond_Signal p)).
    destruct (flush_delayed_frame p0 ms)
      as (Hpol & _ & _ & _ & Hst & _).
    destruct (flush_delayed_queue p0 ms) as (_ & _ & _ & _ & _ & Hcs & _).
    destruct (flush_delayed p0 ms) as [p1 ms1].
    simpl fst in *. simpl snd in *.
    destruct (requeue_sent_frame p1)
      as (_ & Hst2 & Hpol2 & _ & _ & _ & Hcs2 & _).
    remember (requeue_sent p1) as p2 eqn:Hp2. clear Hp2.
    assert (Es : state p2 = state p) by (rewrite Hst2, Hst; reflexivity).
    assert (Ec : connect_seq p2 = connect_seq p)
      by (rewrite Hcs2, Hcs; reflexivity).
    assert (Ep : policy p2 = policy p) by (rewrite Hpol2, Hpol; reflexivity).
    destruct Hr as (Hc & Hg & _ & _).
    destruct (standby (policy p2) && negb (is_queued p2)); simpl.
    { rewrite Ec. repeat split; intros; try tauto; try congruence. }
    destruct (decide (state p = STATE_CONNECTING)) as [Hn|Hn].
    + rewrite (state_is_true STATE_CONNECTING p2) by congruence. simpl.
      destruct (backoff p2 =? 0); simpl; rewrite Es, Ec, Hn;
        repeat split; intros; try tauto; try congruence.
    + rewrite (state_is_false STATE_CONNECTING p2) by congruence. simpl.
      rewrite Ep. destruct (server (policy p)); simpl; rewrite ?Ec;
        repeat split; intros; try tauto; try congruence.
Qed.

Lemma delay_discard_throttle dq (ms : Messenger) :
  dispatch_throttler (delay_discard dq ms) =
    Thr (current (dispatch_throttler ms) - delayed_size dq)
        (maximum (dispatch_throttler ms)).
Proof.
  revert ms. unfold delay_discard.
  induction dq as [|e dq IH]; intros ms; simpl.
  - rewrite Z.sub_0_r. destruct (dispatch_throttler ms). reflexivity.
  - rewrite IH. simpl. f_equal. lia.
Qed.

(** X11: the two ways a delay queue is emptied. [flush] hands every delayed
    message to the dispatch queue, behind what is there, in the order of
    the delay queue and under the Pipe's [conn_id], and leaves the dispatch
    throttle alone; [discard] delivers nothing and gives the dispatch
    throttle back the sizes of all the messages it drops. *)
Theorem delay_queue_flush_or_discard (p : Pipe) (ms : Messenger)
  (dq : list (Z * Message)) :
  delay_thread p = Some dq ->
  dispatch_queue (flush_delayed p ms).2 =
    dispatch_queue ms ++ delivered (conn_id p) dq /\
  dispatch_throttler (flush_delayed p ms).2 = dispatch_throttler ms /\
  delay_thread (flush_delayed p ms).1 = Some [] /\
  dispatch_queue (discard_delayed p ms).2 = dispatch_queue ms /\
  dispatch_throttler (discard_delayed p ms).2 =
    Thr (current (dispatch_throttler ms) - delayed_size dq)
        (maximum (dispatch_throttler ms)) /\
  delay_thread (discard_delayed p ms).1 = Some [].
Proof.
  intros Hdq.
  destruct (flush_delayed_queue p ms) as (H1 & H2 & H3 & _).
  rewrite Hdq in H1, H2. simpl in H1, H2.
  split; [exact H1|]. split; [exact H3|]. split; [exact H2|].
  unfold discard_delayed. rewrite Hdq. simpl.
  destruct (delay_discard_frame dq ms) as (_ & _ & _ & H4).
  split; [exact H4|]. split; [apply delay_discard_throttle|reflexivity].
Qed.

Lemma delay_entries_prefix (times : list Z) :
  forall (p : Pipe) (ms : Messenger) (dq : list (Z * Message)),
  delay_thread p = Some dq ->
  exists k : nat,
    (k <= length times)%nat /\
    dispatch_queue (delay_entries times p ms).2 =
      dispatch_queue ms ++ delivered (conn_id p) (take k dq) /\
    delay_thread (delay_entries times p ms).1 = Some (drop k dq) /\
    Forall (fun e => Exists (fun now => e.1 <= now) times) (take k dq).
Proof.
  induction times as [|now times IH]; intros p ms dq Hdq.
  - exists 0%nat. simpl. rewrite app_nil_r, drop_0.
    repeat split; [lia|exact Hdq|constructor].
  - simpl delay_entries. unfold delay_entry. rewrite Hdq.
    assert (Hwait : exists k : nat,
      (k <= length (now :: times))%nat /\
      dispatch_queue (delay_entries times p ms).2 =
        dispatch_queue ms ++ delivered (conn_id p) (take k dq) /\
      delay_thread (delay_entries times p ms).1 = Some (drop k dq) /\
      Forall (fun e => Exists (fun t => e.1 <= t) (now :: times)) (take k dq)).
    { destruct (IH p ms dq Hdq) as (k & Hk & H1 & H2 & H3).
      exists k. repeat split; [simpl; lia|exact H1|exact H2|].
      eapply Forall_impl; [exact H3|]. intros e He.
      apply Exists_cons_tl. exact He. }
    destruct dq as [|[release m] rest]; [exact Hwait|].
    destruct (Z.ltb_spec now release) as [Hlt|Hge]; [exact Hwait|].
    clear Hwait.
    destruct (IH (set_delay_thread (Some rest) p) (enqueue m (conn_id p) ms)
                 rest eq_refl) as (k & Hk & H1 & H2 & H3).
    exists (S k). repeat split.
    + simpl. lia.
    + rewrite H1. simpl. rewrite <- app_assoc. reflexivity.
    + rewrite H2. reflexivity.
    + simpl. constructor.
      * apply Exists_cons_hd. simpl. exact Hge.
      * eapply Forall_impl; [exact H3|]. intros e He.
        apply Exists_cons_tl. exact He.
Qed.

Lemma delay_entries_all_due (now : Z) (dq : list (Z * Message)) :
  forall (p : Pipe) (ms : Messenger),
  delay_thread p = Some dq -> Forall (fun e => e.1 <= now) dq ->
  delay_entries (replicate (length dq) now) p ms = flush_delayed p ms.
Proof.
  induction dq as [|[release m] rest IH]; intros p ms Hdq Hall.
  - unfold flush_delayed. rewrite Hdq. simpl.
    destruct p. simpl in Hdq. subst. reflexivity.
  - inversion Hall as [|e l Hrel Hrest]; subst. simpl in Hrel.
    simpl delay_entries. unfold delay_entry. rewrite Hdq.
    destruct (Z.ltb_spec now release) as [Hlt|_]; [lia|].
    rewrite (IH (set_delay_thread (Some rest) p) (enqueue m (conn_id p) ms)
                eq_refl Hrest).
    unfold flush_delayed. rewrite Hdq. reflexivity.
Qed.

(** X12: the delay thread. Whatever the times of its turns, it hands the
    dispatch queue a prefix of the delay queue, in order and under the
    Pipe's [conn_id], and keeps the rest; a message is handed over only in
    a turn at or after its release time; and when every release time has
    passed, as many turns as there are delayed messages deliver what
    [flush] delivers. *)
Theorem delay_entry_delivers_in_order (times : list Z) (now : Z)
  (p : Pipe) (ms : Messenger) (dq : list (Z * Message)) :
  delay_thread p = Some dq ->
  (exists k : nat,
     (k <= length times)%nat /\
     dispatch_queue (delay_entries times p ms).2 =
       dispatch_queue ms ++ delivered (conn_id p) (take k dq) /\
     delay_thread (delay_entries times p ms).1 = Some (drop k dq) /\
     Forall (fun e => Exists (fun t => e.1 <= t) times) (take k dq)) /\
  (Forall (fun e => e.1 <= now) dq ->
   delay_entries (replicate (length dq) now) p ms = flush_delayed p ms).
Proof.
  intros Hdq. split.
  - apply delay_entries_prefix. exact Hdq.
  - apply delay_entries_all_due. exact Hdq.
Qed.

End RecoveryFacts.

(** ** The reader: throttles and the order of delivery *)

Section DeliveryFacts.
Import Pipe.
Context {hdr : Headers}.

(** The two ways [read_message] ends. *)
Lemma read_message_accounting (w : wire) (p : Pipe) (ms : Messenger) :
  let '(r, om, p', ms') := read_message w p ms in
  match om with
  | None => p' = p /\ ms' = ms /\ (r = -1 \/ r = 0 \/ r = - EINVAL)
  | Some m =>
    r = 0 /\
    exists header,
      w_header w = Some header /\
      let size :=
        wrap32 (front_len header + middle_len header + data_len header) in
      (p', ms') = acquire_throttles size p ms /\
      get_dispatch_throttle_size m = size
  end.
Proof.
  unfold read_message.
  destruct (w_header w) as [header|]; [|repeat split; left; reflexivity].
  destruct (negb (w_header_crc w =? crc header));
    [repeat split; left; reflexivity|].
  set (size := wrap32 _).
  pose proof (out_dethrottle_acquire size p ms) as Hback.
  destruct (acquire_throttles size p ms) as [p1 ms1] eqn:Hacq.
  simpl fst in Hback. simpl snd in Hback.
  assert (Hd : forall ret : Z,
    ret = -1 \/ ret = 0 \/ ret = - EINVAL ->
    let '(r, om, p', ms') :=
      (let '(p0, ms0) := out_dethrottle size p1 ms1 in
       (ret, @None Message, p0, ms0)) in
    match om with
    | None => p' = p /\ ms' = ms /\ (r = -1 \/ r = 0 \/ r = - EINVAL)
    | Some m =>
      r = 0 /\
      exists header0,
        Some header = Some header0 /\
        let size0 :=
          wrap32 (front_len header0 + middle_len header0 + data_len header0) in
        (p', ms') = acquire_throttles size0 p ms /\
        get_dispatch_throttle_size m = size0
    end).
  { intros ret Hret. rewrite Hback. repeat split. exact Hret. }
  repeat (match goal with
          | |- context [if ?b then _ else _] => destruct b
          | |- context [match w_footer_flags w with _ => _ end] =>
            destruct (w_footer_flags w)
          | |- context [match w_decoded w with _ => _ end] =>
            destruct (w_decoded w)
          end; try (apply Hd; tauto)).
  split; [reflexivity|]. exists header. split; [reflexivity|].
  cbv zeta. fold size. rewrite Hacq. split; reflexivity.
Qed.

(** X13: [read_message] is all or nothing. When it stores no message, whatever
    the reason (a failed read, a bad header CRC, an aborted message, a
    decoding or signature failure), the Pipe and the messenger are exactly
    as before the call, so every throttle unit it took is given back, and
    it returns -1, 0 or -EINVAL. When it stores a message it returns 0, it
    holds what [acquire_throttles] took for the size announced in the
    header, and that size is recorded in the message. *)
Theorem read_message_all_or_nothing (w : wire) (p : Pipe) (ms : Messenger) :
  let '(r, om, p', ms') := read_message w p ms in
  match om with
  | None => p' = p /\ ms' = ms /\ (r = -1 \/ r = 0 \/ r = - EINVAL)
  | Some m =>
    r = 0 /\
    exists header,
      w_header w = Some header /\
      let size :=
        wrap32 (front_len header + middle_len header + data_len header) in
      (p', ms') = acquire_throttles size p ms /\
      get_dispatch_throttle_size m = size
  end.
Proof. apply read_message_accounting. Qed.

Lemma acquire_throttles_dispatch (size : Z) (p : Pipe) (ms : Messenger) :
  current (dispatch_throttler (acquire_throttles size p ms).2) =
    current (dispatch_throttler ms) + size /\
  maximum (dispatch_throttler (acquire_throttles size p ms).2) =
    maximum (dispatch_throttler ms).
Proof.
  unfold acquire_throttles. destruct (Z.eqb_spec size 0) as [->|_]; simpl.
  - split; [lia|reflexivity].
  - split; reflexivity.
Qed.

(** X14: the dispatch throttle after a MSG turn of the reader on an OPEN Pipe:
    it holds the size of the message when the message is queued for
    dispatch, and what it held before the turn when the message is dropped
    as a duplicate. *)
Theorem reader_dispatch_throttle (conf : Config) (w : wire) (release : Z)
  (p : Pipe) (ms : Messenger) (r : Z) (m : Message)
  (p1 : Pipe) (ms1 : Messenger) :
  state p = STATE_OPEN ->
  read_message w p ms = (r, Some m, p1, ms1) ->
  let ms' := (reader conf (TAG_MSG w release) p ms).2 in
  current (dispatch_throttler ms') =
    current (dispatch_throttler ms) +
    (if get_seq m <=? in_seq p then 0 else get_dispatch_throttle_size m) /\
  maximum (dispatch_throttler ms') = maximum (dispatch_throttler ms).
Proof.
  intros Hs Hr ms'.
  pose proof (read_message_frame w p ms) as Hf. rewrite Hr in Hf.
  destruct Hf as (Hst & Hin & _).
  pose proof (read_message_accounting w p ms) as Ha. rewrite Hr in Ha.
  destruct Ha as (_ & header & _ & Hacq & Hsize). cbv zeta in Hacq, Hsize.
  rewrite <- Hsize in Hacq.
  destruct (acquire_throttles_dispatch (get_dispatch_throttle_size m) p ms)
    as (Hcur & Hmax).
  rewrite <- Hacq in Hcur, Hmax. simpl in Hcur, Hmax.
  subst ms'. unfold reader. decide_state.
  simpl orb. cbv iota. rewrite Hr. decide_state.
  simpl orb. cbv iota. rewrite Hin.
  destruct (get_seq m <=? in_seq p).
  - simpl. rewrite Hcur, Hmax. split; [lia|reflexivity].
  - cbv zeta.
    destruct (delay_thread (cond_Signal (set_in_seq (get_seq m) p1)));
      simpl; rewrite Hcur, Hmax; split; reflexivity.
Qed.

(** *** The order of delivery *)

Lemma inbound_seqs_eq (p p' : Pipe) (ms ms' : Messenger) :
  conn_id p' = conn_id p -> delay_thread p' = delay_thread p ->
  dispatch_queue ms' = dispatch_queue ms ->
  inbound_seqs p' ms' = inbound_seqs p ms.
Proof. unfold inbound_seqs. intros -> -> ->. reflexivity. Qed.

Lemma inbound_seqs_enqueue (p : Pipe) (ms : Messenger) (m : Message) :
  inbound_seqs p (enqueue m (conn_id p) ms) =
    map (fun e => get_seq e.2)
        (filter (fun e => e.1 = conn_id p) (dispatch_queue ms)) ++
    get_seq m :: map (fun e => get_seq e.2) (default [] (delay_thread p)).
Proof.
  unfold inbound_seqs, enqueue. simpl. rewrite filter_app.
  rewrite filter_cons_True by reflexivity. rewrite filter_nil.
  rewrite map_app, <- app_assoc. reflexivity.
Qed.

Lemma filter_delivered (id : Z) (dq : list (Z * Message)) :
  filter (fun e : Z * Message => e.1 = id) (delivered id dq) = delivered id dq.
Proof.
  apply filter_Forall_id. unfold delivered. apply Forall_forall.
  intros e He. apply list_elem_of_fmap in He. destruct He as (x & -> & _).
  reflexivity.
Qed.

Lemma map_delivered (id : Z) (dq : list (Z * Message)) :
  map (fun e : Z * Message => get_seq e.2) (delivered id dq) =
  map (fun e : Z * Message => get_seq e.2) dq.
Proof. unfold delivered. rewrite map_map. reflexivity. Qed.

Lemma inbound_seqs_flush (p : Pipe) (ms : Messenger) :
  inbound_seqs (flush_delayed p ms).1 (flush_delayed p ms).2 =
  inbound_seqs p ms.
Proof.
  destruct (flush_delayed_queue p ms) as (Hq & Hd & _).
  destruct (flush_delayed_pipe p ms) as (Hid & _).
  unfold inbound_seqs. rewrite Hq, Hd, Hid, filter_app, filter_delivered.
  rewrite map_app, map_delivered, <- app_assoc. f_equal.
  destruct (delay_thread p); simpl; rewrite ?app_nil_r; reflexivity.
Qed.

Lemma filter_discard_queue (id : Z) (l : list (Z * Message)) :
  filter (fun e : Z * Message => e.1 = id)
         (filter (fun e : Z * Message => negb (bool_decide (e.1 = id))) l) = [].
Proof.
  induction l as [|e l IH]; [reflexivity|].
  destruct (decide (e.1 = id)) as [He|He].
  - rewrite (filter_cons_False _ e l); [exact IH|].
    rewrite (bool_decide_eq_true_2 _ He). simpl. tauto.
  - rewrite (filter_cons_True _ e l).
    2:{ rewrite (bool_decide_eq_false_2 _ He). exact I. }
    rewrite filter_cons_False by exact He. exact IH.
Qed.

Lemma increasing_up_to_snoc (bound s : Z) (l : list Z) :
  increasing_up_to bound l -> bound < s -> increasing_up_to s (l ++ [s]).
Proof.
  intros [Hs Hb] Hlt. split.
  - induction Hs as [|x l Hs IH Hx]; simpl.
    + repeat constructor.
    + inversion Hb; subst. constructor; [apply IH; assumption|].
      apply Forall_app. split; [exact Hx|]. repeat constructor. lia.
  - apply Forall_app. split.
    + eapply Forall_impl; [exact Hb|]. simpl. intros; lia.
    + repeat constructor. lia.
Qed.

Lemma increasing_up_to_nil (bound : Z) : increasing_up_to bound [].
Proof. split; constructor. Qed.

Lemma unregister_pipe_queue (p : Pipe) (ms : Messenger) :
  dispatch_queue (unregister_pipe p ms) = dispatch_queue ms.
Proof. unfold unregister_pipe. case_bool_decide; reflexivity. Qed.

Lemma discard_delayed_queue (p : Pipe) (ms : Messenger) :
  dispatch_queue (discard_delayed p ms).2 = dispatch_queue ms /\
  conn_id (discard_delayed p ms).1 = conn_id p.
Proof.
  unfold discard_delayed. destruct (delay_thread p) as [dq|]; simpl.
  - destruct (delay_discard_frame dq ms) as (_ & _ & _ & H). split; [exact H|].
    reflexivity.
  - split; reflexivity.
Qed.

(** Across a fault the inbound messages still to be dispatched are the
    same, in the same order, or (on the lossy branch) none is left. *)
Lemma fault_inbound_seqs (conf : Config) (onread : bool)
  (p : Pipe) (ms : Messenger) :
  let r := fault conf onread p ms in
  inbound_seqs r.1 r.2 = inbound_seqs p ms \/ inbound_seqs r.1 r.2 = [].
Proof.
  destruct (fault_cases onread p) as [He|[Hf|Hr]].
  - rewrite (fault_early conf onread p ms He). left. reflexivity.
  - right. rewrite (fault_lossy_shape conf onread p ms Hf). cbv zeta.
    set (p1 := stop (shutdown_socket (cond_Signal p))).
    set (ms1 := discard_queue (conn_id p1) (unregister_pipe p1 ms)).
    destruct (discard_delayed_frame p1 ms1) as (Hd & _).
    destruct (discard_delayed_queue p1 ms1) as (Hq & Hid).
    destruct (discard_delayed p1 ms1) as [p2 ms2].
    simpl fst in *. simpl snd in *.
    unfold inbound_seqs. simpl. rewrite Hq, Hid, Hd. subst ms1. simpl.
    rewrite unregister_pipe_queue, filter_discard_queue.
    destruct (delay_thread p); reflexivity.
  - left. rewrite (fault_reliable_shape conf onread p ms Hr). cbv zeta.
    set (p0 := shutdown_socket (cond_Signal p)).
    pose proof (inbound_seqs_flush p0 ms) as Hfl.
    destruct (flush_delayed p0 ms) as [p1 ms1].
    simpl fst in *. simpl snd in *.
    destruct (requeue_sent_rest p1) as (_ & Hdt & Hid & _).
    remember (requeue_sent p1) as p2 eqn:Hp2. clear Hp2.
    transitivity (inbound_seqs p2 ms1).
    + repeat (match goal with
              | |- context [if ?b then _ else _] => destruct b
              end); apply inbound_seqs_eq; reflexivity.
    + rewrite (inbound_seqs_eq p1 p2 ms1 ms1 Hid Hdt eq_refl). exact Hfl.
Qed.

Lemma handle_ack_rest (seq : Z) (p : Pipe) :
  conn_id (handle_ack seq p) = conn_id p /\
  delay_thread (handle_ack seq p) = delay_thread p.
Proof.
  unfold handle_ack. simpl.
  destruct (trim_sent seq (sent p)); [destruct (close_on_empty p)|];
    split; reflexivity.
Qed.

Lemma inbound_seqs_accept (release : Z) (m : Message)
  (p1 : Pipe) (ms1 : Messenger) :
  let p2 := cond_Signal (set_in_seq (get_seq m) p1) in
  let r :=
    match delay_thread p2 with
    | Some dq =>
      (set_delay_thread (Some (delay_queue_push release m dq)) p2, ms1)
    | None => (p2, enqueue m (conn_id p2) ms1)
    end in
  inbound_seqs r.1 r.2 = inbound_seqs p1 ms1 ++ [get_seq m] /\
  in_seq r.1 = get_seq m.
Proof.
  cbv zeta.
  change (delay_thread (cond_Signal (set_in_seq (get_seq m) p1)))
    with (delay_thread p1).
  destruct (delay_thread p1) as [dq|] eqn:Hdq; simpl fst; simpl snd.
  - split; [|reflexivity]. unfold inbound_seqs, delay_queue_push. simpl.
    rewrite Hdq. simpl. rewrite map_app, app_assoc. reflexivity.
  - split; [|reflexivity].
    etransitivity;
      [exact (inbound_seqs_enqueue
                (cond_Signal (set_in_seq (get_seq m) p1)) ms1 m)|].
    unfold inbound_seqs. simpl. rewrite Hdq. simpl.
    rewrite app_nil_r. reflexivity.
Qed.

Lemma fault_keeps_order (conf : Config) (onread : bool)
  (p : Pipe) (ms : Messenger) :
  increasing_up_to (in_seq p) (inbound_seqs p ms) ->
  increasing_up_to (in_seq (fault conf onread p ms).1)
    (inbound_seqs (fault conf onread p ms).1 (fault conf onread p ms).2).
Proof.
  intros H. rewrite fault_in_seq.
  destruct (fault_inbound_seqs conf onread p ms) as [-> | ->];
    [exact H|apply increasing_up_to_nil].
Qed.

(** X15: in-order delivery. The messages of a Pipe that wait for the dispatcher
    (in the dispatch queue under its [conn_id], then in its delay queue)
    carry strictly increasing seqs, none above [in_seq]: when this holds it
    still holds after any turn of the reader, after a fault, and after a
    turn of the delay thread. So whatever arrives on the wire, the reader
    never queues a message twice or behind a later one. *)
Theorem reader_delivers_in_order (conf : Config) (p : Pipe) (ms : Messenger) :
  increasing_up_to (in_seq p) (inbound_seqs p ms) ->
  (forall i,
     increasing_up_to (in_seq (reader conf i p ms).1)
       (inbound_seqs (reader conf i p ms).1 (reader conf i p ms).2)) /\
  (forall onread,
     increasing_up_to (in_seq (fault conf onread p ms).1)
       (inbound_seqs (fault conf onread p ms).1 (fault conf onread p ms).2)) /\
  (forall now,
     increasing_up_to (in_seq (delay_entry now p ms).1)
       (inbound_seqs (delay_entry now p ms).1 (delay_entry now p ms).2)).
Proof.
  intros H. split; [|split].
  - intros i. unfold reader.
    destruct (_ || _); [exact H|].
    destruct (state_is STATE_STANDBY p); [exact H|].
    destruct i as [| |rc seq|w release| |].
    + apply fault_keeps_order. exact H.
    + exact H.
    + destruct (rc <? 0); [apply fault_keeps_order; exact H|].
      destruct (negb _); simpl fst; simpl snd; [|exact H].
      rewrite handle_ack_in_seq.
      destruct (handle_ack_rest seq p) as (Hid & Hdt).
      rewrite (inbound_seqs_eq p (handle_ack seq p) ms ms Hid Hdt eq_refl).
      exact H.
    + pose proof (read_message_frame w p ms) as Hf.
      destruct (read_message w p ms) as [[[r om] p1] ms1].
      destruct Hf as (_ & Hin & Hdt & Hid & Hdq).
      assert (H1 : increasing_up_to (in_seq p1) (inbound_seqs p1 ms1)).
      { rewrite Hin, (inbound_seqs_eq p p1 ms ms1 Hid Hdt Hdq). exact H. }
      destruct om as [m|].
      * destruct (_ || _); [exact H1|].
        destruct (Z.leb_spec (get_seq m) (in_seq p1)) as [Hle|Hgt];
          [exact H1|].
        destruct (inbound_seqs_accept release m p1 ms1) as (Hs & Hi).
        cbv zeta in Hs, Hi. cbv zeta. rewrite Hs, Hi.
        apply (increasing_up_to_snoc (in_seq p1)); assumption.
      * destruct (r <? 0); [apply fault_keeps_order|]; exact H1.
    + destruct (state_is STATE_CLOSING p); exact H.
    + apply fault_keeps_order. exact H.
  - intros onread. apply fault_keeps_order. exact H.
  - intros now. unfold delay_entry.
    destruct (delay_thread p) as [[|[release m] rest]|] eqn:Hdq;
      try exact H.
    destruct (now <? release); [exact H|]. simpl fst. simpl snd.
    change (in_seq (set_delay_thread (Some rest) p)) with (in_seq p).
    replace (inbound_seqs (set_delay_thread (Some rest) p)
               (enqueue m (conn_id p) ms)) with (inbound_seqs p ms);
      [exact H|].
    symmetry. etransitivity;
      [exact (inbound_seqs_enqueue (set_delay_thread (Some rest) p) ms m)|].
    unfold inbound_seqs. rewrite Hdq. reflexivity.
Qed.

End DeliveryFacts.

(** ** The handshake on the accepting side *)

Section HandshakeFacts.
Import Pipe.
Context {hdr : Headers}.

(** X16: when the checks of [accept] against an existing Pipe end in a reply
    that asks the peer to try again, the existing session is not touched:
    the messenger is unchanged and the existing Pipe is as before, except
    that WAIT queues a keepalive on it. RETRY_GLOBAL carries the existing
    Pipe's [peer_global_seq], which is above the one offered; RETRY_SESSION
    carries the existing [connect_seq] plus one, which (short of the 32-bit
    wrap) is above the one offered; RESETSESSION is sent only when the
    existing Pipe has no session ([connect_seq] 0) while the peer offers
    one; WAIT is sent only to a peer with the greater address while the
    existing Pipe is CONNECTING; and a retry is never answered with READY
    or SEQ. *)
Theorem accept_retry_keeps_session (connect : ceph_msg_connect)
  (this e : Pipe) (rnd : Z) (ms : Messenger)
  (r : ceph_msg_connect_reply) (oe' : option Pipe) (ms' : Messenger) :
  accept_existing connect this (Some e) rnd ms = (goto_reply r, oe', ms') ->
  ms' = ms /\
  match reply_tag r with
  | CEPH_MSGR_TAG_RETRY_GLOBAL =>
    oe' = Some e /\ reply_global_seq r = peer_global_seq e /\
    msg_global_seq connect < reply_global_seq r
  | CEPH_MSGR_TAG_RETRY_SESSION =>
    oe' = Some e /\ reply_connect_seq r = wrap32 (connect_seq e + 1) /\
    msg_connect_seq connect <= connect_seq e /\
    (0 <= connect_seq e < 2 ^ 32 - 1 ->
     msg_connect_seq connect < reply_connect_seq r)
  | CEPH_MSGR_TAG_RESETSESSION =>
    oe' = Some e /\ connect_seq e = 0 /\ 0 < msg_connect_seq connect
  | CEPH_MSGR_TAG_WAIT =>
    oe' = Some (_send_keepalive e) /\ state e = STATE_CONNECTING /\
    addr_lt (my_addr ms) (peer_addr this) = true /\
    msg_connect_seq connect = connect_seq e
  | CEPH_MSGR_TAG_READY | CEPH_MSGR_TAG_SEQ => False
  end.
Proof.
  unfold accept_existing, retry_session.
  destruct (Z.ltb_spec (msg_global_seq connect) (peer_global_seq e)) as [Hg|Hg].
  { intros [= <- <- <-]. simpl. repeat split; exact Hg. }
  destruct (lossy (policy e)).
  { destruct (was_session_reset rnd e ms). discriminate. }
  destruct ((msg_connect_seq connect =? 0) && (0 <? connect_seq e)).
  { destruct (resetcheck (policy this));
      [destruct (was_session_reset rnd e ms)|]; discriminate. }
  destruct (Z.ltb_spec (msg_connect_seq connect) (connect_seq e)) as [Hlt|Hge].
  { intros [= <- <- <-]. simpl. repeat split; try lia.
    intros Hb. unfold wrap32. rewrite Z.mod_small; lia. }
  destruct (Z.eqb_spec (msg_connect_seq connect) (connect_seq e)) as [Heq|Hne].
  - destruct (state_is STATE_OPEN e || state_is STATE_STANDBY e).
    { intros [= <- <- <-]. simpl. repeat split; try lia.
      intros Hb. unfold wrap32. rewrite Z.mod_small; lia. }
    destruct (addr_lt (peer_addr this) (my_addr ms) || server (policy e)).
    { destruct (state_is STATE_CONNECTING e || state_is STATE_WAIT e);
        discriminate. }
    destruct (addr_lt (my_addr ms) (peer_addr this)) eqn:Ha;
      [|discriminate]. simpl negb. cbv iota.
    destruct (state_is STATE_CONNECTING e) eqn:Hs; [|discriminate].
    simpl negb. cbv iota.
    intros [= <- <- <-]. simpl. repeat split; try assumption.
    apply bool_decide_eq_true in Hs. exact Hs.
  - destruct (resetcheck (policy this) && (connect_seq e =? 0)) eqn:Hrc;
      [|discriminate].
    intros [= <- <- <-]. simpl.
    apply andb_true_iff in Hrc as [_ Hz]. apply Z.eqb_eq in Hz.
    repeat split; [exact Hz|lia].
Qed.

(** *** Resuming a replaced session *)

Lemma numbered_lower (l : list Message) :
  forall o, 0 <= o -> o + Z.of_nat (length l) < 2 ^ 64 -> numbered o l ->
  Forall (fun m => o < get_seq m) l.
Proof.
  induction l as [|m l IH]; intros o Ho Hb Hn; [constructor|].
  simpl length in Hb. destruct Hn as [Hm Hn].
  rewrite wrap64_small in Hm, Hn by lia.
  constructor; [lia|].
  eapply Forall_impl; [apply (IH (o + 1)); [lia|lia|exact Hn]|].
  simpl. intros; lia.
Qed.

(** On requeued messages that carry consecutive seqs, the scan of
    [discard_requeued_up_to] drops exactly those the peer has acked. *)
Lemma discard_loop_filter (acked : Z) (l1 l2 : list Message) :
  forall o, 0 <= o -> o + Z.of_nat (length l1) < 2 ^ 64 ->
  numbered o l1 -> stops_scan acked l2 ->
  discard_loop acked (l1 ++ l2) o =
    (filter (fun m => acked < get_seq m) l1 ++ l2,
     o + Z.of_nat (length l1) -
     Z.of_nat (length (filter (fun m => acked < get_seq m) l1))).
Proof.
  induction l1 as [|m l1 IH]; intros o Ho Hb Hn Hstop.
  - simpl. rewrite Z.add_0_r, Z.sub_0_r.
    destruct l2 as [|m l2]; [reflexivity|]. simpl.
    destruct (Hstop m eq_refl) as [H0|Hgt].
    + rewrite H0. reflexivity.
    + destruct (Z.ltb_spec acked (get_seq m)); [|lia].
      rewrite orb_true_r. reflexivity.
  - pose proof (numbered_lower (m :: l1) o Ho Hb Hn) as Hlow.
    simpl length in Hb. destruct Hn as [Hm Hn].
    rewrite wrap64_small in Hm, Hn by lia.
    simpl app. simpl discard_loop.
    destruct (Z.eqb_spec (get_seq m) 0) as [H0|_]; [lia|]. simpl orb.
    destruct (Z.ltb_spec acked (get_seq m)) as [Hgt|Hle].
    + rewrite (filter_Forall_id (fun m => acked < get_seq m) (m :: l1)).
      * simpl length. f_equal. lia.
      * eapply Forall_impl; [exact Hlow|]. simpl. intros; lia.
    + rewrite filter_cons_False by lia.
      rewrite wrap64_small by lia.
      rewrite (IH (o + 1)) by (try lia; assumption).
      f_equal. simpl length. lia.
Qed.

(** X17: resuming a replaced session. The accepting Pipe replaces a reliable
    Pipe whose [sent] carries the consecutive seqs that end at [out_seq],
    and then learns the seq the peer has received ([newly_acked_seq]). After
    [discard_requeued_up_to], the front of [out_q[CEPH_MSG_PRIO_HIGHEST]]
    holds exactly the old Pipe's sent messages with a seq above the acked
    one, in their order, followed by what was queued and never sent, and
    [out_seq] is the old [out_seq] less their number. The writer takes the
    highest priority first: when neither Pipe has a message queued at a
    priority above CEPH_MSG_PRIO_HIGHEST, its next turns write exactly
    these messages, each under the seq it was first sent with, also when
    messages are submitted between these turns at priorities up to
    CEPH_MSG_PRIO_HIGHEST. *)
Theorem accept_replace_resends_unacked (connect : ceph_msg_connect)
  (this e : Pipe) (ms : Messenger) (acked : Z) :
  lossy (policy e) = false ->
  uint64 (out_seq e) -> Z.of_nat (length (sent e)) <= out_seq e ->
  sent_numbered e ->
  stops_scan acked (bucket (out_q e) CEPH_MSG_PRIO_HIGHEST ++
                    bucket (out_q this) CEPH_MSG_PRIO_HIGHEST) ->
  let this' := (accept_replace connect this e ms).1.1.1 in
  let this2 := discard_requeued_up_to acked this' in
  let unacked := filter (fun m => acked < get_seq m) (sent e) in
  let queued := bucket (out_q e) CEPH_MSG_PRIO_HIGHEST ++
                bucket (out_q this) CEPH_MSG_PRIO_HIGHEST in
  bucket (out_q this2) CEPH_MSG_PRIO_HIGHEST = unacked ++ queued /\
  out_seq this2 = out_seq e - Z.of_nat (length unacked) /\
  (none_above CEPH_MSG_PRIO_HIGHEST (out_q e) ->
   none_above CEPH_MSG_PRIO_HIGHEST (out_q this) ->
   (exists p',
      writer_drain (length unacked) this2 = Some (unacked, p') /\
      bucket (out_q p') CEPH_MSG_PRIO_HIGHEST = queued) /\
   (forall submitted,
      length submitted = length unacked ->
      Forall (Forall (fun m => get_priority m <= CEPH_MSG_PRIO_HIGHEST))
        submitted ->
      exists p', writer_drain_sends submitted this2 = Some (unacked, p'))).
Proof.
  intros Hl Ho Hlen Hnum Hstop this' this2 unacked queued.
  destruct (accept_replace_outbound connect this e ms Hl Ho)
    as (Hb & Hk & Hseq & _).
  fold this' in Hb, Hk, Hseq. fold queued in Hb.
  unfold uint64 in Ho.
  set (o := out_seq e - Z.of_nat (length (sent e))) in *.
  rewrite wrap64_small in Hseq by lia.
  unfold sent_numbered in Hnum. fold o in Hnum.
  rewrite wrap64_small in Hnum by lia.
  assert (Hloop := discard_loop_filter acked (sent e) queued o
                     ltac:(lia) ltac:(lia) Hnum Hstop).
  fold unacked in Hloop.
  destruct (discard_loop_numbered acked (sent e) queued o Hnum Hstop)
    as (j & Hj1 & Hj2).
  rewrite Hloop in Hj1, Hj2. simpl in Hj1, Hj2.
  apply app_inv_tail in Hj1. rewrite <- Hj1 in Hj2.
  assert (H2 : this2 =
    set_out_seq (o + Z.of_nat (length (sent e)) - Z.of_nat (length unacked))
      (set_out_q (<[CEPH_MSG_PRIO_HIGHEST := unacked ++ queued]> (out_q this'))
         this')).
  { subst this2. unfold discard_requeued_up_to.
    rewrite Hb, Hseq, Hloop. reflexivity. }
  assert (Hb2 : bucket (out_q this2) CEPH_MSG_PRIO_HIGHEST = unacked ++ queued).
  { rewrite H2. simpl. apply bucket_insert_eq. }
  assert (Ho2 : out_seq this2 = out_seq e - Z.of_nat (length unacked)).
  { rewrite H2. simpl. subst o. lia. }
  split; [exact Hb2|]. split; [exact Ho2|].
  intros Hae Hat.
  assert (Habove : none_above CEPH_MSG_PRIO_HIGHEST (out_q this')).
  { apply none_above_bucket. intros k' Hk'.
    rewrite Hk by lia.
    rewrite (proj1 (none_above_bucket _ _) Hae k' Hk').
    rewrite (proj1 (none_above_bucket _ _) Hat k' Hk'). reflexivity. }
  assert (Ha2 : none_above CEPH_MSG_PRIO_HIGHEST (out_q this2)).
  { rewrite H2. simpl. apply none_above_insert. exact Habove. }
  assert (Hn2 : numbered (out_seq this2) unacked).
  { rewrite H2. simpl. exact Hj2. }
  split.
  - apply (writer_drain_numbered unacked queued this2 CEPH_MSG_PRIO_HIGHEST);
      assumption.
  - intros submitted Hlen' Hsub.
    destruct (writer_drain_sends_order CEPH_MSG_PRIO_HIGHEST unacked
                submitted queued this2 Hlen' Hsub Hb2 Ha2)
      as (l' & p' & Hd & _ & Hn).
    exists p'. rewrite Hd, (Hn Hn2). reflexivity.
Qed.

(** X18: the replacement also hands over the inbound side: the accepting Pipe
    takes the old Pipe's [conn_id] and [in_seq], and the old Pipe's delayed
    messages are flushed to the dispatch queue first, so the messages that
    wait for the dispatcher under the new Pipe are those that waited under
    the old one, in the same order (followed by what the accepting Pipe
    had delayed itself). *)
Theorem accept_replace_hands_over_inbound (connect : ceph_msg_connect)
  (this e : Pipe) (ms : Messenger) :
  lossy (policy e) = false ->
  let r := accept_replace connect this e ms in
  in_seq r.1.1.1 = in_seq e /\
  inbound_seqs r.1.1.1 r.1.2 =
    inbound_seqs e ms ++
    map (fun x => get_seq x.2) (default [] (delay_thread this)).
Proof.
  intros Hl r. subst r. unfold accept_replace.
  change (lossy (policy (stop e))) with (lossy (policy e)).
  rewrite Hl. simpl negb. cbv iota.
  set (e0 := stop e).
  set (ms0 := reset_pipe _ _ (unregister_pipe e0 ms)).
  destruct (flush_delayed_frame e0 ms0) as (_ & _ & _ & _ & _ & _ & _ & _ & Hin).
  destruct (flush_delayed_pipe e0 ms0) as (Hid & _).
  destruct (flush_delayed_queue e0 ms0) as (Hq & _).
  destruct (flush_delayed e0 ms0) as [e1 ms1].
  simpl in Hin, Hid, Hq. simpl fst. simpl snd.
  split; [exact Hin|].
  unfold inbound_seqs. simpl. rewrite Hid, Hq.
  rewrite unregister_pipe_queue.
  rewrite filter_app, filter_delivered, map_app, map_delivered.
  reflexivity.
Qed.

End HandshakeFacts.

(** ** The writer *)

Section WriterFacts.
Import Pipe.
Context {hdr : Headers}.

Lemma sent_consistent_same (p p' : Pipe) :
  same_outbound p p' -> sent_consistent p -> sent_consistent p'.
Proof.
  unfold same_outbound, sent_consistent, sent_numbered.
  intros (-> & -> & -> & ->) H. exact H.
Qed.

Lemma sent_consistent_empty (p : Pipe) : sent p = [] -> sent_consistent p.
Proof.
  unfold sent_consistent, sent_numbered. intros ->. split; [exact I|].
  reflexivity.
Qed.

Lemma fault_sent_consistent (conf : Config) (onread : bool)
  (p : Pipe) (ms : Messenger) :
  sent_consistent p -> sent_consistent (fault conf onread p ms).1.
Proof.
  intros H. destruct (fault_cases onread p) as [He|[Hf|Hr]].
  - rewrite (fault_early conf onread p ms He). simpl.
    apply (sent_consistent_same p); [repeat split|exact H].
  - rewrite (fault_lossy_shape conf onread p ms Hf). cbv zeta. simpl.
    apply sent_consistent_empty. reflexivity.
  - rewrite (fault_reliable_shape conf onread p ms Hr). cbv zeta. simpl fst.
    destruct (requeue_sent_frame
                (flush_delayed (shutdown_socket (cond_Signal p)) ms).1)
      as (Hs & _).
    remember (requeue_sent _) as p2 eqn:Hp2. clear Hp2.
    apply sent_consistent_empty.
    repeat (match goal with
            | |- context [if ?b then _ else _] => destruct b
            end); exact Hs.
Qed.

Lemma handle_ack_sent_consistent (seq : Z) (p : Pipe) :
  sent_consistent p -> sent_consistent (handle_ack seq p).
Proof.
  intros [Hn He]. split; [apply handle_ack_sent_numbered, Hn|].
  rewrite handle_ack_sent.
  assert (Hpol : lossy (policy (handle_ack seq p)) = lossy (policy p) /\
                 close_on_empty (handle_ack seq p) = close_on_empty p).
  { clear Hn He. unfold handle_ack. simpl.
    destruct (trim_sent seq (sent p));
      [destruct (close_on_empty p) eqn:Hc|]; simpl; rewrite ?Hc;
      split; reflexivity. }
  destruct Hpol as [-> ->]. intros Hl Hc. rewrite (He Hl Hc). reflexivity.
Qed.

Lemma writer_grab_sent_consistent (p p' : Pipe) (m : Message) :
  writer_grab p = Some (m, p') -> sent_consistent p -> sent_consistent p'.
Proof.
  intros Hg [Hn He].
  destruct (negb (lossy (policy p)) || close_on_empty p) eqn:Hrec.
  - split; [exact (writer_grab_sent_numbered p p' m Hrec Hg Hn)|].
    unfold writer_grab in Hg.
    destruct (_get_next_outgoing (out_q p)) as [[m0 q']|]; [|discriminate].
    simpl in Hg. rewrite Hrec in Hg. injection Hg as <- <-. simpl.
    intros Hl Hc. rewrite Hl, Hc in Hrec. discriminate.
  - apply orb_false_iff in Hrec as [Hl Hc]. apply negb_false_iff in Hl.
    unfold writer_grab in Hg.
    destruct (_get_next_outgoing (out_q p)) as [[m0 q']|]; [|discriminate].
    simpl in Hg. rewrite Hl, Hc in Hg. simpl in Hg. injection Hg as <- <-.
    apply sent_consistent_empty. simpl. exact (He Hl Hc).
Qed.

Lemma read_message_same_outbound (w : wire) (p : Pipe) (ms : Messenger) :
  let '(r, om, p', ms') := read_message w p ms in same_outbound p p'.
Proof.
  unfold read_message.
  destruct (w_header w) as [header|]; [|repeat split].
  destruct (negb (w_header_crc w =? crc header)); [repeat split|].
  set (size := wrap32 _).
  assert (Ha : same_outbound p (acquire_throttles size p ms).1).
  { unfold acquire_throttles. destruct (size =? 0); repeat split. }
  destruct (acquire_throttles size p ms) as [p1 ms1]. simpl in Ha.
  assert (Hd : forall ret : Z,
    let '(r, om, p', ms') :=
      (let '(p0, ms0) := out_dethrottle size p1 ms1 in
       (ret, @None Message, p0, ms0)) in
    same_outbound p p').
  { intros ret.
    assert (Ho : same_outbound p1 (out_dethrottle size p1 ms1).1).
    { unfold out_dethrottle. destruct (size =? 0); repeat split. }
    destruct (out_dethrottle size p1 ms1) as [p2 ms2]. simpl in Ho.
    destruct Ha as (A1 & A2 & A3 & A4), Ho as (B1 & B2 & B3 & B4).
    repeat split; congruence. }
  repeat (match goal with
          | |- context [if ?b then _ else _] => destruct b
          | |- context [match w_footer_flags w with _ => _ end] =>
            destruct (w_footer_flags w)
          | |- context [match w_decoded w with _ => _ end] =>
            destruct (w_decoded w)
          end; try apply Hd).
  exact Ha.
Qed.

Lemma reader_sent_consistent (conf : Config) (i : reader_input)
  (p : Pipe) (ms : Messenger) :
  sent_consistent p -> sent_consistent (reader conf i p ms).1.
Proof.
  intros H. unfold reader.
  destruct (_ || _); [exact H|].
  destruct (state_is STATE_STANDBY p); [exact H|].
  destruct i as [| |rc seq|w release| |].
  - apply fault_sent_consistent, H.
  - exact H.
  - destruct (rc <? 0); [apply fault_sent_consistent, H|].
    destruct (negb _); simpl; [apply handle_ack_sent_consistent|]; exact H.
  - pose proof (read_message_same_outbound w p ms) as Hf.
    destruct (read_message w p ms) as [[[r om] p1] ms1].
    pose proof (sent_consistent_same p p1 Hf H) as H1.
    destruct om as [m|].
    + destruct (_ || _); [exact H1|].
      destruct (get_seq m <=? in_seq p1); [exact H1|].
      cbv zeta.
      destruct (delay_thread _); simpl;
        (apply (sent_consistent_same p1); [repeat split|exact H1]).
    + destruct (r <? 0); [apply fault_sent_consistent|]; exact H1.
  - destruct (state_is STATE_CLOSING p); simpl;
      (apply (sent_consistent_same p); [repeat split|exact H]).
  - apply fault_sent_consistent, H.
Qed.

Lemma writer_sent_consistent (conf : Config) (io : writer_io)
  (p : Pipe) (ms : Messenger) :
  sent_consistent p -> sent_consistent (writer conf io p ms).1.2.
Proof.
  intros H. unfold writer.
  destruct (state_is STATE_CLOSED p); [exact H|].
  match goal with
  | |- context [state_is STATE_CONNECTING ?q] =>
    assert (H0 : sent_consistent q)
      by (destruct (_ && negb (server (policy p)));
          [apply (sent_consistent_same p); [repeat split|exact H]|exact H]);
    generalize dependent q; intros p0 H0
  end.
  destruct (state_is STATE_CONNECTING p0).
  { destruct (server (policy p0)); exact H0. }
  destruct (state_is STATE_CLOSING p0).
  { simpl. apply (sent_consistent_same p0); [repeat split|exact H0]. }
  simpl negb. simpl andb.
  destruct (negb (state_is STATE_WAIT p0) && _ && _).
  - destruct (keepalive p0 && _).
    { pose proof (fault_sent_consistent conf false p0 ms H0) as Hf.
      destruct (fault conf false p0 ms). exact Hf. }
    cbv zeta.
    match goal with
    | |- context [in_seq_acked ?q <? in_seq ?q] =>
      assert (H1 : sent_consistent q)
        by (destruct (keepalive p0);
            [apply (sent_consistent_same p0); [repeat split|exact H0]
            |exact H0]);
      generalize dependent q; intros p1 H1
    end.
    destruct ((in_seq_acked p1 <? in_seq p1) && _).
    { pose proof (fault_sent_consistent conf false p1 ms H1) as Hf.
      destruct (fault conf false p1 ms). exact Hf. }
    match goal with
    | |- context [writer_grab ?q] =>
      assert (H2 : sent_consistent q)
        by (destruct (in_seq_acked p1 <? in_seq p1);
            [apply (sent_consistent_same p1); [repeat split|exact H1]
            |exact H1]);
      generalize dependent q; intros p2 H2
    end.
    destruct (writer_grab p2) as [[m p3]|] eqn:Hg; [|exact H2].
    pose proof (writer_grab_sent_consistent p2 p3 m Hg H2) as H3.
    destruct (write_message_rc io <? 0); [|exact H3].
    pose proof (fault_sent_consistent conf false p3 ms H3) as Hf.
    destruct (fault conf false p3 ms). exact Hf.
  - destruct (sent p0) eqn:Hs; [|exact H0].
    destruct (close_on_empty p0); [|exact H0].
    simpl. apply sent_consistent_empty. exact Hs.
Qed.

(** X19: the writer's bookkeeping is an invariant. When [sent] carries the
    consecutive seqs that end at [out_seq] (and a Pipe that does not record
    what it sends has an empty [sent]), this still holds after any turn of
    the writer, whatever its writes return, after any turn of the reader,
    whatever it reads, and after a fault. This is what [requeue_sent] relies
    on when it takes [out_seq] back by one per message. *)
Theorem sent_consistent_invariant (conf : Config) (p : Pipe) (ms : Messenger) :
  sent_consistent p ->
  (forall io, sent_consistent (writer conf io p ms).1.2) /\
  (forall i, sent_consistent (reader conf i p ms).1) /\
  (forall onread, sent_consistent (fault conf onread p ms).1).
Proof.
  intros H. split; [|split].
  - intros io. apply writer_sent_consistent, H.
  - intros i. apply reader_sent_consistent, H.
  - intros onread. apply fault_sent_consistent, H.
Qed.

Lemma get_next_outgoing_queued (q q' : gmap Z (list Message)) (m : Message) :
  _get_next_outgoing q = Some (m, q') -> q <> ∅.
Proof.
  intros H ->. unfold _get_next_outgoing, top_priority in H.
  rewrite map_fold_empty in H. discriminate.
Qed.

Lemma fault_recovers_state (conf : Config) (onread : bool)
  (p : Pipe) (ms : Messenger) :
  fault_recovers onread p ->
  state (fault conf onread p ms).1 = STATE_STANDBY \/
  state (fault conf onread p ms).1 = STATE_CONNECTING.
Proof.
  intros Hr. rewrite (fault_reliable_shape conf onread p ms Hr). cbv zeta.
  simpl fst. remember (requeue_sent _) as p2 eqn:Hp2. clear Hp2.
  destruct (standby (policy p2) && negb (is_queued p2)); [left; reflexivity|].
  destruct (state_is STATE_CONNECTING p2) eqn:Hs; simpl.
  - apply bool_decide_eq_true in Hs.
    destruct (backoff p2 =? 0); right; exact Hs.
  - destruct (server (policy p2)); [left|right]; reflexivity.
Qed.

(** X20: a failed write loses nothing on a reliable Pipe. When the writer of
    an OPEN, reliable Pipe has taken the next message [m0] from [out_q],
    numbered it and [write_message] fails, the turn ends with the message
    back in the queue: [out_q[CEPH_MSG_PRIO_HIGHEST]] starts with the
    unacknowledged messages of [sent], then the message under the seq it was
    given, then what that bucket held; [sent] is empty, [out_seq] is taken
    back to before the first of them, no message is reported written, and
    the Pipe is in STANDBY or CONNECTING. *)
Theorem writer_failed_write_requeues (conf : Config) (io : writer_io)
  (p : Pipe) (ms : Messenger) (m0 : Message) (q' : gmap Z (list Message)) :
  state p = STATE_OPEN -> lossy (policy p) = false ->
  _get_next_outgoing (out_q p) = Some (m0, q') ->
  (keepalive p = true -> 0 <= write_keepalive_rc io) ->
  (in_seq_acked p < in_seq p -> 0 <= write_ack_rc io) ->
  write_message_rc io < 0 ->
  let r := writer conf io p ms in
  let p' := r.1.2 in
  let m := set_seq (wrap64 (out_seq p + 1)) m0 in
  r.1.1.1 = writer_continue /\
  Forall (fun w => w <> wrote_message m) r.1.1.2 /\
  bucket (out_q p') CEPH_MSG_PRIO_HIGHEST =
    sent p ++ m :: bucket q' CEPH_MSG_PRIO_HIGHEST /\
  (forall k, k <> CEPH_MSG_PRIO_HIGHEST -> out_q p' !! k = q' !! k) /\
  sent p' = [] /\
  out_seq p' = wrap64 (out_seq p - Z.of_nat (length (sent p))) /\
  (state p' = STATE_STANDBY \/ state p' = STATE_CONNECTING).
Proof.
  intros Hs Hl Hnext Hk Ha Hm r p' m. subst r p'.
  pose proof (get_next_outgoing_queued _ _ _ Hnext) as Hq.
  assert (Hiq : is_queued p = true).
  { unfold is_queued. rewrite (bool_decide_eq_false_2 _ Hq). reflexivity. }
  unfold writer. decide_state. rewrite Hiq. simpl andb. cbv iota.
  decide_state. rewrite Hiq. simpl negb. simpl andb. simpl orb. cbv iota.
  replace (keepalive p && (write_keepalive_rc io <? 0)) with false.
  2:{ destruct (keepalive p); [|reflexivity]. simpl.
      destruct (Z.ltb_spec (write_keepalive_rc io) 0); [|reflexivity].
      specialize (Hk eq_refl). lia. }
  cbv zeta.
  set (p1 := if keepalive p then set_keepalive false p else p).
  assert (E1 : in_seq_acked p1 = in_seq_acked p /\ in_seq p1 = in_seq p)
    by (subst p1; destruct (keepalive p); split; reflexivity).
  destruct E1 as [-> ->].
  replace ((in_seq_acked p <? in_seq p) && (write_ack_rc io <? 0)) with false.
  2:{ destruct (Z.ltb_spec (in_seq_acked p) (in_seq p)); [|reflexivity]. simpl.
      destruct (Z.ltb_spec (write_ack_rc io) 0); [|reflexivity].
      specialize (Ha ltac:(assumption)). lia. }
  set (p2 := if in_seq_acked p <? in_seq p
             then set_in_seq_acked (in_seq p) p1 else p1).
  assert (E2 : out_q p2 = out_q p /\ out_seq p2 = out_seq p /\
               sent p2 = sent p /\ policy p2 = policy p /\
               state p2 = state p).
  { subst p2 p1. destruct (in_seq_acked p <? in_seq p), (keepalive p);
      repeat split. }
  destruct E2 as (Eq & Eo & Es & Ep & Est).
  unfold writer_grab. rewrite Eq, Hnext, Eo. cbv zeta.
  replace (lossy (policy (set_out_seq (wrap64 (out_seq p + 1))
                            (set_out_q q' p2)))) with false
    by (simpl; rewrite Ep, Hl; reflexivity).
  simpl negb. simpl orb. cbv iota.
  destruct (Z.ltb_spec (write_message_rc io) 0) as [_|?]; [|lia].
  set (p3 := set_sent _ _).
  assert (Hr : fault_recovers false p3).
  { unfold fault_recovers. subst p3. simpl. rewrite Est, Hs, Ep, Hl.
    repeat split; try discriminate; left; reflexivity. }
  assert (Ho3 : uint64 (out_seq p3)).
  { subst p3. simpl. unfold uint64, wrap64.
    apply Z.mod_pos_bound. lia. }
  destruct (fault_recovers_spec conf false p3 ms Hr Ho3)
    as (Hb & Hrest & Hsent & Hseq & _).
  pose proof (fault_recovers_state conf false p3 ms Hr) as Hst.
  destruct (fault conf false p3 ms) as [p4 ms4].
  simpl fst in *. simpl snd in *.
  subst p3. simpl in Hb, Hrest, Hseq. rewrite Es in Hb, Hseq.
  split; [reflexivity|]. split.
  { apply Forall_app. split.
    - destruct (keepalive p); repeat constructor. discriminate.
    - destruct (in_seq_acked p <? in_seq p); repeat constructor. discriminate. }
  split.
  { rewrite Hb, <- app_assoc. reflexivity. }
  split; [exact Hrest|]. split; [exact Hsent|]. split; [|exact Hst].
  rewrite Hseq, length_app, wrap64_sub_wrap. simpl length. f_equal. lia.
Qed.

End WriterFacts.

(** ** Framing: write_message over do_sendmsg *)

Section FramingFacts.
Import Pipe.
Context {A : Type}.

Lemma concat_trim_iov_any (iov : list (list A)) (r : Z) :
  0 <= r -> concat (trim_iov iov r) = drop (Z.to_nat r) (concat iov).
Proof.
  revert r. induction iov as [|v iov IH]; intros r Hr;
    [simpl; by rewrite drop_nil|].
  simpl trim_iov.
  destruct (Z.leb_spec r 0) as [H0|Hpos].
  - replace (Z.to_nat r) with 0%nat by lia. reflexivity.
  - destruct (Z.leb_spec (Z.of_nat (length v)) r) as [Hge|Hlt].
    + rewrite IH by lia. simpl concat. rewrite drop_app_ge by lia.
      f_equal. lia.
    + simpl concat. rewrite drop_app_le by lia. reflexivity.
Qed.

(** What [do_sendmsg] leaves on the wire, whatever [rsendmsg] returns. *)
Lemma do_sendmsg_prefix (calls : list (Z * bool)) (iov : list (list A))
  (len : Z) (wire : list A) :
  len = Z.of_nat (length (concat iov)) \/ (len <= 0 /\ concat iov = []) ->
  let r := do_sendmsg calls iov len wire in
  (exists d rest, r.2 = wire ++ d /\ concat iov = d ++ rest) /\
  (r.1 = Some 0 -> r.2 = wire ++ concat iov) /\
  (r.1 = None \/ r.1 = Some 0 \/ r.1 = Some (-1)).
Proof.
  revert iov len wire.
  assert (Hnil : forall (iov : list (list A)) len,
    len = Z.of_nat (length (concat iov)) \/ (len <= 0 /\ concat iov = []) ->
    len <= 0 -> concat iov = []).
  { intros iov len [->|[_ H]] H0; [|exact H].
    apply length_zero_iff_nil. lia. }
  induction calls as [|[r closed] calls IH]; intros iov len wire Hlen.
  - simpl. destruct (Z.leb_spec len 0) as [H0|Hpos]; simpl.
    + rewrite (Hnil iov len Hlen H0), app_nil_r.
      split; [exists [], []; by rewrite app_nil_r|]. split; auto.
    + split; [exists [], (concat iov); by rewrite app_nil_r|].
      split; [discriminate|auto].
  - simpl do_sendmsg.
    destruct (Z.leb_spec len 0) as [H0|Hpos]; simpl.
    { rewrite (Hnil iov len Hlen H0), app_nil_r.
      split; [exists [], []; by rewrite app_nil_r|]. split; auto. }
    destruct Hlen as [Hlen|[? _]]; [|lia].
    destruct (Z.ltb_spec r 0) as [Hneg|Hnn]; simpl.
    { split; [exists [], (concat iov); by rewrite app_nil_r|].
      split; [discriminate|auto]. }
    destruct closed; simpl.
    { split; [|split; [discriminate|auto]].
      exists (take (Z.to_nat r) (concat iov)), (drop (Z.to_nat r) (concat iov)).
      split; [reflexivity|by rewrite take_drop]. }
    destruct (Z.eqb_spec (len - r) 0) as [Hall|Hmore]; simpl.
    { assert (take (Z.to_nat r) (concat iov) = concat iov) as ->
        by (apply take_ge; lia).
      split; [exists (concat iov), []; by rewrite app_nil_r|].
      split; [reflexivity|auto]. }
    assert (Hc : concat (trim_iov iov r) = drop (Z.to_nat r) (concat iov))
      by (apply concat_trim_iov_any; lia).
    destruct (IH (trim_iov iov r) (len - r)
                (wire ++ take (Z.to_nat r) (concat iov)))
      as ((d & rest & Hd & Hrest) & Hall & Hret).
    { rewrite Hc, length_drop.
      destruct (Z.le_gt_cases r len) as [Hle|Hgt]; [left; lia|].
      right. split; [lia|]. apply drop_ge. lia. }
    split; [|split; [|exact Hret]].
    + exists (take (Z.to_nat r) (concat iov) ++ d), rest.
      rewrite Hd, <- !app_assoc, <- Hrest, Hc, take_drop. split; reflexivity.
    + intros H. rewrite (Hall H), Hc, <- app_assoc, take_drop. reflexivity.
Qed.

Lemma to_int_small (z : Z) : - 2 ^ 31 <= z <= INT_MAX -> to_int z = z.
Proof.
  unfold to_int, INT_MAX. intros H. rewrite Z.mod_small by lia. lia.
Qed.

Lemma to_int_large (z : Z) : 2 ^ 31 <= z < 2 ^ 32 -> to_int z = z - 2 ^ 32.
Proof.
  unfold to_int. intros H.
  replace (z + 2 ^ 31) with (z - 2 ^ 31 + 1 * 2 ^ 32) by lia.
  rewrite Z.mod_add by lia. rewrite Z.mod_small by lia. lia.
Qed.

Lemma advance_spec (pb : list (list A)) :
  Z.of_nat (length (concat pb)) <= INT_MAX ->
  exists pb', advance pb 0 = (pb', 0) /\ concat pb' = concat pb /\
    (length pb' <= length pb)%nat /\
    (pb' = [] \/ exists b rest, pb' = b :: rest /\ b <> []).
Proof.
  induction pb as [|b pb IH]; intros Hmax.
  - exists []. simpl. repeat split; [lia|left; reflexivity].
  - simpl concat in Hmax. rewrite length_app in Hmax.
    simpl. rewrite to_int_small by (unfold INT_MAX in *; lia).
    destruct b as [|x b].
    + destruct IH as (pb' & H1 & H2 & H3 & H4); [simpl in Hmax; lia|].
      simpl. exists pb'. repeat split; [exact H1|exact H2|lia|exact H4].
    + exists ((x :: b) :: pb). simpl length.
      destruct (Z.eqb_spec 0 (Z.of_nat (S (length b)))); [lia|].
      repeat split; [lia|]. right. eexists _, _. split; [reflexivity|].
      discriminate.
Qed.

Lemma frames_behind (wire sent_bytes msg : list A) (r : write_result) :
  frames (wire ++ sent_bytes) msg r -> frames wire (sent_bytes ++ msg) r.
Proof.
  destruct r as [ret w| | | | |]; simpl; try tauto.
  intros [[-> ->]|[-> (d & rest & -> & ->)]].
  - left. by rewrite app_assoc.
  - right. split; [reflexivity|]. exists (sent_bytes ++ d), rest.
    by rewrite !app_assoc.
Qed.

Lemma write_footer_frames (sends : list (list (Z * bool)))
  (iov : list (list A)) (msglen : Z) (footer wire : list A) :
  msglen = Z.of_nat (length (concat iov)) ->
  msglen + Z.of_nat (length footer) <= INT_MAX ->
  frames wire (concat iov ++ footer) (write_footer sends iov msglen footer wire).
Proof.
  intros Hm Hmax. unfold write_footer.
  destruct sends as [|calls sends]; [exact I|].
  rewrite to_int_small by lia.
  assert (Hc : concat (iov ++ [footer]) = concat iov ++ footer)
    by (rewrite concat_app; simpl; by rewrite app_nil_r).
  destruct (do_sendmsg_prefix calls (iov ++ [footer])
              (msglen + Z.of_nat (length footer)) wire)
    as ((d & rest & Hd & Hrest) & Hall & Hret).
  { left. rewrite Hc, length_app. lia. }
  rewrite Hc in Hrest, Hall.
  destruct (do_sendmsg calls (iov ++ [footer]) _ wire) as [[r|] w];
    [|exact I].
  simpl in Hd, Hall, Hret.
  destruct (Z.eqb_spec r 0) as [->|Hne]; simpl.
  - left. split; [reflexivity|]. apply Hall. reflexivity.
  - right. split; [reflexivity|]. exists d, rest. split; assumption.
Qed.

Lemma write_payload_frames (IOV_MAX : Z) (footer : list A) (turns : nat) :
  forall sends iov msglen pb b_off left wire,
  msglen = Z.of_nat (length (concat iov)) ->
  0 <= b_off ->
  left = Z.of_nat (length (drop (Z.to_nat b_off) (concat pb))) ->
  (0 < left -> exists b rest, pb = b :: rest /\ b_off < Z.of_nat (length b)) ->
  (length pb <= turns)%nat ->
  msglen + left + Z.of_nat (length footer) <= INT_MAX ->
  Z.of_nat (length (concat pb)) <= INT_MAX ->
  frames wire (concat iov ++ drop (Z.to_nat b_off) (concat pb) ++ footer)
    (write_payload IOV_MAX turns sends iov msglen pb b_off left footer wire).
Proof.
  induction turns as [|turns IH];
    intros sends iov msglen pb b_off left wire Hm Hb Hl Hhead Hturns Hmax Hpb.
  - assert (pb = []) as -> by (destruct pb; [reflexivity|simpl in Hturns; lia]).
    simpl in Hl. rewrite drop_nil in Hl. simpl in Hl. subst left.
    simpl concat. rewrite drop_nil. simpl.
    apply write_footer_frames; [exact Hm|lia].
  - cbn [write_payload].
    destruct (Z.leb_spec left 0) as [H0|Hpos].
    { assert (left = 0) as -> by lia. simpl.
      assert (drop (Z.to_nat b_off) (concat pb) = []) as ->
        by (apply length_zero_iff_nil; lia).
      simpl. apply write_footer_frames; [exact Hm|lia]. }
    destruct (Hhead Hpos) as (b & rest & -> & Hoff).
    simpl concat in *. rewrite drop_app_le in Hl |- * by lia.
    rewrite length_app in Hpb.
    rewrite length_app, length_drop in Hl.
    set (c := concat rest) in *.
    rewrite to_int_small by (unfold INT_MAX in *; lia).
    destruct (Z.ltb_spec (Z.of_nat (length b) - b_off) (- 2 ^ 31)) as [?|_];
      [lia|].
    destruct (Z.ltb_spec INT_MAX (Z.of_nat (length b) - b_off)) as [?|_];
      [lia|].
    simpl orb. cbv iota.
    replace (Z.min left (Z.of_nat (length b) - b_off))
      with (Z.of_nat (length b) - b_off) by lia.
    destruct (Z.leb_spec (Z.of_nat (length b) - b_off) 0) as [?|_]; [lia|].
    assert (Hslice : take (Z.to_nat (Z.of_nat (length b) - b_off))
                       (drop (Z.to_nat b_off) b) = drop (Z.to_nat b_off) b)
      by (apply take_ge; rewrite length_drop; lia).
    rewrite Hslice.
    set (donow := Z.of_nat (length b) - b_off) in *.
    assert (Hg : forall sends1 iov1 msglen1 wire1,
      msglen1 = Z.of_nat (length (concat iov1)) ->
      msglen1 + left + Z.of_nat (length footer) <= INT_MAX ->
      frames wire1 (concat iov1 ++ (drop (Z.to_nat b_off) b ++ c) ++ footer)
        (if INT_MAX <? msglen1 + donow then write_overflows
         else if left - donow <? 0 then write_asserts
         else if left - donow =? 0
         then write_footer sends1 (iov1 ++ [drop (Z.to_nat b_off) b])
                (msglen1 + donow) footer wire1
         else
           let '(pb, b_off0) := advance (b :: rest) (b_off + donow) in
           write_payload IOV_MAX turns sends1
             (iov1 ++ [drop (Z.to_nat b_off) b]) (msglen1 + donow)
             pb b_off0 (left - donow) footer wire1)).
    { intros sends1 iov1 msglen1 wire1 Hm1 Hmax1. subst donow.
      assert (Hc1 : concat (iov1 ++ [drop (Z.to_nat b_off) b]) =
                    concat iov1 ++ drop (Z.to_nat b_off) b)
        by (rewrite concat_app; simpl; by rewrite app_nil_r).
      assert (Hm2 : msglen1 + (Z.of_nat (length b) - b_off) =
                    Z.of_nat (length (concat (iov1 ++ [drop (Z.to_nat b_off) b]))))
        by (rewrite Hc1, length_app, length_drop; lia).
      destruct (Z.ltb_spec INT_MAX (msglen1 + (Z.of_nat (length b) - b_off)))
        as [?|_]; [lia|].
      destruct (Z.ltb_spec (left - (Z.of_nat (length b) - b_off)) 0)
        as [?|_]; [lia|].
      destruct (Z.eqb_spec (left - (Z.of_nat (length b) - b_off)) 0)
        as [Hdone|Hmore].
      - assert (c = []) as -> by (apply length_zero_iff_nil; lia).
        rewrite app_nil_r, app_assoc, <- Hc1.
        apply write_footer_frames; [exact Hm2|lia].
      - replace (b_off + (Z.of_nat (length b) - b_off))
          with (Z.of_nat (length b)) by lia.
        simpl advance. rewrite to_int_small by (unfold INT_MAX in *; lia).
        rewrite Z.eqb_refl.
        destruct (advance_spec rest) as (pb' & -> & Hcat & Hlen & Hne);
          [fold c; lia|].
        rewrite <- app_assoc, app_assoc, <- Hc1.
        change c with (concat rest). rewrite <- Hcat.
        change (concat pb') with (drop (Z.to_nat 0) (concat pb')) at 1.
        apply IH.
        + exact Hm2.
        + lia.
        + change (Z.to_nat 0) with 0%nat. rewrite drop_0, Hcat. subst c. lia.
        + intros Hleft. destruct Hne as [->|(b' & rest' & -> & Hb')].
          * simpl in Hcat. assert (length c = 0)%nat
              by (unfold c; rewrite <- Hcat; reflexivity). lia.
          * exists b', rest'. split; [reflexivity|].
            destruct b'; [contradiction|simpl; lia].
        + simpl in Hturns. lia.
        + lia.
        + rewrite Hcat. fold c. lia. }
    destruct (Z.leb_spec (wrap64 (IOV_MAX - 2)) (Z.of_nat (length iov)))
      as [Hfull|_].
    + destruct sends as [|calls sends]; [exact I|].
      destruct (do_sendmsg_prefix calls iov msglen wire)
        as ((d & rest' & Hd & Hrest) & Hall & Hret); [left; exact Hm|].
      destruct (do_sendmsg calls iov msglen wire) as [[r|] w]; [|exact I].
      simpl in Hd, Hall, Hret.
      destruct (Z.eqb_spec r 0) as [->|Hne].
      * rewrite (Hall eq_refl). apply frames_behind.
        apply (Hg sends [] 0 (wire ++ concat iov)); [reflexivity|lia].
      * simpl. right. split; [reflexivity|].
        exists d, (rest' ++ (drop (Z.to_nat b_off) b ++ c) ++ footer).
        split; [exact Hd|]. rewrite Hrest, <- app_assoc. reflexivity.
    + apply Hg; [exact Hm|exact Hmax].
Qed.

(** X21: [write_message] frames a message whose frame (tag byte, header,
    payload and footer) is at most INT_MAX bytes long. Whatever the
    fragmentation of the payload into buffers, the value of IOV_MAX and the
    short writes of [rsendmsg], when [write_message] returns 0 the wire
    holds, behind what it held, the tag byte, the header, the payload bytes
    in order and the footer, nothing more; when it returns -1 the wire
    holds a part of that frame from its start. It ends in no other way
    while the [rsendmsg] results last: the payload loop never runs out of
    buffers or turns, no [int] leaves its range, and no assertion fails
    when the first buffer of a non-empty payload is not empty. With an
    empty buffer put in front of a non-empty payload [assert(donow > 0)]
    fails. A payload of 2^31 bytes or more, below 2^32, makes [left]
    negative: the loop is skipped, [assert(left == 0)] fails and nothing is
    sent. *)
Theorem write_message_frames (IOV_MAX : Z) (tag : A) (header footer : list A)
  (blist : list (list A)) (sends : list (list (Z * bool))) (wire : list A) :
  let payload := Z.of_nat (length (concat blist)) in
  (1 + Z.of_nat (length header) + payload + Z.of_nat (length footer)
     <= INT_MAX ->
   (concat blist = [] \/ exists b rest, blist = b :: rest /\ b <> []) ->
   frames wire (tag :: header ++ concat blist ++ footer)
     (write_message IOV_MAX tag header footer blist sends wire)) /\
  (0 < payload <= INT_MAX ->
   write_message IOV_MAX tag header footer ([] :: blist) sends wire =
     write_asserts) /\
  (2 ^ 31 <= payload < 2 ^ 32 ->
   write_message IOV_MAX tag header footer blist sends wire = write_asserts).
Proof.
  intros payload. subst payload. split; [|split].
  - intros Hmax Hfirst. unfold write_message.
    rewrite !to_int_small by (unfold INT_MAX in *; lia).
    pose proof (write_payload_frames IOV_MAX footer (length blist) sends
                  [[tag]; header] (1 + Z.of_nat (length header)) blist 0
                  (Z.of_nat (length (concat blist))) wire) as H.
    simpl in H. change (Z.to_nat 0) with 0%nat in H.
    rewrite app_nil_r, drop_0 in H.
    apply H; clear H.
    + lia.
    + lia.
    + reflexivity.
    + intros Hpos. destruct Hfirst as [Hnil|(b & rest & -> & Hb)].
      * rewrite Hnil in Hpos. simpl in Hpos. lia.
      * exists b, rest. split; [reflexivity|]. destruct b; [contradiction|].
        simpl. lia.
    + lia.
    + lia.
    + lia.
  - intros Hpay. unfold write_message. simpl concat. simpl length.
    rewrite (to_int_small (Z.of_nat (length (concat blist))))
      by (unfold INT_MAX in *; lia).
    cbn [write_payload].
    destruct (Z.leb_spec (Z.of_nat (length (concat blist))) 0) as [H0|Hpos];
      [lia|].
    change (to_int (Z.of_nat (length (@nil A))) - 0) with 0.
    change ((0 <? - 2 ^ 31) || (INT_MAX <? 0)) with false. cbv iota.
    rewrite Z.min_r by lia. reflexivity.
  - intros Hbig. unfold write_message.
    rewrite (to_int_large _ Hbig).
    destruct (length blist); cbn [write_payload].
    + destruct (Z.leb_spec (Z.of_nat (length (concat blist)) - 2 ^ 32) 0);
        [|lia].
      destruct (Z.eqb_spec (Z.of_nat (length (concat blist)) - 2 ^ 32) 0);
        [lia|reflexivity].
    + destruct (Z.leb_spec (Z.of_nat (length (concat blist)) - 2 ^ 32) 0);
        [|lia].
      destruct (Z.eqb_spec (Z.of_nat (length (concat blist)) - 2 ^ 32) 0);
        [lia|reflexivity].
Qed.

(** X22: [write_ack] and [write_keepalive] return 0 or -1. When they return 0
    the wire holds, behind what it held, the tag byte followed by the bytes
    of the seq (for an ack) or the tag byte alone (for a keepalive); in every
    case what they have added is a part of that from its start. *)
Theorem write_ack_frames (tag : A) (s : list A) (calls : list (Z * bool))
  (wire : list A) :
  let a := write_ack tag s calls wire in
  let k := write_keepalive tag calls wire in
  (a.1 = Some 0 -> a.2 = wire ++ tag :: s) /\
  (exists d rest, a.2 = wire ++ d /\ tag :: s = d ++ rest) /\
  (a.1 = None \/ a.1 = Some 0 \/ a.1 = Some (-1)) /\
  (k.1 = Some 0 -> k.2 = wire ++ [tag]) /\
  (k.2 = wire \/ k.2 = wire ++ [tag]) /\
  (k.1 = None \/ k.1 = Some 0 \/ k.1 = Some (-1)).
Proof.
  cbv zeta. unfold write_ack, write_keepalive.
  destruct (do_sendmsg_prefix calls [[tag]; s] (1 + Z.of_nat (length s)) wire)
    as (Hd & Hall & Hret).
  { left. simpl. rewrite app_nil_r. lia. }
  destruct (do_sendmsg_prefix calls [[tag]] 1 wire) as (Hd' & Hall' & Hret').
  { left. reflexivity. }
  simpl concat in *. rewrite app_nil_r in Hd, Hall.
  destruct (do_sendmsg calls [[tag]; s] _ wire) as [[r|] w];
    destruct (do_sendmsg calls [[tag]] 1 wire) as [[r'|] w'];
    simpl in *.
  all: repeat split; try exact Hd; try discriminate.
  all: try (destruct Hret as [|[[= ->]|[= ->]]]; try discriminate;
            simpl; auto; fail).
  all: try (destruct Hret' as [|[[= ->]|[= ->]]]; try discriminate;
            simpl; auto; fail).
  all: try (destruct Hd' as (d & rest & -> & Hsplit);
            destruct d as [|x [|y d]]; simpl in Hsplit;
            [left; by rewrite app_nil_r
            |injection Hsplit as -> _; right; reflexivity
            |discriminate]).
  all: try (intros Hz; destruct Hret as [|[[= ->]|[= ->]]];
            [discriminate|apply Hall; reflexivity|discriminate]).
  all: try (intros Hz; destruct Hret' as [|[[= ->]|[= ->]]];
            [discriminate|apply Hall'; reflexivity|discriminate]).
Qed.

Lemma tcp_write_loop_spec (calls : list Z) :
  forall (buf : list A) (len : Z) (wire : list A),
  len = Z.of_nat (length buf) \/ (len <= 0 /\ buf = []) ->
  match tcp_write_loop calls buf len wire with
  | tcp_write_returns rc wire' =>
    rc <= 0 /\ (rc = 0 -> wire' = wire ++ buf) /\
    exists d rest, wire' = wire ++ d /\ buf = d ++ rest
  | tcp_write_asserts => False
  | tcp_write_blocked => True
  end.
Proof.
  induction calls as [|did calls IH]; intros buf len wire Hlen.
  - simpl. destruct (Z.leb_spec len 0) as [H0|Hpos]; [|exact I].
    assert (buf = []) as ->.
    { destruct Hlen as [->|[_ H]]; [|exact H]. apply length_zero_iff_nil. lia. }
    rewrite app_nil_r. split; [lia|]. split; [reflexivity|].
    exists [], []. by rewrite app_nil_r.
  - simpl. destruct (Z.leb_spec len 0) as [H0|Hpos].
    { assert (buf = []) as ->.
      { destruct Hlen as [->|[_ H]]; [|exact H].
        apply length_zero_iff_nil. lia. }
      rewrite app_nil_r. split; [lia|]. split; [reflexivity|].
      exists [], []. by rewrite app_nil_r. }
    destruct Hlen as [Hlen|[? _]]; [|lia].
    destruct (Z.ltb_spec did 0) as [Hneg|Hnn].
    { split; [lia|]. split; [lia|]. exists [], buf. by rewrite app_nil_r. }
    assert (Hpre : len - did = Z.of_nat (length (drop (Z.to_nat did) buf)) \/
                   (len - did <= 0 /\ drop (Z.to_nat did) buf = [])).
    { rewrite length_drop.
      destruct (Z.le_gt_cases did len); [left; lia|].
      right. split; [lia|]. apply drop_ge. lia. }
    specialize (IH (drop (Z.to_nat did) buf) (len - did)
                  (wire ++ take (Z.to_nat did) buf) Hpre).
    destruct (tcp_write_loop calls _ _ _) as [rc w| |]; [|exact IH|exact I].
    destruct IH as (Hrc & Hall & d & rest & Hd & Hrest).
    split; [exact Hrc|]. split.
    + intros H. rewrite (Hall H), <- app_assoc, take_drop. reflexivity.
    + exists (take (Z.to_nat did) buf ++ d), rest.
      rewrite Hd, <- !app_assoc, <- Hrest, take_drop. split; reflexivity.
Qed.

(** X23: [tcp_write] sends the buffer or fails. Called with the length of a
    non-empty buffer, it never returns a positive value; when it returns 0
    the wire holds the whole buffer behind what it held, and otherwise a part
    of it from its start; on a socket that is closed, whose poll fails or
    that is not writable it returns -1 and sends nothing. On a writable
    socket a length of zero fails [assert(len > 0)]. *)
Theorem tcp_write_all_or_error (sd : Z) (p : poll_result) (calls : list Z)
  (buf : list A) (wire : list A) :
  buf <> [] ->
  match tcp_write sd p calls buf (Z.of_nat (length buf)) wire with
  | tcp_write_returns rc wire' =>
    rc <= 0 /\ (rc = 0 -> wire' = wire ++ buf) /\
    (exists d rest, wire' = wire ++ d /\ buf = d ++ rest) /\
    (sd < 0 \/ poll_rc p < 0 \/ Z.land (poll_revents p) POLLOUT = 0 ->
     rc = -1 /\ wire' = wire)
  | tcp_write_asserts => False
  | tcp_write_blocked => True
  end /\
  (0 <= sd -> 0 <= poll_rc p -> Z.land (poll_revents p) POLLOUT <> 0 ->
   tcp_write sd p calls [] 0 wire = tcp_write_asserts).
Proof.
  intros Hne. unfold tcp_write.
  assert (Hlen : 0 < Z.of_nat (length buf))
    by (destruct buf; [contradiction|simpl; lia]).
  split.
  - destruct (Z.ltb_spec sd 0) as [Hsd|Hsd].
    { split; [lia|]. split; [lia|]. split; [|intros _; split; reflexivity].
      exists [], buf. by rewrite app_nil_r. }
    destruct (Z.ltb_spec (poll_rc p) 0) as [Hp|Hp].
    { split; [lia|]. split; [lia|]. split; [|intros _; split; reflexivity].
      exists [], buf. by rewrite app_nil_r. }
    destruct (Z.eqb_spec (Z.land (poll_revents p) POLLOUT) 0) as [Ho|Ho].
    { split; [lia|]. split; [lia|]. split; [|intros _; split; reflexivity].
      exists [], buf. by rewrite app_nil_r. }
    destruct (Z.leb_spec (Z.of_nat (length buf)) 0) as [?|_]; [lia|].
    pose proof (tcp_write_loop_spec calls buf (Z.of_nat (length buf)) wire
                  (or_introl eq_refl)) as H.
    destruct (tcp_write_loop calls buf _ wire) as [rc w| |];
      [|exact H|exact I].
    destruct H as (H1 & H2 & H3).
    split; [exact H1|]. split; [exact H2|]. split; [exact H3|].
    intros [?|[?|?]]; [lia|lia|contradiction].
  - intros Hsd Hp Ho.
    destruct (Z.ltb_spec sd 0); [lia|].
    destruct (Z.ltb_spec (poll_rc p) 0); [lia|].
    destruct (Z.eqb_spec (Z.land (poll_revents p) POLLOUT) 0);
      [contradiction|reflexivity].
Qed.

End FramingFacts.

(** ** Examples for the sections above *)

Section CoverageExamples.
Import Pipe Samples.
#[local] Existing Instance ceph_headers.

(** Close a goal with a proved fact, up to computation. *)
Ltac by_fact H := first [exact H | etransitivity; [exact H|reflexivity]].

(** An ack for 4 and then a late ack for 3 leave message 5 on [sent]. *)
Lemma handle_ack_cumulative_witness :
  sent (handle_ack 3 (handle_ack 4 sent_4_5)) = [message 5 2].
Proof.
  destruct (handle_ack_cumulative 4 3 sent_4_5) as (_ & H & _).
  - simpl. repeat constructor.
  - by_fact H.
Defined.

(** A read fault on the reliable Pipe that waits for the acks of 4 and 5:
    both messages are requeued and [out_seq] goes back to 3. *)
Lemma fault_reliable_keeps_messages_witness :
  let r := fault backoff_conf true sent_4_5 new_messenger in
  bucket (out_q r.1) 255 = [message 4 1; message 5 2] /\
  sent r.1 = [] /\ out_seq r.1 = 3.
Proof.
  intros r.
  destruct (fault_reliable_keeps_messages backoff_conf true sent_4_5
              new_messenger) as (H1 & _ & H3 & H4 & _).
  - unfold fault_recovers. simpl.
    repeat split; try discriminate; [left; reflexivity|right; discriminate].
  - unfold uint64. simpl. lia.
  - split; [by_fact H1|]. split; [by_fact H3|].
    by_fact H4.
Defined.

Lemma delay_queue_flush_or_discard_witness :
  dispatch_queue (flush_delayed delayed_8_9 dispatching).2 =
    [(11, Msg 7 127 5 0); (11, Msg 8 127 10 1); (11, Msg 9 127 20 2)] /\
  dispatch_throttler (discard_delayed delayed_8_9 dispatching).2 = Thr 5 100.
Proof.
  destruct (delay_queue_flush_or_discard delayed_8_9 dispatching
              [(100, Msg 8 127 10 1); (200, Msg 9 127 20 2)])
    as (H1 & _ & _ & _ & H5 & _); [reflexivity|].
  split; [by_fact H1|by_fact H5].
Defined.

Lemma delay_entry_delivers_in_order_witness :
  delay_entries [200; 200] delayed_8_9 dispatching =
    flush_delayed delayed_8_9 dispatching.
Proof.
  destruct (delay_entry_delivers_in_order [] 200 delayed_8_9 dispatching
              [(100, Msg 8 127 10 1); (200, Msg 9 127 20 2)])
    as [_ H]; [reflexivity|].
  apply H. repeat constructor; simpl; lia.
Defined.

(** Message 8 is new for a Pipe at [in_seq] 7: its 10 bytes stay in the
    dispatch throttle. *)
Lemma reader_dispatch_throttle_witness :
  current (dispatch_throttler
    (reader backoff_conf (TAG_MSG (frame 8) 0) open_in_7 new_messenger).2)
    = 10.
Proof.
  destruct (reader_dispatch_throttle backoff_conf (frame 8) 0 open_in_7
              new_messenger 0 (Msg 8 127 10 1)
              (acquire_throttles 10 open_in_7 new_messenger).1
              (acquire_throttles 10 open_in_7 new_messenger).2)
    as (H & _); [reflexivity|reflexivity|].
  by_fact H.
Defined.

Lemma reader_delivers_in_order_witness :
  let r := reader backoff_conf (TAG_MSG (frame 10) 300) delayed_8_9
             dispatching in
  inbound_seqs delayed_8_9 dispatching = [7; 8; 9] /\
  increasing_up_to (in_seq r.1) (inbound_seqs r.1 r.2).
Proof.
  intros r. split; [reflexivity|].
  destruct (reader_delivers_in_order backoff_conf delayed_8_9 dispatching)
    as (H & _).
  - split.
    + repeat constructor; lia.
    + repeat constructor; simpl; lia.
  - apply H.
Defined.

Lemma accept_retry_keeps_session_witness :
  accept_existing stale_connect accepting (Some open_session) 0
    (registry_with open_session) =
    (goto_reply (Reply CEPH_MSGR_TAG_RETRY_SESSION 0 4), Some open_session,
     registry_with open_session) /\
  msg_connect_seq stale_connect <= connect_seq open_session.
Proof.
  split; [reflexivity|].
  destruct (accept_retry_keeps_session stale_connect accepting open_session 0
              (registry_with open_session)
              (Reply CEPH_MSGR_TAG_RETRY_SESSION 0 4) (Some open_session)
              (registry_with open_session) eq_refl) as (_ & _ & _ & H & _).
  exact H.
Defined.

(** Scenario S4 with the peer having received 41: only 42 is sent
    again, under its seq, before the message that was never sent. *)
Lemma accept_replace_resends_unacked_witness :
  let this2 :=
    discard_requeued_up_to 41
      (accept_replace first_connect accepting resuming
         (registry_with resuming)).1.1.1 in
  bucket (out_q this2) 255 = [message 42 2; Msg 0 255 0 3] /\
  out_seq this2 = 41 /\
  exists p', writer_drain 1 this2 = Some ([message 42 2], p').
Proof.
  intros this2.
  destruct (accept_replace_resends_unacked first_connect accepting resuming
              (registry_with resuming) 41)
    as (H1 & H2 & H3).
  - reflexivity.
  - unfold uint64. simpl. lia.
  - simpl. lia.
  - vm_compute. repeat split.
  - intros m [= <-]. left. reflexivity.
  - split; [by_fact H1|]. split; [by_fact H2|].
    destruct H3 as ((p' & H3 & _) & _).
    + intros k l Hk _. simpl in Hk.
      apply lookup_singleton_Some in Hk as [<- _]. simpl. lia.
    + intros k l Hk. simpl in Hk. rewrite lookup_empty in Hk. discriminate.
    + exists p'. by_fact H3.
Defined.

Lemma accept_replace_hands_over_inbound_witness :
  let r := accept_replace first_connect accepting delayed_8_9 dispatching in
  in_seq r.1.1.1 = 9 /\ inbound_seqs r.1.1.1 r.1.2 = [7; 8; 9].
Proof.
  intros r.
  destruct (accept_replace_hands_over_inbound first_connect accepting
              delayed_8_9 dispatching) as [H1 H2]; [reflexivity|].
  split; [by_fact H1|by_fact H2].
Defined.

Lemma sent_consistent_invariant_witness :
  sent_consistent
    (writer backoff_conf failing_write queued_behind_4_5 new_messenger).1.2.
Proof.
  destruct (sent_consistent_invariant backoff_conf queued_behind_4_5
              new_messenger) as [H _].
  - split; [vm_compute; repeat split|]. intros Hl. discriminate Hl.
  - apply H.
Defined.

(** The write of message 6 fails: 4, 5 and 6 are queued again in this
    order and [out_seq] goes back to 3. *)
Lemma writer_failed_write_requeues_witness :
  let r := writer backoff_conf failing_write queued_behind_4_5
             new_messenger in
  bucket (out_q r.1.2) 255 = [message 4 1; message 5 2; message 6 7] /\
  sent r.1.2 = [] /\ out_seq r.1.2 = 3.
Proof.
  intros r.
  destruct (writer_failed_write_requeues backoff_conf failing_write
              queued_behind_4_5 new_messenger (message 0 7)
              (<[127 := []]> {[127 := [message 0 7]]}))
    as (_ & _ & H3 & _ & H5 & H6 & _).
  - reflexivity.
  - reflexivity.
  - reflexivity.
  - intros _. simpl. lia.
  - intros _. simpl. lia.
  - simpl. lia.
  - split; [by_fact H3|]. split; [by_fact H5|].
    by_fact H6.
Defined.

(** With IOV_MAX at 4 the header goes out in a first [do_sendmsg] and the
    payload and footer in a second one, in two short writes; the empty
    buffer is skipped. *)
Lemma write_message_frames_witness :
  write_message 4 7 [8; 9] [0] fragmented two_sends [] =
    write_returns 0 [7; 8; 9; 1; 2; 3; 0] /\
  frames [] [7; 8; 9; 1; 2; 3; 0]
    (write_message 4 7 [8; 9] [0] fragmented two_sends []).
Proof.
  split; [reflexivity|].
  destruct (write_message_frames 4 7 [8; 9] [0] fragmented two_sends [])
    as [H _].
  apply H.
  - vm_compute. discriminate.
  - right. exists [1; 2], [[]; [3]]. split; [reflexivity|discriminate].
Defined.

End CoverageExamples.

(** ** The handshake on the connecting side *)

Section ConnectFacts.
Import Pipe.
Context {hdr : Headers}.
Variable LOSSY : Z.

Lemma connect_fail_locked_returns (conf : Config) (p : Pipe) (ms : Messenger) :
  (connect_fail_locked conf p ms).1.1 = connect_returns (-1).
Proof.
  unfold connect_fail_locked.
  destruct (state_is STATE_CONNECTING p); [|reflexivity].
  destruct (fault conf false p ms). reflexivity.
Qed.

Lemma connect_open_spec (v : connect_vars) (reply : connect_reply_read)
  (io : connect_io) (p p' : Pipe) (ms ms' : Messenger) (next : connect_next) :
  connect_open LOSSY v reply io p ms = (next, p', ms') ->
  next <> connect_returns (-1) /\
  (forall v', next <> connect_continue v') /\
  (next = connect_returns 0 ->
   state p' = STATE_OPEN /\
   connect_seq p' = wrap32 (cseq v + 1) /\
   connect_seq p' = read_connect_seq reply /\
   backoff p' = 0 /\ peer_global_seq p' = read_global_seq reply /\
   out_q p' = out_q p /\ sent p' = sent p /\ out_seq p' = out_seq p /\
   in_seq p' = in_seq p /\
   notices ms' = notices ms ++ [queue_connect (connection_state p)] /\
   dispatch_queue ms' = dispatch_queue ms).
Proof.
  unfold connect_open. simpl connect_seq.
  destruct (Z.eqb_spec (wrap32 (cseq v + 1)) (read_connect_seq reply))
    as [He|Hne]; simpl negb; cbv iota.
  - intros [= <- <- <-].
    split; [discriminate|]. split; [discriminate|]. intros _.
    unfold maybe_start_delay_thread. simpl.
    destruct (delay_thread p); [|destruct (inject_delay io)]; simpl;
      repeat split; assumption.
  - intros [= <- <- <-].
    split; [discriminate|]. split; [discriminate|]. discriminate.
Qed.

(** X24: how a turn of the handshake loop of [connect] ends. It returns 0 only
    on a READY or SEQ reply read by a Pipe that is still CONNECTING; the
    Pipe is then OPEN with [connect_seq] one above the value it offered
    (which is the value in the reply), its backoff reset and a connect
    notice queued; [out_q], [out_seq] and [in_seq] are untouched, and
    [sent] is trimmed by the acked seq of a SEQ reply and by nothing else,
    so what a fault has requeued is sent again whatever the peer has
    acked. When the turn ends in [continue] and the offered [cseq] was the
    Pipe's [connect_seq], it still is, and the Pipe is still CONNECTING.
    Every other return is -1. *)
Theorem connect_turn_outcomes (conf : Config) (v : connect_vars)
  (reply : connect_reply_read) (io : connect_io) (p p' : Pipe)
  (ms ms' : Messenger) (next : connect_next) :
  connect_reply LOSSY conf v reply io p ms = (next, p', ms') ->
  (next = connect_returns 0 ->
   (read_tag reply = reply_with CEPH_MSGR_TAG_READY \/
    read_tag reply = reply_with CEPH_MSGR_TAG_SEQ) /\
   state p = STATE_CONNECTING /\
   state p' = STATE_OPEN /\
   connect_seq p' = wrap32 (cseq v + 1) /\
   connect_seq p' = read_connect_seq reply /\
   backoff p' = 0 /\
   out_q p' = out_q p /\ out_seq p' = out_seq p /\ in_seq p' = in_seq p /\
   sent p' =
     match read_tag reply, acked_read io with
     | reply_with CEPH_MSGR_TAG_SEQ, Some acked => trim_sent acked (sent p)
     | _, _ => sent p
     end /\
   notices ms' = notices ms ++ [queue_connect (connection_state p)]) /\
  (forall v', next = connect_continue v' -> cseq v = connect_seq p ->
   cseq v' = connect_seq p' /\ state p' = STATE_CONNECTING) /\
  (forall rc, next = connect_returns rc -> rc = 0 \/ rc = -1).
Proof.
  unfold connect_reply.
  assert (Hfail : forall q qs,
    connect_fail_locked conf q qs = (next, p', ms') ->
    next = connect_returns (-1)).
  { intros q qs H. pose proof (connect_fail_locked_returns conf q qs) as Hr.
    rewrite H in Hr. exact Hr. }
  assert (Hminus : next = connect_returns (-1) ->
    (next = connect_returns 0 ->
     (read_tag reply = reply_with CEPH_MSGR_TAG_READY \/
      read_tag reply = reply_with CEPH_MSGR_TAG_SEQ) /\
     state p = STATE_CONNECTING /\
     state p' = STATE_OPEN /\
     connect_seq p' = wrap32 (cseq v + 1) /\
     connect_seq p' = read_connect_seq reply /\
     backoff p' = 0 /\
     out_q p' = out_q p /\ out_seq p' = out_seq p /\ in_seq p' = in_seq p /\
     sent p' =
       match read_tag reply, acked_read io with
       | reply_with CEPH_MSGR_TAG_SEQ, Some acked => trim_sent acked (sent p)
       | _, _ => sent p
       end /\
     notices ms' = notices ms ++ [queue_connect (connection_state p)]) /\
    (forall v', next = connect_continue v' -> cseq v = connect_seq p ->
     cseq v' = connect_seq p' /\ state p' = STATE_CONNECTING) /\
    (forall rc, next = connect_returns rc -> rc = 0 \/ rc = -1)).
  { intros ->. split; [discriminate|]. split; [discriminate|].
    intros rc [= <-]. right. reflexivity. }
  destruct (exchange_ok io); simpl negb; cbv iota;
    [|intros H; apply Hminus, (Hfail _ _ H)].
  destruct (state_is STATE_CONNECTING p) eqn:Hs; simpl negb; cbv iota;
    [|intros [= <- <- <-]; apply Hminus; reflexivity].
  apply bool_decide_eq_true in Hs.
  destruct (read_tag reply) as [[| | | | |]| | | |] eqn:Htag;
    try (intros H; apply Hminus, (Hfail _ _ H)).
  - (* READY *)
    destruct (negb _); [intros H; apply Hminus, (Hfail _ _ H)|].
    intros H. destruct (connect_open_spec v reply io p p' ms ms' next H)
      as (Hn1 & Hnc & Hok).
    split; [|split].
    + intros H0. destruct (Hok H0)
        as (H1 & H2 & H3 & H4 & _ & H6 & H7 & H8 & H9 & H10 & _).
      repeat split; try assumption. left. reflexivity.
    + intros v' ->. destruct (Hnc v'). reflexivity.
    + intros rc ->. left.
      destruct (Z.eq_dec rc 0) as [->|Hrc]; [reflexivity|].
      unfold connect_open in H.
      destruct (negb _) in H; injection H as H _ _; discriminate H || congruence.
  - (* RESETSESSION *)
    pose proof (was_session_reset_spec (reset_rnd io) p ms) as Hr.
    destruct (was_session_reset (reset_rnd io) p ms) as [p1 ms1].
    cbv zeta in Hr. simpl fst in Hr. simpl snd in Hr.
    destruct Hr as (_ & _ & _ & _ & _ & Hcs & _ & _ & _ & Hst & _).
    intros [= <- <- <-]. split; [discriminate|]. split; [|discriminate].
    intros v' [= <-] _. simpl. split; [congruence|congruence].
  - (* WAIT *)
    intros [= <- <- <-]. apply Hminus. reflexivity.
  - (* RETRY_SESSION *)
    destruct (read_connect_seq reply <=? connect_seq p).
    + intros [= <- <- <-]. split; [discriminate|]. split; discriminate.
    + intros [= <- <- <-]. split; [discriminate|]. split; [|discriminate].
      intros v' [= <-] _. simpl. split; [reflexivity|exact Hs].
  - (* RETRY_GLOBAL *)
    intros [= <- <- <-]. split; [discriminate|]. split; [|discriminate].
    intros v' [= <-] Hc. simpl. split; [exact Hc|exact Hs].
  - (* SEQ *)
    destruct (negb _); [intros H; apply Hminus, (Hfail _ _ H)|].
    destruct (acked_read io) as [acked|];
      [|intros H; apply Hminus, (Hfail _ _ H)].
    destruct (negb (in_seq_written io));
      [intros H; apply Hminus, (Hfail _ _ H)|].
    intros H.
    destruct (connect_open_spec v reply io (handle_ack acked p) p' ms ms'
                next H) as (Hn1 & Hnc & Hok).
    split; [|split].
    + intros H0. destruct (Hok H0)
        as (H1 & H2 & H3 & H4 & _ & H6 & H7 & H8 & H9 & H10 & _).
      rewrite handle_ack_sent in H7. rewrite handle_ack_in_seq in H9.
      assert (Hq : out_q (handle_ack acked p) = out_q p /\
                   out_seq (handle_ack acked p) = out_seq p /\
                   connection_state (handle_ack acked p) = connection_state p).
      { unfold handle_ack. simpl.
        destruct (trim_sent acked (sent p)); [destruct (close_on_empty p)|];
          repeat split. }
      destruct Hq as (Hq1 & Hq2 & Hq3).
      rewrite Hq1 in H6. rewrite Hq2 in H8. rewrite Hq3 in H10.
      repeat split; try assumption. right. reflexivity.
    + intros v' ->. destruct (Hnc v'). reflexivity.
    + intros rc ->. left.
      unfold connect_open in H.
      destruct (negb _) in H; injection H as H _ _; congruence.
  - (* BADAUTHORIZER *)
    destruct (got_bad_auth v).
    + intros [= <- <- <-]. apply Hminus. reflexivity.
    + intros [= <- <- <-]. split; [discriminate|]. split; [|discriminate].
      intros v' [= <-] Hc. simpl. split; [exact Hc|exact Hs].
Qed.

(** X25: a RETRY_SESSION is settled in one more round. The acceptor holds a
    reliable Pipe with an open or standby session at [connect_seq] [n >= 1],
    and a connecting Pipe offers a [connect_seq] between 1 and [n] with a
    [global_seq] that is not stale. The acceptor answers RETRY_SESSION and
    keeps its Pipe; when [connect] reads that reply its assertion holds, it
    takes the [connect_seq] of the reply for itself and for the next
    connect message and stays CONNECTING; and the acceptor's checks on that
    next message end in the replacement of its Pipe, not in another
    retry. *)
Theorem retry_session_converges (conf : Config) (v : connect_vars)
  (io : connect_io) (p : Pipe) (ms_c : Messenger)
  (this e : Pipe) (rnd f feats flags : Z) (ms_s : Messenger) :
  lossy (policy e) = false ->
  state e = STATE_OPEN \/ state e = STATE_STANDBY ->
  1 <= connect_seq e < 2 ^ 32 - 1 ->
  peer_global_seq e <= gseq v ->
  exchange_ok io = true -> state p = STATE_CONNECTING ->
  cseq v = connect_seq p -> 1 <= cseq v <= connect_seq e ->
  exists r v' p',
    accept_existing (Connect f (gseq v) (cseq v)) this (Some e) rnd ms_s =
      (goto_reply r, Some e, ms_s) /\
    reply_tag r = CEPH_MSGR_TAG_RETRY_SESSION /\
    connect_reply LOSSY conf v (on_wire r feats flags) io p ms_c =
      (connect_continue v', p', ms_c) /\
    cseq v' = connect_seq e + 1 /\ connect_seq p' = cseq v' /\
    gseq v' = gseq v /\ state p' = STATE_CONNECTING /\
    accept_existing (Connect f (gseq v') (cseq v')) this (Some e) rnd ms_s =
      (goto_replace, Some e, ms_s).
Proof.
  intros Hl Hst Hn Hg Hio Hs Hc Hcs.
  assert (Hw : wrap32 (connect_seq e + 1) = connect_seq e + 1)
    by (unfold wrap32; apply Z.mod_small; lia).
  exists (Reply CEPH_MSGR_TAG_RETRY_SESSION 0 (connect_seq e + 1)),
         (Vars (connect_seq e + 1) (gseq v) (got_bad_auth v)),
         (set_connect_seq (connect_seq e + 1) p).
  assert (Hopen : state_is STATE_OPEN e || state_is STATE_STANDBY e = true).
  { destruct Hst as [H|H].
    - rewrite (state_is_true STATE_OPEN e H). reflexivity.
    - rewrite (state_is_true STATE_STANDBY e H). apply orb_true_r. }
  split; [|split; [reflexivity|split; [|repeat split]]].
  - unfold accept_existing, retry_session. simpl.
    destruct (Z.ltb_spec (gseq v) (peer_global_seq e)); [lia|].
    rewrite Hl, Hw.
    destruct (Z.eqb_spec (cseq v) 0); [lia|]. simpl andb. cbv iota.
    destruct (Z.ltb_spec (cseq v) (connect_seq e)); [reflexivity|].
    destruct (Z.eqb_spec (cseq v) (connect_seq e)); [|lia].
    rewrite Hopen. reflexivity.
  - unfold connect_reply. rewrite Hio. simpl negb. cbv iota.
    rewrite (state_is_true STATE_CONNECTING p Hs). simpl.
    destruct (Z.leb_spec (connect_seq e + 1) (connect_seq p)); [lia|].
    reflexivity.
  - exact Hs.
  - unfold accept_existing. simpl.
    destruct (Z.ltb_spec (gseq v) (peer_global_seq e)); [lia|].
    rewrite Hl.
    destruct (Z.eqb_spec (connect_seq e + 1) 0); [lia|]. simpl andb. cbv iota.
    destruct (Z.ltb_spec (connect_seq e + 1) (connect_seq e)); [lia|].
    destruct (Z.eqb_spec (connect_seq e + 1) (connect_seq e)); [lia|].
    destruct (Z.eqb_spec (connect_seq e) 0); [lia|].
    rewrite andb_false_r. reflexivity.
Qed.

(** X26: both ends agree after a successful handshake. The acceptor opens the
    session a connect message asks for, and the connecting Pipe, still
    CONNECTING, reads the reply (with, for a SEQ reply, the acked seq read
    and its own [in_seq] written). Then [connect] returns 0, its assertion
    on the [connect_seq] of the reply holds, both Pipes are OPEN with the
    same [connect_seq], one above the value offered, each has the other's
    global seq, the connecting Pipe is lossy exactly when the acceptor's
    policy is, and the acceptor's Pipe is registered under its peer
    address. *)
Theorem handshake_agrees (conf : Config) (v : connect_vars) (io : connect_io)
  (p : Pipe) (ms_c : Messenger)
  (connect : ceph_msg_connect) (existing_seq : option Z) (global_seq : Z)
  (handler : bool) (registered : option Pipe) (this this' : Pipe)
  (ms_s ms_s' : Messenger) (reply : connect_reply_read) :
  LOSSY <> 0 ->
  exchange_ok io = true -> state p = STATE_CONNECTING ->
  msg_connect_seq connect = cseq v -> 0 <= cseq v < 2 ^ 32 - 1 ->
  Z.land (features_required (policy p))
         (Z.lnot (features_supported (policy this))) = 0 ->
  (existing_seq = None \/
   (acked_read io <> None /\ in_seq_written io = true)) ->
  accept_open LOSSY connect existing_seq global_seq handler false registered
    this ms_s = accept_opens reply this' ms_s' ->
  let r := connect_reply LOSSY conf v reply io p ms_c in
  r.1.1 = connect_returns 0 /\
  state r.1.2 = STATE_OPEN /\ state this' = STATE_OPEN /\
  connect_seq r.1.2 = cseq v + 1 /\ connect_seq this' = cseq v + 1 /\
  peer_global_seq r.1.2 = global_seq /\
  peer_global_seq this' = msg_global_seq connect /\
  lossy (policy r.1.2) = lossy (policy this') /\
  rank_pipe ms_s' !! peer_addr this = Some (self this).
Proof.
  intros HL Hio Hs Hc Hb Hf Hseq Hopen r.
  assert (Hw : wrap32 (cseq v + 1) = cseq v + 1)
    by (unfold wrap32; apply Z.mod_small; lia).
  unfold accept_open in Hopen.
  destruct registered as [other|]; [discriminate Hopen|].
  simpl in Hopen. injection Hopen as <- <- <-.
  assert (Hlossy : forall b : bool,
    negb (Z.land (if b then Z.lor 0 LOSSY else 0) LOSSY =? 0) = b).
  { intros [|]; simpl.
    - rewrite Z.land_diag. destruct (Z.eqb_spec LOSSY 0); [contradiction|].
      reflexivity.
    - reflexivity. }
  subst r. simpl. rewrite Hc, Hw.
  unfold connect_reply. rewrite Hio. simpl negb. cbv iota.
  rewrite (state_is_true STATE_CONNECTING p Hs). simpl negb. cbv iota.
  simpl read_tag. simpl read_features.
  destruct existing_seq as [es|].
  - destruct Hseq as [Hn|[Hacked Hwr]]; [discriminate|].
    rewrite Hf. simpl negb. cbv iota.
    destruct (acked_read io) as [acked|]; [|contradiction].
    rewrite Hwr. simpl negb. cbv iota.
    assert (Hq : state (handle_ack acked p) = STATE_CONNECTING \/
                 state (handle_ack acked p) = STATE_CLOSED).
    { unfold handle_ack. simpl.
      destruct (trim_sent acked (sent p)); [destruct (close_on_empty p)|];
        simpl; auto. }
    assert (Hpol : policy (handle_ack acked p) = policy p).
    { unfold handle_ack. simpl.
      destruct (trim_sent acked (sent p)); [destruct (close_on_empty p)|];
        reflexivity. }
    unfold connect_open. simpl. rewrite ?Hc, ?Hw, Z.eqb_refl. simpl.
    unfold maybe_start_delay_thread. simpl.
    destruct (delay_thread (handle_ack acked p));
      [|destruct (inject_delay io)]; simpl;
      repeat split; try exact Hw; try apply Hlossy; apply lookup_insert_eq.
  - rewrite Hf. simpl negb. cbv iota.
    unfold connect_open. simpl. rewrite ?Hc, ?Hw, Z.eqb_refl. simpl.
    unfold maybe_start_delay_thread. simpl.
    destruct (delay_thread p); [|destruct (inject_delay io)]; simpl;
      repeat split; try exact Hw; try apply Hlossy; apply lookup_insert_eq.
Qed.

End ConnectFacts.

(** ** Examples for the connecting side *)

Section ConnectExamples.
Import Pipe Samples.
#[local] Existing Instance ceph_headers.

(** The reconnect succeeds on a SEQ reply: the Pipe is OPEN at connect_seq
    2, and the requeued message 41 is still queued although the peer has
    acked it. *)
Lemma connect_turn_outcomes_witness :
  let r := connect_reply 1 backoff_conf reconnect_vars seq_reply good_socket
             reconnecting new_messenger in
  r.1.1 = connect_returns 0 /\
  state r.1.2 = STATE_OPEN /\ connect_seq r.1.2 = 2 /\
  bucket (out_q r.1.2) 255 = [message 41 1].
Proof.
  intros r.
  destruct (connect_turn_outcomes 1 backoff_conf reconnect_vars seq_reply
              good_socket reconnecting r.1.2 new_messenger r.2 r.1.1
              eq_refl) as (H & _).
  destruct (H eq_refl) as (_ & _ & H3 & _ & H5 & _ & H7 & _).
  split; [reflexivity|]. split; [exact H3|]. split; [exact H5|].
  rewrite H7. reflexivity.
Defined.

Lemma retry_session_converges_witness :
  exists r v' p',
    accept_existing (Connect 0 5 1) accepting (Some open_session) 0
      (registry_with open_session) =
      (goto_reply r, Some open_session, registry_with open_session) /\
    reply_tag r = CEPH_MSGR_TAG_RETRY_SESSION /\
    connect_reply 1 backoff_conf reconnect_vars (on_wire r 0 0) good_socket
      reconnecting new_messenger = (connect_continue v', p', new_messenger) /\
    cseq v' = 4 /\ connect_seq p' = cseq v' /\
    gseq v' = 5 /\ state p' = STATE_CONNECTING /\
    accept_existing (Connect 0 (gseq v') (cseq v')) accepting
      (Some open_session) 0 (registry_with open_session) =
      (goto_replace, Some open_session, registry_with open_session).
Proof.
  apply (retry_session_converges 1 backoff_conf reconnect_vars good_socket
           reconnecting new_messenger accepting open_session 0 0 0 0
           (registry_with open_session)).
  - reflexivity.
  - left. reflexivity.
  - simpl. lia.
  - simpl. lia.
  - reflexivity.
  - reflexivity.
  - reflexivity.
  - simpl. lia.
Defined.

(** Three bytes leave in two [rsend] calls with an idle one between them;
    and a write of no bytes fails the assertion. *)
Lemma tcp_write_all_or_error_witness :
  tcp_write 3 (Poll 1 POLLOUT) [2; 0; 1] [7; 8; 9] 3 [] =
    tcp_write_returns 0 [7; 8; 9] /\
  tcp_write (A := Z) 3 (Poll 1 POLLOUT) [] [] 0 [] = tcp_write_asserts.
Proof.
  split; [reflexivity|].
  destruct (tcp_write_all_or_error 3 (Poll 1 POLLOUT) [2; 0; 1] [7; 8; 9] [])
    as [_ H]; [discriminate|].
  apply H; [lia|simpl; lia|discriminate].
Defined.

(** The acceptor opens the session for a connect at connect_seq 1 and the
    connecting Pipe reads its READY reply: both are at connect_seq 2. *)
Lemma handshake_agrees_witness :
  let reply := ReplyRead (reply_with CEPH_MSGR_TAG_READY) 0 9 2 0 in
  let r := connect_reply 1 backoff_conf reconnect_vars reply good_socket
             reconnecting new_messenger in
  let registry :=
    set_rank_pipe {[addrA := 2%nat]}
      (queue_notice (queue_accept 2) new_messenger) in
  accept_open 1 (Connect 0 5 1) None 9 false false None accepting
    new_messenger =
    accept_opens reply
      (set_state STATE_OPEN
         (set_peer_global_seq 5 (set_connect_seq 2 accepting)))
      registry /\
  r.1.1 = connect_returns 0 /\ connect_seq r.1.2 = 2.
Proof.
  intros reply r registry. split; [reflexivity|].
  destruct (handshake_agrees 1 backoff_conf reconnect_vars good_socket
              reconnecting new_messenger (Connect 0 5 1) None 9 false None
              accepting
              (set_state STATE_OPEN
                 (set_peer_global_seq 5 (set_connect_seq 2 accepting)))
              new_messenger registry reply)
    as (H1 & _ & _ & H4 & _).
  - discriminate.
  - reflexivity.
  - reflexivity.
  - reflexivity.
  - simpl. lia.
  - reflexivity.
  - left. reflexivity.
  - reflexivity.
  - split; [exact H1|exact H4].
Defined.

End ConnectExamples.
